(** * The per-frame script engine of [engine.jsx]

    A shallow embedding of the [Scene] component of
    [src/components/engine.jsx]: the script compilation cache (the two
    refs [sceneScriptRef] and [modelScriptsRef]), the capability bindings
    handed to every script ([getModelByName], [getAnimationsForModel],
    [playAnimation], [stopAnimation], [createHTML], [removeHTML]), the
    cache-reset effect and the [useFrame] driver, together with the
    [Engine] handlers they call back into ([handlePlayAnimation],
    [handleStopAnimation], [toggleEditMode], [handleScriptChange],
    [deleteModel]).

    What the browser and three.js provide is modelled by its interface
    only: the DOM as a tree of nodes with ids, the animation mixer as the
    list of its running actions and a clock, [new Function] as a parser
    from source text to a script body.  The mixer's clock and the frame
    deltas are JavaScript numbers, IEEE 754 doubles, and are added as
    such.

    A script body is a tree of capability calls, so that the host's
    handlers stay visible between any two steps of a script.  Scripts
    act on the world through the capabilities, through [userData] of the
    objects they hold and through their own variables; what a script
    could do besides with the globals of the page ([document], timers)
    is not modelled.  A render and the effect that follows it are taken
    as one step between two frames. *)

From stdpp Require Import gmap strings list.
From Stdlib Require Import SpecFloat.

Set Warnings "-register-all".
Open Scope string_scope.
Open Scope list_scope.

(** ** Numbers *)

(** A JavaScript number where the code computes with it: a binary64
    value, with the addition of IEEE 754 (round to nearest, ties to
    even). *)
Module Double.

Definition t : Type := spec_float.

Definition prec : Z := 53.
Definition emax : Z := 1024.

(** [x + y] *)
Definition add (x y : t) : t := SFadd prec emax x y.

(** The double nearest to [m * 2 ^ e]. *)
Definition scaled (m e : Z) : t := binary_normalize prec emax m e false.

(** The double nearest to an integer. *)
Definition of_Z (n : Z) : t := scaled n 0.

Definition zero : t := S754_zero false.

End Double.

Global Instance spec_float_eq_dec : EqDecision spec_float.
Proof. solve_decision. Defined.

(** ** The document *)

Module Dom.

Inductive Node :=
| Text (s : string)
| Element (tag : string) (id : option string) (children : list Node).

(** The part of the document the engine can observe, in tree order: the
    elements that precede the overlay root, the child nodes of the
    overlay root (present once [overlayRef.current] is set), and the
    elements that follow it.  The overlay root itself carries the id
    [scriptOverlay]. *)
Record Document := {
  doc_before : list Node;
  doc_overlay : option (list Node);
  doc_after : list Node
}.

Definition overlay_id : string := "scriptOverlay".

(** What [document.getElementById] can return, by position. *)
Inductive ElemRef :=
| InBefore
| OverlayRoot
| OverlayChild (i : nat)
| OverlayDescendant (i : nat)
| InAfter.

Definition is_element (n : Node) : bool :=
  match n with Element _ _ _ => true | Text _ => false end.

(** A lookup by id [i] matches an element whose [id] attribute is [o].
    The empty string matches nothing: [document.getElementById('')] is
    [null] whatever ids the elements carry. *)
Definition id_matches (i : string) (o : option string) : bool :=
  match o with
  | Some j => bool_decide (j = i) && negb (bool_decide (i = EmptyString))
  | None => false
  end.

Definition root_has_id (i : string) (n : Node) : bool :=
  match n with
  | Element _ o _ => id_matches i o
  | Text _ => false
  end.

(** Some element of the subtree is what a lookup by the id finds. *)
Fixpoint has_id (i : string) (n : Node) : bool :=
  match n with
  | Text _ => false
  | Element _ o ch => id_matches i o || existsb (has_id i) ch
  end.

(** First match among the overlay's child nodes, numbered from [k]. *)
Fixpoint find_child (i : string) (k : nat) (ch : list Node) : option ElemRef :=
  match ch with
  | [] => None
  | n :: rest =>
      if root_has_id i n then Some (OverlayChild k)
      else if has_id i n then Some (OverlayDescendant k)
      else find_child i (S k) rest
  end.

Definition find_after (i : string) (d : Document) : option ElemRef :=
  if existsb (has_id i) (doc_after d) then Some InAfter else None.

(** [document.getElementById(id)]: the first element in tree order. *)
Definition getElementById (d : Document) (i : string) : option ElemRef :=
  if existsb (has_id i) (doc_before d) then Some InBefore
  else match doc_overlay d with
       | None => find_after i d
       | Some ch =>
           if bool_decide (i = overlay_id) then Some OverlayRoot
           else match find_child i 0 ch with
                | Some r => Some r
                | None => find_after i d
                end
       end.

(** [temp.innerHTML = html; temp.firstElementChild] sees the parsed
    fragment; the parser is the browser's, so markup is carried parsed. *)
Definition Markup := list Node.

Definition firstElementChild (m : list Node) : option Node :=
  head (filter (fun n => is_element n = true) m).

Definition set_overlay (o : option (list Node)) (d : Document) : Document :=
  {| doc_before := doc_before d; doc_overlay := o; doc_after := doc_after d |}.

(** [overlay.innerHTML = ''] *)
Definition clear_overlay (d : Document) : Document :=
  match doc_overlay d with
  | Some _ => set_overlay (Some []) d
  | None => d
  end.

(** [overlay.appendChild(element)] *)
Definition appendChild (n : Node) (d : Document) : Document :=
  match doc_overlay d with
  | Some ch => set_overlay (Some (ch ++ [n])) d
  | None => d
  end.

(** [overlay.removeChild(element)]: [None] stands for the
    [NotFoundError] the DOM raises when the node is not a child. *)
Definition removeChild (r : ElemRef) (d : Document) : option Document :=
  match r, doc_overlay d with
  | OverlayChild k, Some ch => Some (set_overlay (Some (delete k ch)) d)
  | _, _ => None
  end.

(** The overlay holds a direct child with this id. *)
Definition overlay_has (i : string) (d : Document) : bool :=
  match doc_overlay d with
  | Some ch => existsb (root_has_id i) ch
  | None => false
  end.

End Dom.

(** ** Values, objects and the animation mixer *)

(** What scripts keep in [userData] and in their own variables. *)
Inductive Value :=
| VBool (b : bool)
| VNum (n : Z)
| VStr (s : string).

Record AnimationClip := {
  clip_name : string;
  clip_uuid : nat
}.

(** A three.js object: the scene, the camera or a loaded model.
    [animations] is [None] when the property is undefined. *)
Record Object3D := {
  name : string;
  animations : option (list AnimationClip);
  userData : gmap string Value
}.

(** Objects are shared by reference: the same model is reachable from
    [uploadedModels], from [activeModel] and from every script. *)
Definition Ref := nat.

Inductive JSRef :=
| Null
| Undefined
| Obj (r : Ref).

(** [mixer.clipAction(clip, root)] *)
Record Action := {
  act_clip : AnimationClip;
  act_root : Ref
}.

(** The shared [THREE.AnimationMixer], by its running actions and clock. *)
Record AnimationMixer := {
  mx_active : list Action;
  mx_time : Double.t
}.

Global Instance Value_eq_dec : EqDecision Value.
Proof. solve_decision. Defined.
Global Instance AnimationClip_eq_dec : EqDecision AnimationClip.
Proof. solve_decision. Defined.
Global Instance Action_eq_dec : EqDecision Action.
Proof. solve_decision. Defined.

Module Mixer.

Definition stopAllAction (m : AnimationMixer) : AnimationMixer :=
  {| mx_active := []; mx_time := mx_time m |}.

(** [action.play()]: schedules the action unless it already runs. *)
Definition play (a : Action) (m : AnimationMixer) : AnimationMixer :=
  {| mx_active := if bool_decide (a ∈ mx_active m) then mx_active m
                  else mx_active m ++ [a];
     mx_time := mx_time m |}.

(** [mixer.update(delta)] *)
Definition update (delta : Double.t) (m : AnimationMixer) : AnimationMixer :=
  {| mx_active := mx_active m; mx_time := Double.add (mx_time m) delta |}.

Definition playing (m : option AnimationMixer) : list Action :=
  match m with Some x => mx_active x | None => [] end.

End Mixer.

(** ** Exceptions, console output and the trace *)

Inductive Exn :=
| SyntaxError                       (* thrown by [new Function] *)
| TypeError                         (* property read on [null] *)
| ReferenceError (ident : string)   (* unbound identifier *)
| NotFoundError                     (* [removeChild] on a non-child *)
| ScriptError (msg : string).       (* thrown by a script *)

Inductive Slot :=
| SceneSlot
| EntitySlot (index : nat).

(** The messages the component writes to the console. *)
Inductive Log :=
| NoModelFound (modelName : string)
    (* "No model found for", modelName *)
| NoAnimationsFound (modelName : string)
    (* "No animations found for", modelName *)
| AnimationNotFound (animationName modelName : string)
    (* "Animation not found:", animationName, "for model", modelName *)
| PlayingAnimation (animationName modelName : string)
    (* "Playing animation:", animationName, "for model", modelName *)
| EngineNoModel
    (* "No model or animations found" *)
| EngineAnimationNotFound (animationName : string)
    (* "Animation not found:", animationName *)
| EngineCreatingMixer
    (* "Creating new mixer" *)
| EnginePlaying (animationName : string)
    (* "Playing animation:", animationName *)
| ErrorInScript (s : Slot) (e : Exn)
    (* "Error in scene script:" / "Error in model script:", inside the
       compiled function *)
| ErrorInitializing (s : Slot) (e : Exn)
    (* "Error initializing scene script:" / "... model script i:" *)
| ErrorExecutingUpdate (s : Slot) (e : Exn)
    (* "Error executing scene script update:" / "... model script i update:" *)
| ErrorInModelScript (index : nat) (e : Exn)
    (* "Error in model script i:", the per-model catch *)
| ErrorInScriptExecution (e : Exn).
    (* "Error in script execution:", the outermost catch *)

(** The trace lists what happened, newest first.  [EvLog] is console
    output; the other events mark the places of the driver that the
    properties count: the mixer update, the evaluation of [new Function],
    the call of the compiled function (the script's top-level statements),
    the call of a unit's [update], and a script's write to [userData]. *)
Inductive Event :=
| EvLog (l : Log)
| EvMixerUpdate (delta : Double.t)
| EvParse (s : Slot)
| EvTopLevel (s : Slot)
| EvUpdate (s : Slot)
| EvWrite (o : Ref) (key : string) (v : Value).

Global Instance Exn_eq_dec : EqDecision Exn.
Proof. solve_decision. Defined.
Global Instance Slot_eq_dec : EqDecision Slot.
Proof. solve_decision. Defined.
Global Instance Log_eq_dec : EqDecision Log.
Proof. solve_decision. Defined.
Global Instance Event_eq_dec : EqDecision Event.
Proof. solve_decision. Defined.

(** ** The world scripts act on *)

Record World := {
  objects : gmap Ref Object3D;
  mixer : option AnimationMixer;
  document : Dom.Document;
  trace : list Event
}.

Definition set_objects (o : gmap Ref Object3D) (w : World) : World :=
  {| objects := o; mixer := mixer w; document := document w; trace := trace w |}.
Definition set_mixer (m : option AnimationMixer) (w : World) : World :=
  {| objects := objects w; mixer := m; document := document w; trace := trace w |}.
Definition set_document (d : Dom.Document) (w : World) : World :=
  {| objects := objects w; mixer := mixer w; document := d; trace := trace w |}.
Definition emit (e : Event) (w : World) : World :=
  {| objects := objects w; mixer := mixer w; document := document w;
     trace := e :: trace w |}.
Definition console (l : Log) (w : World) : World := emit (EvLog l) w.

(** ** Scripts *)

Inductive Completion (X : Type) :=
| Normal (x : X)
| Abrupt (e : Exn).
Arguments Normal {X} x.
Arguments Abrupt {X} e.

(** The capabilities a script can invoke, indexed by their result.  The
    first six are the functions the driver passes in; [GetUserData] and
    [SetUserData] are reads and writes of [object.userData[key]] through
    an object reference the script holds; [GetVar] and [SetVar] are the
    script's own variables, which live in the closure of its compiled
    unit. *)
Inductive Cap : Type -> Type :=
| GetModelByName (modelName : string) : Cap JSRef
| GetAnimationsForModel (modelName : string) : Cap (list AnimationClip)
| PlayAnimation (modelName animationName : string) : Cap unit
| StopAnimation (modelName : string) : Cap unit
| CreateHTML (html : Dom.Markup) : Cap unit
| RemoveHTML (id : string) : Cap unit
| GetUserData (o : Ref) (key : string) : Cap (option Value)
| SetUserData (o : Ref) (key : string) (v : Value) : Cap unit
| GetVar (x : string) : Cap (option Value)
| SetVar (x : string) (v : Value) : Cap unit.

(** A script run: it returns, throws, or calls a capability and goes on
    with the outcome (a script may catch what a capability throws). *)
Inductive Prog (R : Type) : Type :=
| Ret (r : R)
| Throw (e : Exn)
| Call {X : Type} (c : Cap X) (k : Completion X -> Prog R).
Arguments Ret {R} r.
Arguments Throw {R} e.
Arguments Call {R X} c k.

(** A call whose exception the script does not catch. *)
Definition call {R X : Type} (c : Cap X) (k : X -> Prog R) : Prog R :=
  Call c (fun r => match r with Normal x => k x | Abrupt e => Throw e end).

Record Input := {
  keys : gmap string bool;
  mouse_x : Z;
  mouse_y : Z;
  buttons : gmap Z bool
}.

(** The parameters of a compiled function and of [update], apart from
    [THREE] and the capability functions: [model] (entity slots only),
    [scene], [input], [delta] and [camera]. *)
Record Args := {
  arg_model : option Ref;
  arg_scene : Ref;
  arg_input : Input;
  arg_delta : Double.t;
  arg_camera : Ref
}.

Definition UpdateFn := Args -> Prog unit.

(** What the compiled function returns, as far as the driver inspects it:
    its truthiness, [typeof module] and [typeof module.update]. *)
Inductive JSModule :=
| JNull
| JUndefined
| JPrimitive (truthy : bool)
| JFunction
| JObject (update : option UpdateFn).

Definition truthy (m : JSModule) : bool :=
  match m with
  | JNull | JUndefined => false
  | JPrimitive b => b
  | JFunction | JObject _ => true
  end.

(** [{ update: () => {} }] *)
Definition noop_module : JSModule := JObject (Some (fun _ => Ret tt)).

Definition Env := gmap string Value.

(** ** Props of the [Scene] component *)

(** An entry of the [modelScripts] array: a string, [undefined], or a hole
    left by an assignment past the end of the array. *)
Inductive ScriptItem :=
| Hole
| Undef
| Src (text : string).

Record Props := {
  activeModel : option Ref;
  isEditMode : bool;
  modelScripts : list ScriptItem;
  sceneScript : string;
  uploadedModels : list Ref;
  modelNames : list string
}.

(** [modelScripts[index]] when it is a non-empty string, i.e. when
    [if (script)] succeeds. *)
Definition script_at (p : Props) (index : nat) : option string :=
  match modelScripts p !! index with
  | Some (Src text) => if bool_decide (text = EmptyString) then None else Some text
  | _ => None
  end.

(** ** Capability bindings *)

Section Capabilities.

Variable p : Props.

(** [array.indexOf(x)] *)
Fixpoint indexOf (x : string) (l : list string) : option nat :=
  match l with
  | [] => None
  | y :: rest => if bool_decide (x = y) then Some 0
                 else S <$> indexOf x rest
  end.

Definition getModelByName (modelName : string) : JSRef :=
  match indexOf modelName (modelNames p) with
  | Some index =>
      match uploadedModels p !! index with
      | Some r => Obj r
      | None => Undefined
      end
  | None => Null
  end.

(** [object.animations].  The references that props and scripts hold
    point into the store; for one that did not, the property would read
    as undefined. *)
Definition animations_of (w : World) (r : Ref) : option (list AnimationClip) :=
  objects w !! r ≫= animations.

(** [model?.animations || []] *)
Definition getAnimationsForModel (modelName : string) (w : World)
  : list AnimationClip :=
  match getModelByName modelName with
  | Obj r => default [] (animations_of w r)
  | _ => []
  end.

(** [modelAnimations.find(anim => anim.name === animationName)] *)
Definition find_clip (animationName : string) (l : list AnimationClip)
  : option AnimationClip :=
  head (filter (fun c => clip_name c = animationName) l).

Definition on_mixer (f : AnimationMixer -> AnimationMixer) (w : World) : World :=
  set_mixer (f <$> mixer w) w.

(** [Engine.handlePlayAnimation], the [onPlayAnimation] callback.  With
    no mixer it asks React for one ([setMixer]) and returns; the new
    mixer only exists from the next render on. *)
Definition handlePlayAnimation (modelName animationName : string) (w : World)
  : World :=
  match activeModel p ≫= animations_of w with
  | None => console EngineNoModel w
  | Some clips =>
      match find_clip animationName clips, activeModel p with
      | Some animation, Some model =>
          match mixer w with
          | None => console EngineCreatingMixer w
          | Some _ =>
              on_mixer (Mixer.play {| act_clip := animation; act_root := model |})
                (on_mixer Mixer.stopAllAction
                   (console (EnginePlaying animationName) w))
          end
      | _, _ => console (EngineAnimationNotFound animationName) w
      end
  end.

(** [Engine.handleStopAnimation], the [onStopAnimation] callback. *)
Definition handleStopAnimation (w : World) : World :=
  on_mixer Mixer.stopAllAction w.

Definition active_named (modelName : string) (w : World) : option Ref :=
  match activeModel p with
  | Some a =>
      match objects w !! a with
      | Some o => if bool_decide (modelName = name o) then Some a else None
      | None => None
      end
  | None => None
  end.

(** The [targetModel] of [playAnimation]: the active model when its
    name matches, else the model registered under the name. *)
Definition targetModel (modelName : string) (w : World) : JSRef :=
  match active_named modelName w with
  | Some a => Obj a
  | None => getModelByName modelName
  end.

(** [playAnimation].  [targetModel.animations || animations] reads the
    identifier [animations], which no scope of [Scene] binds, whenever
    the left operand is undefined. *)
Definition playAnimation (modelName animationName : string) (w : World)
  : World * Completion unit :=
  match mixer w with
  | None => (w, Normal tt)
  | Some _ =>
      match targetModel modelName w with
      | Obj target =>
          match animations_of w target with
          | None => (w, Abrupt (ReferenceError "animations"))
          | Some [] => (console (NoAnimationsFound modelName) w, Normal tt)
          | Some modelAnimations =>
              match find_clip animationName modelAnimations with
              | None =>
                  (console (AnimationNotFound animationName modelName) w,
                   Normal tt)
              | Some animation =>
                  let w1 := console (PlayingAnimation animationName modelName) w in
                  let w2 := on_mixer Mixer.stopAllAction w1 in
                  let w3 := on_mixer
                              (Mixer.play {| act_clip := animation;
                                             act_root := target |}) w2 in
                  (handlePlayAnimation modelName animationName w3, Normal tt)
              end
          end
      | _ => (console (NoModelFound modelName) w, Normal tt)
      end
  end.

Definition stopAnimation (modelName : string) (w : World) : World :=
  handleStopAnimation (on_mixer Mixer.stopAllAction w).

Definition createHTML (html : Dom.Markup) (w : World) : World :=
  match Dom.doc_overlay (document w) with
  | None => w
  | Some _ =>
      match Dom.firstElementChild html with
      | Some element => set_document (Dom.appendChild element (document w)) w
      | None => w
      end
  end.

Definition removeHTML (id : string) (w : World) : World * Completion unit :=
  match Dom.getElementById (document w) id, Dom.doc_overlay (document w) with
  | Some element, Some _ =>
      match Dom.removeChild element (document w) with
      | Some d => (set_document d w, Normal tt)
      | None => (w, Abrupt NotFoundError)
      end
  | _, _ => (w, Normal tt)
  end.

Definition set_userData (key : string) (v : Value) (o : Object3D) : Object3D :=
  {| name := name o; animations := animations o;
     userData := <[key := v]> (userData o) |}.

(** One capability call, on the closure variables of the running unit
    and the world.  The call is answered by the functions of the render
    whose [useFrame] callback makes it, those under [p]: these are the
    functions the driver passes to the compiled function and to every
    call of [update].  A function that a unit kept from the call that
    compiled it, in place of the parameter of [update], is a function
    of that earlier render, with that render's props and mixer; it is
    the function modelled here as long as the props are those the unit
    was compiled under and no mixer has been created since, as in a
    run of [frames] that starts with an empty cache. *)
Definition handle {X : Type} (c : Cap X) (st : Env * World)
  : Env * World * Completion X :=
  let '(env, w) := st in
  match c in Cap X return Env * World * Completion X with
  | GetModelByName modelName => (env, w, Normal (getModelByName modelName))
  | GetAnimationsForModel modelName =>
      (env, w, Normal (getAnimationsForModel modelName w))
  | PlayAnimation modelName animationName =>
      let '(w', r) := playAnimation modelName animationName w in (env, w', r)
  | StopAnimation modelName => (env, stopAnimation modelName w, Normal tt)
  | CreateHTML html => (env, createHTML html w, Normal tt)
  | RemoveHTML id => let '(w', r) := removeHTML id w in (env, w', r)
  | GetUserData o key =>
      match objects w !! o with
      | Some ob => (env, w, Normal (userData ob !! key))
      | None => (env, w, Abrupt TypeError)
      end
  | SetUserData o key v =>
      match objects w !! o with
      | Some ob =>
          (env,
           emit (EvWrite o key v)
             (set_objects (<[o := set_userData key v ob]> (objects w)) w),
           Normal tt)
      | None => (env, w, Abrupt TypeError)
      end
  | GetVar x => (env, w, Normal (env !! x))
  | SetVar x v => (<[x := v]> env, w, Normal tt)
  end.

(** Running a script against the host. *)
Fixpoint run {R : Type} (prog : Prog R) (st : Env * World)
  : Env * World * Completion R :=
  match prog with
  | Ret r => (st, Normal r)
  | Throw e => (st, Abrupt e)
  | Call c k => let '(st', x) := handle c st in run (k x) st'
  end.

End Capabilities.

(** ** The compilation cache *)

(** One cached slot, [{ script, module }].  [script] is [None] when the
    array entry it was taken from is [undefined].  [closure] holds the
    variables captured by the functions of [module]; it is part of the
    module object and goes away with it. *)
Record CacheEntry := {
  script : option string;
  module : JSModule;
  closure : Env
}.

Definition fresh_entry (scr : option string) : CacheEntry :=
  {| script := scr; module := JNull; closure := ∅ |}.

(** The initial value of [sceneScriptRef]: [{ script: '', module: null }]. *)
Definition initial_scene_entry : CacheEntry := fresh_entry (Some EmptyString).

(** JavaScript arrays: a read outside the array or at a hole gives
    [undefined]; a write past the end extends the array with holes. *)
Definition array_get {A : Type} (l : list (option A)) (i : nat) : option A :=
  l !! i ≫= id.

Definition array_set {A : Type} (l : list (option A)) (i : nat) (x : A)
  : list (option A) :=
  if decide (i < length l) then <[i := Some x]> l
  else l ++ replicate (i - length l) None ++ [Some x].

Record State := {
  sceneScriptRef : CacheEntry;
  modelScriptsRef : list (option CacheEntry);
  world : World
}.

Definition set_world (w : World) (s : State) : State :=
  {| sceneScriptRef := sceneScriptRef s;
     modelScriptsRef := modelScriptsRef s;
     world := w |}.

Definition set_scene_entry (e : CacheEntry) (w : World) (s : State) : State :=
  {| sceneScriptRef := e; modelScriptsRef := modelScriptsRef s; world := w |}.

Definition set_model_entry (index : nat) (e : CacheEntry) (w : World) (s : State)
  : State :=
  {| sceneScriptRef := sceneScriptRef s;
     modelScriptsRef := array_set (modelScriptsRef s) index e;
     world := w |}.

Definition log_state (l : Log) (s : State) : State :=
  set_world (console l (world s)) s.

(** *** The cache-reset effect, run after a render in which
    [sceneScript], [modelScripts] or [isEditMode] changed *)

Definition reset_if_changed (index : nat) (scr : option string)
    (refs : list (option CacheEntry)) : list (option CacheEntry) :=
  match array_get refs index with
  | Some e => if bool_decide (script e = scr) then refs
              else array_set refs index (fresh_entry scr)
  | None => array_set refs index (fresh_entry scr)
  end.

(** [modelScripts.forEach((script, index) => ...)]; [forEach] skips holes. *)
Fixpoint reset_model_caches (index : nat) (scripts : list ScriptItem)
    (refs : list (option CacheEntry)) : list (option CacheEntry) :=
  match scripts with
  | [] => refs
  | item :: rest =>
      reset_model_caches (S index) rest
        match item with
        | Hole => refs
        | Undef => reset_if_changed index None refs
        | Src text => reset_if_changed index (Some text) refs
        end
  end.

Definition script_effect (p : Props) (s : State) : State :=
  {| sceneScriptRef :=
       if bool_decide (script (sceneScriptRef s) = Some (sceneScript p))
       then sceneScriptRef s
       else fresh_entry (Some (sceneScript p));
     modelScriptsRef := reset_model_caches 0 (modelScripts p) (modelScriptsRef s);
     world := set_document (Dom.clear_overlay (document (world s))) (world s) |}.

(** ** The frame driver *)

(** The arguments of the [useFrame] callback, [(state, delta)], and the
    [input] object of the [useInput] hook as it stands at that frame. *)
Record Tick := {
  tick_scene : Ref;
  tick_camera : Ref;
  tick_input : Input;
  tick_delta : Double.t
}.

Definition scene_args (t : Tick) : Args :=
  {| arg_model := None; arg_scene := tick_scene t; arg_input := tick_input t;
     arg_delta := tick_delta t; arg_camera := tick_camera t |}.

Definition model_args (t : Tick) (model : Ref) : Args :=
  {| arg_model := Some model; arg_scene := tick_scene t;
     arg_input := tick_input t; arg_delta := tick_delta t;
     arg_camera := tick_camera t |}.

Section Driver.

(** [new Function(..., `try { ${script} } catch (error) { ... }`)] as the
    JavaScript engine evaluates it: [None] when the text is not a
    function body (the constructor throws a [SyntaxError]), else the
    behaviour of the script's statements. *)
Variable new_Function : string -> option (Args -> Prog JSModule).

Variable p : Props.

(** Calling the compiled function: the script's statements run inside
    the [try] of the wrapper, whose [catch] logs and returns a no-op
    module. *)
Definition scriptFn_call (slot : Slot) (body : Args -> Prog JSModule)
    (args : Args) (w : World) : Env * World * Completion JSModule :=
  let '(env, w', c) := run p (body args) (∅, emit (EvTopLevel slot) w) in
  match c with
  | Normal v => (env, w', Normal v)
  | Abrupt e => (env, console (ErrorInScript slot e) w', Normal noop_module)
  end.

(** Lines 393-438: build the scene module unless one is cached. *)
Definition scene_construct (t : Tick) (s : State) : State * Completion unit :=
  let e := sceneScriptRef s in
  if truthy (module e) then (s, Normal tt)
  else
    let w := emit (EvParse SceneSlot) (world s) in
    match new_Function (sceneScript p) with
    | None => (set_world w s, Abrupt SyntaxError)
    | Some scriptFn =>
        let '(env, w', c) := scriptFn_call SceneSlot scriptFn (scene_args t) w in
        match c with
        | Normal v =>
            (set_scene_entry
               {| script := script e; module := v; closure := env |} w' s,
             Normal tt)
        | Abrupt err =>
            (set_scene_entry
               {| script := script e; module := noop_module; closure := ∅ |}
               (console (ErrorInitializing SceneSlot err) w') s,
             Normal tt)
        end
    end.

(** Lines 440-463: call the cached scene module's [update]. *)
Definition scene_update (t : Tick) (s : State) : State * Completion unit :=
  let e := sceneScriptRef s in
  match module e with
  | JNull => (s, Abrupt TypeError)
  | JObject (Some update) =>
      let '(env, w, c) :=
        run p (update (scene_args t))
            (closure e, emit (EvUpdate SceneSlot) (world s)) in
      (set_scene_entry
         {| script := script e; module := module e; closure := env |}
         match c with
         | Normal _ => w
         | Abrupt err => console (ErrorExecutingUpdate SceneSlot err) w
         end s,
       Normal tt)
  | _ => (s, Normal tt)
  end.

Definition scene_part (t : Tick) (s : State) : State * Completion unit :=
  if bool_decide (sceneScript p = EmptyString) then (s, Normal tt)
  else
    match scene_construct t s with
    | (s', Normal _) => scene_update t s'
    | (s', Abrupt err) => (s', Abrupt err)
    end.

(** [modelScriptsRef.current[index]?.module] *)
Definition model_module (s : State) (index : nat) : JSModule :=
  match array_get (modelScriptsRef s) index with
  | Some e => module e
  | None => JUndefined
  end.

(** Lines 472-523: build the module of entity slot [index] unless one
    is cached. *)
Definition model_construct (t : Tick) (scr : string) (index : nat)
    (model : Ref) (s : State) : State * Completion unit :=
  if truthy (model_module s index) then (s, Normal tt)
  else
    let w := emit (EvParse (EntitySlot index)) (world s) in
    match new_Function scr with
    | None => (set_world w s, Abrupt SyntaxError)
    | Some scriptFn =>
        let e := default (fresh_entry (Some scr))
                   (array_get (modelScriptsRef s) index) in
        let '(env, w', c) :=
          scriptFn_call (EntitySlot index) scriptFn (model_args t model) w in
        match c with
        | Normal v =>
            (set_model_entry index
               {| script := script e; module := v; closure := env |} w' s,
             Normal tt)
        | Abrupt err =>
            (set_model_entry index
               {| script := script e; module := noop_module; closure := ∅ |}
               (console (ErrorInitializing (EntitySlot index) err) w') s,
             Normal tt)
        end
    end.

(** Lines 525-550: call the cached module's [update]. *)
Definition model_update (t : Tick) (index : nat) (model : Ref) (s : State)
  : State * Completion unit :=
  match array_get (modelScriptsRef s) index with
  | Some e =>
      match module e with
      | JNull => (s, Abrupt TypeError)
      | JObject (Some update) =>
          let '(env, w, c) :=
            run p (update (model_args t model))
                (closure e, emit (EvUpdate (EntitySlot index)) (world s)) in
          (set_model_entry index
             {| script := script e; module := module e; closure := env |}
             match c with
             | Normal _ => w
             | Abrupt err =>
                 console (ErrorExecutingUpdate (EntitySlot index) err) w
             end s,
           Normal tt)
      | _ => (s, Normal tt)
      end
  | None => (s, Normal tt)
  end.

(** The body of [uploadedModels.forEach((model, index) => ...)], with
    its own [try]/[catch]. *)
Definition model_step (t : Tick) (index : nat) (model : Ref) (s : State)
  : State :=
  match script_at p index with
  | None => s
  | Some scr =>
      match model_construct t scr index model s with
      | (s1, Normal _) =>
          match model_update t index model s1 with
          | (s2, Normal _) => s2
          | (s2, Abrupt err) => log_state (ErrorInModelScript index err) s2
          end
      | (s1, Abrupt err) => log_state (ErrorInModelScript index err) s1
      end
  end.

Fixpoint models_loop (t : Tick) (index : nat) (models : list Ref) (s : State)
  : State :=
  match models with
  | [] => s
  | model :: rest => models_loop t (S index) rest (model_step t index model s)
  end.

(** [if (mixer) mixer.update(delta)] *)
Definition mixer_update (delta : Double.t) (w : World) : World :=
  match mixer w with
  | Some m => emit (EvMixerUpdate delta) (set_mixer (Some (Mixer.update delta m)) w)
  | None => w
  end.

(** Lines 388-559: the script part of a frame, inside the outer [try]. *)
Definition run_scripts (t : Tick) (s : State) : State :=
  match scene_part t s with
  | (s1, Normal _) => models_loop t 0 (uploadedModels p) s1
  | (s1, Abrupt err) => log_state (ErrorInScriptExecution err) s1
  end.

(** The [useFrame] callback.  Its last statement, which re-registers
    the listener of the transform gizmo, touches nothing modelled
    here. *)
Definition useFrame (t : Tick) (s : State) : State :=
  let s0 := set_world (mixer_update (tick_delta t) (world s)) s in
  if isEditMode p then s0 else run_scripts t s0.

End Driver.

(** [n] consecutive frames under the same props, with the ticks the
    render loop supplies. *)
Fixpoint frames (new_Function : string -> option (Args -> Prog JSModule))
    (p : Props) (ticks : list Tick) (s : State) : State :=
  match ticks with
  | [] => s
  | t :: rest => frames new_Function p rest (useFrame new_Function p t s)
  end.

(** ** The [Engine] component: state changes between frames *)

(** The props [Scene] was last rendered with, the index of the active
    model (state of [Engine]), and what the refs and the world hold. *)
Record System := {
  props : Props;
  activeModelIndex : option nat;
  st : State
}.

Definition set_isEditMode (b : bool) (p : Props) : Props :=
  {| activeModel := activeModel p; isEditMode := b;
     modelScripts := modelScripts p; sceneScript := sceneScript p;
     uploadedModels := uploadedModels p; modelNames := modelNames p |}.

Definition set_sceneScript (text : string) (p : Props) : Props :=
  {| activeModel := activeModel p; isEditMode := isEditMode p;
     modelScripts := modelScripts p; sceneScript := text;
     uploadedModels := uploadedModels p; modelNames := modelNames p |}.

Definition set_modelScripts (l : list ScriptItem) (p : Props) : Props :=
  {| activeModel := activeModel p; isEditMode := isEditMode p;
     modelScripts := l; sceneScript := sceneScript p;
     uploadedModels := uploadedModels p; modelNames := modelNames p |}.

(** [toggleEditMode]: [isEditMode] is a dependency of the effect, which
    therefore runs after the render. *)
Definition toggleEditMode (sys : System) : System :=
  let p' := set_isEditMode (negb (isEditMode (props sys))) (props sys) in
  {| props := p'; activeModelIndex := activeModelIndex sys;
     st := script_effect p' (st sys) |}.

(** [[...modelScripts]]: spreading turns holes into [undefined]. *)
Definition spread (l : list ScriptItem) : list ScriptItem :=
  (fun item => match item with Hole => Undef | _ => item end) <$> l.

(** [newScripts[index] = value] *)
Definition assign_script (l : list ScriptItem) (index : nat) (value : string)
  : list ScriptItem :=
  if decide (index < length l) then <[index := Src value]> l
  else l ++ replicate (index - length l) Hole ++ [Src value].

(** [handleScriptChange(value)] with [selectedScript] the scene or a model
    index.  A scene text equal to the current one changes no dependency;
    a model text always produces a new array. *)
Definition handleScriptChange (selectedScript : Slot) (value : string)
    (sys : System) : System :=
  match selectedScript with
  | SceneSlot =>
      if bool_decide (value = sceneScript (props sys)) then sys
      else
        let p' := set_sceneScript value (props sys) in
        {| props := p'; activeModelIndex := activeModelIndex sys;
           st := script_effect p' (st sys) |}
  | EntitySlot index =>
      let p' := set_modelScripts
                  (assign_script (spread (modelScripts (props sys))) index value)
                  (props sys) in
      {| props := p'; activeModelIndex := activeModelIndex sys;
         st := script_effect p' (st sys) |}
  end.

(** [deleteModel(index)]: the model and its name leave their arrays;
    [modelScripts] and the cache are left as they are, and no dependency
    of the effect changes. *)
Definition deleteModel (index : nat) (sys : System) : System :=
  let p := props sys in
  let active := bool_decide (activeModelIndex sys = Some index) in
  {| props :=
       {| activeModel := if active then None else activeModel p;
          isEditMode := isEditMode p;
          modelScripts := modelScripts p;
          sceneScript := sceneScript p;
          uploadedModels := delete index (uploadedModels p);
          modelNames := delete index (modelNames p) |};
     activeModelIndex := if active then None else activeModelIndex sys;
     st := if active then set_world (set_mixer None (world (st sys))) (st sys)
           else st sys |}.

(** The state after the first render: the refs hold their initial values
    and the effect has run once. *)
Definition mount (p : Props) (w : World) : System :=
  {| props := p; activeModelIndex := None;
     st := script_effect p
             {| sceneScriptRef := initial_scene_entry;
                modelScriptsRef := [];
                world := w |} |}.

(** A frame of the running system. *)
Definition frame (new_Function : string -> option (Args -> Prog JSModule))
    (t : Tick) (sys : System) : System :=
  {| props := props sys; activeModelIndex := activeModelIndex sys;
     st := useFrame new_Function (props sys) t (st sys) |}.

(** ** Reading the trace *)

(** The events of [after] that [before] does not have yet. *)
Definition events_since (before after : World) : list Event :=
  take (length (trace after) - length (trace before)) (trace after).

Definition count_event (e : Event) (l : list Event) : nat :=
  length (filter (fun x => x = e) l).

(** The writes to [userData] listed in a stretch of trace, replayed oldest
    first on a store of objects. *)
Definition apply_write (ev : Event) (o : gmap Ref Object3D) : gmap Ref Object3D :=
  match ev with
  | EvWrite r key v =>
      match o !! r with
      | Some ob => <[r := set_userData key v ob]> o
      | None => o
      end
  | _ => o
  end.

Definition replay_writes (evs : list Event) (o : gmap Ref Object3D)
  : gmap Ref Object3D :=
  foldr apply_write o evs.

(** ** Concrete scenes and scripts used to exercise the model *)

Module Fixtures.

Definition div (id : string) : Dom.Node := Dom.Element "div" (Some id) [].

(** A document whose overlay holds [<div id=a>] and whose body holds a
    second [<div id=a>] after the overlay root. *)
Definition doc_duplicate : Dom.Document :=
  {| Dom.doc_before := []; Dom.doc_overlay := Some [div "a"];
     Dom.doc_after := [div "a"] |}.

(** A document with [<div id=app>] before the overlay root and an empty
    overlay. *)
Definition doc_app : Dom.Document :=
  {| Dom.doc_before := [div "app"]; Dom.doc_overlay := Some [];
     Dom.doc_after := [] |}.

Definition doc_no_overlay : Dom.Document :=
  {| Dom.doc_before := [div "app"]; Dom.doc_overlay := None;
     Dom.doc_after := [] |}.

(** A document whose overlay holds an element with an empty [id]
    attribute. *)
Definition doc_empty_id : Dom.Document :=
  {| Dom.doc_before := [div "app"];
     Dom.doc_overlay := Some [div EmptyString];
     Dom.doc_after := [] |}.

Definition doc_hud : Dom.Document :=
  {| Dom.doc_before := [div "app"]; Dom.doc_overlay := Some [div "hud"];
     Dom.doc_after := [] |}.

Definition walk : AnimationClip := {| clip_name := "walk"; clip_uuid := 1 |}.
Definition run_clip : AnimationClip := {| clip_name := "run"; clip_uuid := 2 |}.

Definition scene_ref : Ref := 0.
Definition camera_ref : Ref := 1.
Definition robot_ref : Ref := 2.
Definition crate_ref : Ref := 3.

Definition robot : Object3D :=
  {| name := "Scene"; animations := Some [walk; run_clip]; userData := ∅ |}.
Definition crate : Object3D :=
  {| name := "Crate"; animations := Some []; userData := ∅ |}.
Definition scene_obj : Object3D :=
  {| name := EmptyString; animations := Some []; userData := ∅ |}.

Definition store : gmap Ref Object3D :=
  <[scene_ref := scene_obj]>
    (<[camera_ref := scene_obj]>
       (<[robot_ref := robot]> (<[crate_ref := crate]> ∅))).

Definition idle_mixer : AnimationMixer :=
  {| mx_active := []; mx_time := Double.zero |}.

Definition world_of (m : option AnimationMixer) (d : Dom.Document) : World :=
  {| objects := store; mixer := m; document := d; trace := [] |}.

Definition w_mixer : World := world_of (Some idle_mixer) doc_app.
Definition w_no_mixer : World := world_of None doc_app.

Definition no_input : Input :=
  {| keys := ∅; mouse_x := 0; mouse_y := 0; buttons := ∅ |}.

(** A frame whose delta is the integer [delta]. *)
Definition tick (delta : Z) : Tick :=
  {| tick_scene := scene_ref; tick_camera := camera_ref;
     tick_input := no_input; tick_delta := Double.of_Z delta |}.

(** Two loaded models, [robot.glb] and [crate.glb], none active. *)
Definition props_of (edit : bool) (sceneText : string) (scripts : list ScriptItem)
  : Props :=
  {| activeModel := None; isEditMode := edit; modelScripts := scripts;
     sceneScript := sceneText; uploadedModels := [robot_ref; crate_ref];
     modelNames := ["robot.glb"; "crate.glb"] |}.

(** *** Scripts, by source text and by behaviour *)

(** Counts the frames in [model.userData.counter]. *)
Definition src_counter : string :=
  "function update(model) { model.userData.counter = (model.userData.counter || 0) + 1; } return { update };".

Definition counter_update : UpdateFn := fun a =>
  match arg_model a with
  | Some m =>
      call (GetUserData m "counter") (fun v =>
        call (SetUserData m "counter"
                (VNum (match v with Some (VNum n) => n + 1 | _ => 1 end)))
             (fun _ => Ret tt))
  | None => Throw TypeError
  end.

(** Not a function body. *)
Definition src_syntax_error : string := "function update( {".

(** Defines [update] and forgets to return it: the compiled function
    yields [undefined]. *)
Definition src_no_return : string := "function update(scene) { }".

(** Throws from its top-level statements. *)
Definition src_throw_top : string := "throw new Error('boom');".

(** Builds fine; [update] throws on every call. *)
Definition src_throw_update : string :=
  "function update() { throw new Error('boom'); } return { update };".

(** Creates [<div id=hud>] on every call of [update]. *)
Definition src_hud : string :=
  "function update(scene, THREE, getModelByName, getAnimationsForModel, playAnimation, stopAnimation, createHTML) { createHTML('<div id=hud></div>'); } return { update };".

Definition hud_update : UpdateFn := fun _ =>
  call (CreateHTML [div "hud"]) (fun _ => Ret tt).

(** Each plays one clip of [robot.glb]. *)
Definition src_play_walk : string :=
  "function update(model, scene, THREE, getModelByName, getAnimationsForModel, playAnimation) { playAnimation('robot.glb', 'walk'); } return { update };".
Definition src_play_run : string :=
  "function update(model, scene, THREE, getModelByName, getAnimationsForModel, playAnimation) { playAnimation('robot.glb', 'run'); } return { update };".
Definition src_play_jump : string :=
  "function update(model, scene, THREE, getModelByName, getAnimationsForModel, playAnimation) { playAnimation('robot.glb', 'jump'); } return { update };".

Definition play_update (modelName animationName : string) : UpdateFn := fun _ =>
  call (PlayAnimation modelName animationName) (fun _ => Ret tt).

(** Keeps a call count [n] in a variable of its own and a [total] in
    [userData]; two texts with the same behaviour. *)
Definition src_tally : string :=
  "let n = 0; function update(model) { n++; model.userData.calls = n; model.userData.total = (model.userData.total || 0) + 1; } return { update };".
Definition src_tally_v2 : string :=
  "let n = 0; function update(model) { n = n + 1; model.userData.calls = n; model.userData.total = (model.userData.total || 0) + 1; } return { update };".

Definition succ_of (v : option Value) : Z :=
  match v with Some (VNum k) => (k + 1)%Z | _ => 1%Z end.

Definition tally_update : UpdateFn := fun a =>
  match arg_model a with
  | Some m =>
      call (GetVar "n") (fun n0 =>
        call (SetVar "n" (VNum (succ_of n0))) (fun _ =>
          call (SetUserData m "calls" (VNum (succ_of n0))) (fun _ =>
            call (GetUserData m "total") (fun v =>
              call (SetUserData m "total" (VNum (succ_of v)))
                   (fun _ => Ret tt)))))
  | None => Throw TypeError
  end.

Definition tally_body : Args -> Prog JSModule := fun _ =>
  call (SetVar "n" (VNum 0)) (fun _ => Ret (JObject (Some tally_update))).

Definition returns (u : UpdateFn) : Args -> Prog JSModule :=
  fun _ => Ret (JObject (Some u)).

(** What [new Function] makes of these texts; any other text is taken
    not to parse. *)
Definition toy_Function (text : string) : option (Args -> Prog JSModule) :=
  if bool_decide (text = src_counter) then Some (returns counter_update)
  else if bool_decide (text = src_no_return) then Some (fun _ => Ret JUndefined)
  else if bool_decide (text = src_throw_top)
       then Some (fun _ => Throw (ScriptError "boom"))
  else if bool_decide (text = src_throw_update)
       then Some (returns (fun _ => Throw (ScriptError "boom")))
  else if bool_decide (text = src_hud) then Some (returns hud_update)
  else if bool_decide (text = src_tally) then Some tally_body
  else if bool_decide (text = src_tally_v2) then Some tally_body
  else if bool_decide (text = src_play_walk)
       then Some (returns (play_update "robot.glb" "walk"))
  else if bool_decide (text = src_play_run)
       then Some (returns (play_update "robot.glb" "run"))
  else if bool_decide (text = src_play_jump)
       then Some (returns (play_update "robot.glb" "jump"))
  else None.

(** The application at start-up, in running mode, with the given scene
    script and entity scripts. *)
Definition boot (sceneText : string) (scripts : list ScriptItem) : System :=
  mount (props_of false sceneText scripts) w_mixer.

(** A scene with a HUD script, a robot whose [update] throws and a crate
    that counts, after its first frame. *)
Definition isolation_sys : System :=
  frame toy_Function (tick 16)
    (boot src_hud [Src src_throw_update; Src src_counter]).

Definition userData_of (sys : System) (r : Ref) (key : string) : option Value :=
  objects (world (st sys)) !! r ≫= fun o => userData o !! key.

End Fixtures.

(** * Notions the properties are stated with *)

(** The named entity is not found: neither the active model nor a
    registered model answers to the name. *)
Definition entity_not_found (p : Props) (w : World) (modelName : string) : Prop :=
  forall t, targetModel p modelName w <> Obj t.

(** The entity is found and has an animation list, but no clip of that
    name. *)
Definition clip_not_found (p : Props) (w : World)
    (modelName animationName : string) : Prop :=
  exists t clips,
    targetModel p modelName w = Obj t /\
    animations_of w t = Some clips /\
    find_clip animationName clips = None.

(** The events the driver itself emits while dispatching scripts. *)
Definition driver_event (e : Event) : bool :=
  match e with
  | EvWrite _ _ _ | EvMixerUpdate _ => false
  | _ => true
  end.

(** The events the driver emits on behalf of one slot. *)
Definition about (sl : Slot) (e : Event) : bool :=
  match e with
  | EvParse s | EvTopLevel s | EvUpdate s => bool_decide (s = sl)
  | EvLog (ErrorInScript s _) | EvLog (ErrorInitializing s _)
  | EvLog (ErrorExecutingUpdate s _) => bool_decide (s = sl)
  | EvLog (ErrorInModelScript i _) => bool_decide (EntitySlot i = sl)
  | _ => false
  end.

(** The clock of the shared mixer, when there is one. *)
Definition clock (w : World) : option Double.t := mx_time <$> mixer w.

(** The trace of [w'] continues the trace of [w]. *)
Definition extends (w w' : World) : Prop :=
  exists evs, trace w' = evs ++ trace w.

(** The capability is [createHTML]. *)
Definition is_createHTML {X} (c : Cap X) : bool :=
  match c with CreateHTML _ => true | _ => false end.

(** The child nodes of the overlay root, when it exists. *)
Definition overlay_of (s : State) : option (list Dom.Node) :=
  Dom.doc_overlay (document (world s)).

(** Events that come from a capability call: its diagnostics and the
    script's writes. *)
Definition cap_event (e : Event) : bool :=
  match e with
  | EvWrite _ _ _ => true
  | EvLog l =>
      match l with
      | NoModelFound _ | NoAnimationsFound _ | AnimationNotFound _ _
      | PlayingAnimation _ _ | EngineNoModel | EngineAnimationNotFound _
      | EngineCreatingMixer | EnginePlaying _ => true
      | _ => false
      end
  | _ => false
  end.

(** [w'] continues [w] by capability events only, and its store is the
    store of [w] with the listed writes applied. *)
Definition cap_step (w w' : World) : Prop :=
  exists evs,
    trace w' = evs ++ trace w /\
    forallb cap_event evs = true /\
    objects w' = replay_writes evs (objects w).

(** The same without the restriction on the events. *)
Definition writes_only (w w' : World) : Prop :=
  exists evs,
    trace w' = evs ++ trace w /\
    objects w' = replay_writes evs (objects w).

(** The actions running on the shared mixer. *)
Definition playing (w : World) : list Action := Mixer.playing (mixer w).


(** The call finds a mixer, its entity and its clip. *)
Definition resolves (p : Props) (w : World) (modelName animationName : string)
  : Prop :=
  exists mx target clips clip,
    mixer w = Some mx /\
    targetModel p modelName w = Obj target /\
    animations_of w target = Some clips /\
    find_clip animationName clips = Some clip.

(** The cache entry of a slot. *)
Definition entry_of (s : State) (sl : Slot) : option CacheEntry :=
  match sl with
  | SceneSlot => Some (sceneScriptRef s)
  | EntitySlot i => array_get (modelScriptsRef s) i
  end.

(** The module cached for a slot; [undefined] when an entity slot has
    no entry. *)
Definition module_of (s : State) (sl : Slot) : JSModule :=
  match sl with
  | SceneSlot => module (sceneScriptRef s)
  | EntitySlot i => model_module s i
  end.

(** The module is an object whose [update] is a function. *)
Definition is_unit (m : JSModule) : bool :=
  match m with JObject (Some _) => true | _ => false end.

(** No event between [w] and [w'] is about the slot. *)
Definition silent (sl : Slot) (w w' : World) : Prop :=
  exists evs,
    trace w' = evs ++ trace w /\
    forallb (fun e => negb (about sl e)) evs = true.

(** The step leaves the slot's cache entry alone and the trace silent
    about it. *)
Definition quiet (sl : Slot) (s s' : State) : Prop :=
  entry_of s' sl = entry_of s sl /\ silent sl (world s) (world s').

(** The events that the properties of a slot are read from: its parses,
    its top-level runs, the calls of its [update], and the log of a
    throwing [update]. *)
Definition tracked (sl : Slot) (e : Event) : bool :=
  match e with
  | EvParse s | EvTopLevel s | EvUpdate s
  | EvLog (ErrorExecutingUpdate s _) => bool_decide (s = sl)
  | _ => false
  end.

(** The tracked events of a stretch of trace, in order. *)
Definition marks (sl : Slot) (evs : list Event) : list Event :=
  filter (fun e => tracked sl e = true) evs.

(** The marks a slot's construction leaves, newest first, given the
    module [m0] cached before. *)
Definition construct_marks (nf : string -> option (Args -> Prog JSModule))
    (sl : Slot) (scr : string) (m0 : JSModule) : list Event :=
  if truthy m0 then []
  else match nf scr with
       | Some _ => [EvTopLevel sl; EvParse sl]
       | None => [EvParse sl]
       end.

(** The marks the call of [update] leaves, given the module [m] cached
    at that point and what the call threw, if anything. *)
Definition update_marks (sl : Slot) (m : JSModule) (threw : option Exn)
  : list Event :=
  if is_unit m
  then match threw with
       | Some err => [EvLog (ErrorExecutingUpdate sl err)]
       | None => []
       end ++ [EvUpdate sl]
  else [].

(** Every run of the script body ends by returning a truthy value or by
    throwing. *)
Inductive yields_unit : Prog JSModule -> Prop :=
| yields_ret v : truthy v = true -> yields_unit (Ret v)
| yields_throw e : yields_unit (Throw e)
| yields_call X (c : Cap X) k :
    (forall x, yields_unit (k x)) -> yields_unit (Call c k).

(** What a step from [s] to [s'] did for slot [sl] with source [scr]. *)
Definition slot_summary (nf : string -> option (Args -> Prog JSModule))
    (sl : Slot) (scr : string) (s s' : State) : Prop :=
  exists evs threw,
    trace (world s') = evs ++ trace (world s) /\
    marks sl evs
    = update_marks sl (module_of s' sl) threw
      ++ construct_marks nf sl scr (module_of s sl) /\
    (truthy (module_of s sl) = true -> module_of s' sl = module_of s sl) /\
    (truthy (module_of s sl) = false -> nf scr = None ->
     module_of s' sl = module_of s sl) /\
    (truthy (module_of s sl) = false ->
     forall body, nf scr = Some body ->
                  (forall args, yields_unit (body args)) ->
                  truthy (module_of s' sl) = true).

(** The source text the driver dispatches for a slot, if any: a
    non-empty scene script, or the non-empty script of an entity slot
    that has a model. *)
Definition slot_script (p : Props) (sl : Slot) : option string :=
  match sl with
  | SceneSlot =>
      if bool_decide (sceneScript p = EmptyString) then None
      else Some (sceneScript p)
  | EntitySlot i =>
      match uploadedModels p !! i with
      | Some _ => script_at p i
      | None => None
      end
  end.

(** The scene part of a frame will not throw into the outer [catch]:
    there is no scene script, or a truthy module is cached for it, or
    its text is a well-formed script. *)
Definition scene_ok (nf : string -> option (Args -> Prog JSModule))
    (p : Props) (s : State) : Prop :=
  sceneScript p = EmptyString \/
  truthy (module (sceneScriptRef s)) = true \/
  exists body, nf (sceneScript p) = Some body /\
               forall args, yields_unit (body args).

(** The state of a frame once the mixer has been advanced. *)
Definition after_mixer (t : Tick) (s : State) : State :=
  set_world (mixer_update (tick_delta t) (world s)) s.

(** ** Scripts by the calls they make *)

(** A class of capability calls. *)
Definition CapClass : Type := forall X, Cap X -> bool.

(** A write of [object.userData[key]] on the object [r]. *)
Definition writes_key (r : Ref) (key : string) : CapClass := fun X c =>
  match c with
  | SetUserData o k _ => bool_decide (o = r /\ k = key)
  | _ => false
  end.

(** An element with the id lies in the overlay, as a child of the
    overlay root or deeper. *)
Definition overlay_holds (id : string) (d : Dom.Document) : bool :=
  match Dom.doc_overlay d with
  | Some ch => existsb (Dom.has_id id) ch
  | None => false
  end.

(** A [createHTML] call that brings an element with the id: the first
    element of its markup carries the id or contains an element that
    does. *)
Definition creates (id : string) : CapClass := fun X c =>
  match c with
  | CreateHTML html =>
      match Dom.firstElementChild html with
      | Some element => Dom.has_id id element
      | None => false
      end
  | _ => false
  end.

(** A call that starts or stops clips. *)
Definition drives_mixer : CapClass := fun X c =>
  match c with
  | PlayAnimation _ _ | StopAnimation _ => true
  | _ => false
  end.

(** No run of the program makes a call of the class. *)
Inductive avoids (bad : CapClass) {R : Type} : Prog R -> Prop :=
| avoids_ret r : avoids bad (Ret r)
| avoids_throw e : avoids bad (Throw e)
| avoids_call X (c : Cap X) k :
    bad X c = false -> (forall x, avoids bad (k x)) -> avoids bad (Call c k).

(** The [update] of the module, if it has one, makes no call of the
    class. *)
Definition unit_avoids (bad : CapClass) (m : JSModule) : Prop :=
  match m with
  | JObject (Some update) => forall args, avoids bad (update args)
  | _ => True
  end.

(** Neither the top-level statements of the script nor the [update] of
    the module they return make a call of the class. *)
Inductive script_avoids (bad : CapClass) : Prog JSModule -> Prop :=
| script_avoids_ret v : unit_avoids bad v -> script_avoids bad (Ret v)
| script_avoids_throw e : script_avoids bad (Throw e)
| script_avoids_call X (c : Cap X) k :
    bad X c = false -> (forall x, script_avoids bad (k x)) ->
    script_avoids bad (Call c k).

(** No script that the driver dispatches under these props makes a call
    of the class. *)
Definition scripts_avoid (bad : CapClass)
    (nf : string -> option (Args -> Prog JSModule)) (p : Props) : Prop :=
  forall sl scr body,
    slot_script p sl = Some scr -> nf scr = Some body ->
    forall args, script_avoids bad (body args).

(** No cached unit makes a call of the class. *)
Definition cache_avoids (bad : CapClass) (s : State) : Prop :=
  forall sl, unit_avoids bad (module_of s sl).

(** What [object.userData[key]] reads as on the object [r]. *)
Definition stored (w : World) (r : Ref) (key : string) : option Value :=
  objects w !! r ≫= fun o => userData o !! key.

(** A run of frames of the running system. *)
Definition run_for (nf : string -> option (Args -> Prog JSModule))
    (ticks : list Tick) (sys : System) : System :=
  {| props := props sys; activeModelIndex := activeModelIndex sys;
     st := frames nf (props sys) ticks (st sys) |}.

(** ** What a play call leaves running *)




(** Every run of [update] comes to a call of
    [playAnimation(modelName, animationName)] after which it neither
    plays nor stops anything. *)
Inductive ends_playing (modelName animationName : string)
  : Prog unit -> Prop :=
| ends_playing_here k :
    (forall x, avoids drives_mixer (k x)) ->
    ends_playing modelName animationName
      (Call (PlayAnimation modelName animationName) k)
| ends_playing_later X (c : Cap X) k :
    (forall x, ends_playing modelName animationName (k x)) ->
    ends_playing modelName animationName (Call c k).

(** The module is a unit whose [update] ends playing the clip. *)
Definition player_unit (modelName animationName : string) (m : JSModule)
  : Prop :=
  exists update,
    m = JObject (Some update) /\
    forall args, ends_playing modelName animationName (update args).


(** A step that, from a cache holding no unit with a call of the class,
    relates the worlds by [R] and leaves such a cache. *)
Definition guarded (bad : CapClass) (R : World -> World -> Prop)
    (s s' : State) : Prop :=
  cache_avoids bad s -> R (world s) (world s') /\ cache_avoids bad s'.

(** * The rest of the component *)

(** ** The overlay's life cycle *)

(** The mount effect of [Scene]: unless the document already holds an
    element with id [scriptOverlay], a new overlay root is appended to
    the body, after everything else, and kept in [overlayRef]. *)
Definition mountOverlay (d : Dom.Document) : Dom.Document :=
  match Dom.getElementById d Dom.overlay_id with
  | None =>
      {| Dom.doc_before := Dom.doc_before d ++ Dom.doc_after d;
         Dom.doc_overlay := Some [];
         Dom.doc_after := [] |}
  | Some _ => d
  end.

(** Its cleanup: [document.body.removeChild(overlayRef.current)] when the
    ref is set. *)
Definition unmountOverlay (d : Dom.Document) : Dom.Document :=
  match Dom.doc_overlay d with
  | Some _ => Dom.set_overlay None d
  | None => d
  end.

(** The elements of the document a lookup by id goes through, apart from
    the overlay root itself. *)
Definition nodes_of (d : Dom.Document) : list Dom.Node :=
  Dom.doc_before d ++ default [] (Dom.doc_overlay d) ++ Dom.doc_after d.

(** No element of the document carries the id. *)
Definition id_free (i : string) (d : Dom.Document) : Prop :=
  existsb (Dom.has_id i) (nodes_of d) = false /\
  (Dom.doc_overlay d <> None -> i <> Dom.overlay_id).

(** The world with the children of its overlay root replaced. *)
Definition with_overlay (ch : list Dom.Node) (w : World) : World :=
  set_document (Dom.set_overlay (Some ch) (document w)) w.

(** ** The cache against the props *)

(** What [forEach] hands the effect for an entry of [modelScripts]:
    nothing for a hole, else the value of [script]. *)
Definition item_text (item : ScriptItem) : option (option string) :=
  match item with
  | Hole => None
  | Undef => Some None
  | Src text => Some (Some text)
  end.

(** The value the effect compares the [script] of a slot's cache entry
    with, when it visits the slot. *)
Definition slot_text (p : Props) (sl : Slot) : option (option string) :=
  match sl with
  | SceneSlot => Some (Some (sceneScript p))
  | EntitySlot i => modelScripts p !! i ≫= item_text
  end.

(** Every slot the effect visits has a cache entry filed under the
    slot's current text. *)
Definition in_sync (p : Props) (s : State) : Prop :=
  forall sl scr,
    slot_text p sl = Some scr ->
    exists e, entry_of s sl = Some e /\ script e = scr.

(** A step keeps the [script] field of every cache entry it finds. *)
Definition keeps_scripts (s s' : State) : Prop :=
  forall sl e, entry_of s sl = Some e ->
               exists e', entry_of s' sl = Some e' /\ script e' = script e.

(** The slot is a hole of the [modelScripts] array. *)
Definition is_hole (p : Props) (sl : Slot) : Prop :=
  match sl with
  | SceneSlot => False
  | EntitySlot i => modelScripts p !! i = Some Hole
  end.

(** Every run of the script body ends in [return null]. *)
Inductive yields_null : Prog JSModule -> Prop :=
| null_ret : yields_null (Ret JNull)
| null_call X (c : Cap X) k :
    (forall x, yields_null (k x)) -> yields_null (Call c k).

(** The clock after a run of frames: each frame adds its delta to
    what the clock holds, in the order of the frames. *)
Definition advance (time : Double.t) (ticks : list Tick) : Double.t :=
  foldl (fun x t => Double.add x (tick_delta t)) time ticks.

Module Samples.

(** Builds a HUD and forgets to return a unit. *)
Definition src_return_null : string :=
  "try { createHTML('<div id=hud></div>'); } catch (e) {} return null;".

Definition null_body : Args -> Prog JSModule := fun _ =>
  Call (CreateHTML [Fixtures.div "hud"]) (fun _ => Ret JNull).

(** [if (v)] on a stored value. *)
Definition value_truthy (v : option Value) : bool :=
  match v with
  | Some (VBool b) => b
  | Some (VNum n) => negb (n =? 0)%Z
  | Some (VStr s) => negb (bool_decide (s = EmptyString))
  | None => false
  end.

(** A scene script that keeps a flag in [scene.userData]: its first run
    sets the flag and returns nothing, every later run returns [null]. *)
Definition src_arm_then_null : string :=
  "if (scene.userData.armed) return null; scene.userData.armed = true;".

Definition arm_body : Args -> Prog JSModule := fun a =>
  call (GetUserData (arg_scene a) "armed") (fun v =>
    if value_truthy v then Ret JNull
    else call (SetUserData (arg_scene a) "armed" (VBool true))
              (fun _ => Ret JUndefined)).

Definition toy_Function (text : string) : option (Args -> Prog JSModule) :=
  if bool_decide (text = src_return_null) then Some null_body
  else if bool_decide (text = src_arm_then_null) then Some arm_body
  else Fixtures.toy_Function text.

(** The armed scene over an entity whose [update] throws and one that
    counts, at start-up in running mode. *)
Definition armed_sys : System :=
  Fixtures.boot src_arm_then_null
    [Src Fixtures.src_throw_update; Src Fixtures.src_counter].

(** Two animated models with a clip of the same name, the second one
    active. *)
Definition walk2 : AnimationClip := {| clip_name := "walk"; clip_uuid := 7 |}.

Definition duel_world : World :=
  {| objects :=
       <[Fixtures.crate_ref :=
           {| name := "Crate"; animations := Some [walk2]; userData := ∅ |}]>
         Fixtures.store;
     mixer := Some Fixtures.idle_mixer;
     document := Fixtures.doc_app;
     trace := [] |}.

Definition duel_props : Props :=
  {| activeModel := Some Fixtures.crate_ref; isEditMode := false;
     modelScripts := []; sceneScript := EmptyString;
     uploadedModels := [Fixtures.robot_ref; Fixtures.crate_ref];
     modelNames := ["robot.glb"; "crate.glb"] |}.

End Samples.

(** ** The [Engine] component: models *)

(** The template a loaded GLTF model starts with. *)
Definition DEFAULT_MODEL_SCRIPT : string :=
  "// Model Script
// Available variables and utilities:
// - model: The current model object (THREE.Object3D)
// - scene: The scene object (THREE.Scene)
// - THREE: The Three.js library
// - getModelByName(name): Function to get other models by name
// - getAnimationsForModel(modelName): Function to get animations for a model
// - playAnimation(modelName, animationName): Function to play an animation
// - stopAnimation(modelName): Function to stop all animations for a model
// - createHTML(html): Function to create and add HTML elements to the overlay
// - removeHTML(id): Function to remove HTML elements from the overlay
// - input: Input state object (keys, mouse)
// - delta: Time since last frame

function update(model, scene, THREE, getModelByName, getAnimationsForModel, playAnimation, stopAnimation, createHTML, removeHTML, input, delta) {
  // Play idle animation when W is pressed, stop when released
  if (input.keys.w) {
    playAnimation(model.name, 'idle');
  } else {
    stopAnimation(model.name);
  }

  // Optional: Move the model when animating
  if (input.keys.w) {
    model.position.z -= delta * 5; // Move forward while animating
  }
}

return { update };".

(** [s.endsWith(suffix)] *)
Definition endsWith (s suffix : string) : bool :=
  String.prefix (String.rev suffix) (String.rev s).

Inductive FileKind := GLTF | OBJ | FBX.

(** The branch [loadModel] takes for a file name. *)
Definition file_kind (fileName : string) : option FileKind :=
  if endsWith fileName ".glb" || endsWith fileName ".gltf" then Some GLTF
  else if endsWith fileName ".obj" then Some OBJ
  else if endsWith fileName ".fbx" then Some FBX
  else None.

(** What a loader hands its [onLoad] callback: the object it built
    ([object.scene || object]), which is in the store, and the clips of
    the file ([object.animations]; only the GLTF branch reads them). *)
Record Loaded := {
  loaded_model : Ref;
  loaded_clips : list AnimationClip
}.

(** What [loadModel] writes with [console.error]. *)
Inductive LoadLog :=
| ErrorLoadingModel (kind : FileKind)
| UnsupportedFileType.

Definition set_animations (clips : list AnimationClip) (o : Object3D) : Object3D :=
  {| name := name o; animations := Some clips; userData := userData o |}.

(** [new THREE.AnimationMixer(model)] *)
Definition new_mixer : AnimationMixer :=
  {| mx_active := []; mx_time := Double.zero |}.

(** [if (!mixer && clips && clips.length > 0) setMixer(new_mixer)] *)
Definition create_mixer_for (clips : option (list AnimationClip)) (w : World)
  : World :=
  match mixer w, clips with
  | None, Some (_ :: _) => set_mixer (Some new_mixer) w
  | _, _ => w
  end.

Definition set_activeModel (m : option Ref) (p : Props) : Props :=
  {| activeModel := m; isEditMode := isEditMode p;
     modelScripts := modelScripts p; sceneScript := sceneScript p;
     uploadedModels := uploadedModels p; modelNames := modelNames p |}.

(** [setUploadedModels(prev => [...prev, model])] and
    [setModelNames(prev => [...prev, fileName])] *)
Definition append_model (model : Ref) (fileName : string) (p : Props) : Props :=
  {| activeModel := activeModel p; isEditMode := isEditMode p;
     modelScripts := modelScripts p; sceneScript := sceneScript p;
     uploadedModels := uploadedModels p ++ [model];
     modelNames := modelNames p ++ [fileName] |}.

(** [loadModel(fileName, content)] together with the loader's callback,
    taken to run before the next change of state: [r] is what the loader
    made of [content], [None] when it failed.  Only the GLTF branch
    appends a script, which changes a dependency of the cache-reset
    effect. *)
Definition loadModel (fileName : string) (r : option Loaded) (sys : System)
  : System * option LoadLog :=
  match file_kind fileName, r with
  | None, _ => (sys, Some UnsupportedFileType)
  | Some kind, None => (sys, Some (ErrorLoadingModel kind))
  | Some GLTF, Some l =>
      let w := world (st sys) in
      let w1 := match loaded_clips l with
                | [] => w
                | clips =>
                    set_objects
                      (alter (set_animations clips) (loaded_model l) (objects w)) w
                end in
      let p' := set_modelScripts
                  (spread (modelScripts (props sys)) ++ [Src DEFAULT_MODEL_SCRIPT])
                  (append_model (loaded_model l) fileName (props sys)) in
      ({| props := p'; activeModelIndex := activeModelIndex sys;
          st := script_effect p'
                  (set_world (create_mixer_for (Some (loaded_clips l)) w1)
                     (st sys)) |},
       None)
  | Some _, Some l =>
      ({| props := append_model (loaded_model l) fileName (props sys);
          activeModelIndex := activeModelIndex sys;
          st := st sys |},
       None)
  end.

(** [handleModelClick(model, index)] *)
Definition handleModelClick (model : Ref) (index : nat) (sys : System) : System :=
  let w := world (st sys) in
  {| props := set_activeModel (Some model) (props sys);
     activeModelIndex := Some index;
     st := set_world (create_mixer_for (animations_of w model) w) (st sys) |}.

Section Commands.

(** [Object3D.clone()], as three.js defines it. *)
Variable clone : Object3D -> Object3D.

Variable new_Function : string -> option (Args -> Prog JSModule).

(** [duplicateModel(index)]: [undefined.clone()] throws when the array
    has no model there; a missing name prints as [undefined]. *)
Definition duplicateModel (index : nat) (sys : System)
  : System * Completion unit :=
  match uploadedModels (props sys) !! index with
  | None => (sys, Abrupt TypeError)
  | Some modelToClone =>
      let w := world (st sys) in
      let clonedModel := fresh (dom (objects w)) in
      let w' := match objects w !! modelToClone with
                | Some o => set_objects (<[clonedModel := clone o]> (objects w)) w
                | None => w
                end in
      let newName :=
        String.append (default "undefined" (modelNames (props sys) !! index))
                      " (copy)" in
      ({| props := append_model clonedModel newName (props sys);
          activeModelIndex := activeModelIndex sys;
          st := set_world w' (st sys) |},
       Normal tt)
  end.

(** What the user and the render loop do to the running application.
    The model list renders one row per model, so a click reaches
    [handleModelClick] with the model listed at its index. *)
Inductive Command :=
| Upload (fileName : string) (r : option Loaded)
| Click (index : nat)
| Duplicate (index : nat)
| Delete (index : nat)
| ToggleMode
| Edit (selectedScript : Slot) (value : string)
| Frame (t : Tick).

Definition perform (sys : System) (c : Command) : System :=
  match c with
  | Upload fileName r => (loadModel fileName r sys).1
  | Click index =>
      match uploadedModels (props sys) !! index with
      | Some model => handleModelClick model index sys
      | None => sys
      end
  | Duplicate index => (duplicateModel index sys).1
  | Delete index => deleteModel index sys
  | ToggleMode => toggleEditMode sys
  | Edit selectedScript value => handleScriptChange selectedScript value sys
  | Frame t => frame new_Function t sys
  end.

End Commands.

(** The application as [Engine] first renders it: no models, no active
    model, editing mode; [sceneText] stands for the initial value of
    [sceneScript], the template [DEFAULT_SCENE_SCRIPT]. *)
Definition start (sceneText : string) (w : World) : System :=
  mount {| activeModel := None; isEditMode := true; modelScripts := [];
           sceneScript := sceneText; uploadedModels := []; modelNames := [] |} w.

(** The model and the script text that the frame loop brings together
    at an index. *)
Definition dispatched (p : Props) (index : nat) : option (Ref * string) :=
  model ← uploadedModels p !! index;
  scr ← script_at p index;
  Some (model, scr).

(** ** The [useInput] hook *)

(** The window events the hook listens to, by the fields it reads. *)
Inductive InputEvent :=
| KeyDown (key : string)
| KeyUp (key : string)
| MouseMove (clientX clientY : Z)
| MouseDown (button : Z)
| MouseUp (button : Z).

(** [{ keys: {}, mouse: { x: 0, y: 0, buttons: {} } }] *)
Definition initial_input : Input :=
  {| keys := ∅; mouse_x := 0; mouse_y := 0; buttons := ∅ |}.

Section UseInput.

(** [String.prototype.toLowerCase] *)
Variable toLowerCase : string -> string.

(** The five listeners; each mutates the one [input] object that the
    scripts are handed on every frame. *)
Definition listen (input : Input) (e : InputEvent) : Input :=
  match e with
  | KeyDown key =>
      {| keys := <[toLowerCase key := true]> (keys input);
         mouse_x := mouse_x input; mouse_y := mouse_y input;
         buttons := buttons input |}
  | KeyUp key =>
      {| keys := <[toLowerCase key := false]> (keys input);
         mouse_x := mouse_x input; mouse_y := mouse_y input;
         buttons := buttons input |}
  | MouseMove clientX clientY =>
      {| keys := keys input; mouse_x := clientX; mouse_y := clientY;
         buttons := buttons input |}
  | MouseDown button =>
      {| keys := keys input; mouse_x := mouse_x input; mouse_y := mouse_y input;
         buttons := <[button := true]> (buttons input) |}
  | MouseUp button =>
      {| keys := keys input; mouse_x := mouse_x input; mouse_y := mouse_y input;
         buttons := <[button := false]> (buttons input) |}
  end.

(** What an event says about the key that scripts read as [keys[k]]. *)
Definition key_change (k : string) (e : InputEvent) : option bool :=
  match e with
  | KeyDown key => if bool_decide (toLowerCase key = k) then Some true else None
  | KeyUp key => if bool_decide (toLowerCase key = k) then Some false else None
  | _ => None
  end.

End UseInput.

(** ** The conversation memory *)

Module ConversationMemory.

Definition MAX_CONVERSATIONS : nat := 50.

Inductive ScriptType := scene | model.

(** A stored entry.  Its [tokens] field is [script.length / 4], a
    function of [script], and is not carried. *)
Record Conversation := {
  id : Z;
  timestamp : string;
  prompt : string;
  script : string;
  scriptType : ScriptType;
  modelName : option string
}.

(** What [localStorage] holds under the key: nothing, a text that
    [JSON.parse] rejects, or the array this module wrote. *)
Inductive Item :=
| NoItem
| Unparsable
| Entries (l : list Conversation).

(** The storage: the item, and whether [setItem] succeeds (it throws
    when the quota is used up or storage is disabled). *)
Record Storage := {
  item : Item;
  writable : bool
}.

Definition loadConversations (s : Storage) : list Conversation :=
  match item s with
  | Entries l => l
  | NoItem | Unparsable => []
  end.

Definition saveConversations (conversations : list Conversation) (s : Storage)
  : Storage :=
  if writable s then {| item := Entries conversations; writable := true |}
  else s.

(** [Date.now()] and [new Date().toISOString()] at the time of a call. *)
Record Clock := {
  now : Z;
  iso : string
}.

(** [addConversation(prompt, script, selectedScriptType)], with
    [selectedScriptType] the value of [selectedScript]: ['scene'], a
    model index, or [null].  Off the scene branch the entry's
    [modelName] reads [modelNames], which is bound inside [Engine] only. *)
Definition addConversation (c : Clock) (prompt script : string)
    (selectedScriptType : option Slot) (s : Storage)
  : Storage * Completion Conversation :=
  let conversations := loadConversations s in
  match selectedScriptType with
  | Some SceneSlot =>
      let newEntry :=
        {| id := now c; timestamp := iso c; prompt := prompt; script := script;
           scriptType := scene; modelName := None |} in
      let conversations1 := newEntry :: conversations in
      let conversations2 :=
        if decide (MAX_CONVERSATIONS < length conversations1)
        then removelast conversations1 else conversations1 in
      (saveConversations conversations2 s, Normal newEntry)
  | _ => (s, Abrupt (ReferenceError "modelNames"))
  end.

Definition getAllConversations (s : Storage) : list Conversation :=
  loadConversations s.

(** A call of [addConversation], as [generateScript] makes it when a
    generation has finished. *)
Record Request := {
  req_clock : Clock;
  req_prompt : string;
  req_script : string;
  req_selected : option Slot
}.

(** The storage after the call; what it throws goes to the [catch] of
    [generateScript]. *)
Definition record (s : Storage) (r : Request) : Storage :=
  (addConversation (req_clock r) (req_prompt r) (req_script r)
     (req_selected r) s).1.

(** The entry a request for the scene script stands for. *)
Definition scene_entry (r : Request) : option Conversation :=
  match req_selected r with
  | Some SceneSlot =>
      Some {| id := now (req_clock r); timestamp := iso (req_clock r);
              prompt := req_prompt r; script := req_script r;
              scriptType := scene; modelName := None |}
  | _ => None
  end.

Definition clearConversations (s : Storage) : Storage :=
  saveConversations [] s.

Definition scriptType_text (t : ScriptType) : string :=
  match t with scene => "scene" | model => "model" end.

(** [Array.prototype.sort] with [(a, b) => b.score - a.score]: the sort
    is stable, so the result is the one of inserting from the right,
    each item before the first that does not score more. *)
Fixpoint insert_scored {A} (x : A * nat) (l : list (A * nat)) : list (A * nat) :=
  match l with
  | [] => [x]
  | y :: rest =>
      if decide (x.2 < y.2) then y :: insert_scored x rest else x :: y :: rest
  end.

Definition sort_by_score {A} (l : list (A * nat)) : list (A * nat) :=
  foldr insert_scored [] l.

(** Best first: no item scores more than one before it. *)
Fixpoint best_first {A} (l : list (A * nat)) : Prop :=
  match l with
  | [] => True
  | x :: rest => Forall (fun y => y.2 <= x.2) rest /\ best_first rest
  end.

Section Search.

(** The string functions of the JavaScript engine that the search
    uses: [trim], [toLowerCase], [split(/\W+/)], and the number of
    matches of [new RegExp(term, 'gi')] in a text. *)
Variable trim : string -> string.
Variable toLowerCase : string -> string.
Variable split_nonword : string -> list string.
Variable count_matches : string -> string -> nat.

Definition queryTerms (query : string) : list string :=
  filter (fun term => 2 < String.length term) (split_nonword (toLowerCase query)).

(** The template literal of the search text. *)
Definition search_text (c : Conversation) : string :=
  toLowerCase
    (String.append (prompt c)
       (String.append " "
          (String.append (scriptType_text (scriptType c))
             (String.append " " (default EmptyString (modelName c)))))).

Definition score (terms : list string) (c : Conversation) : nat :=
  foldl (fun acc term => acc + count_matches term (search_text c)) 0 terms.

(** [searchConversations(query, maxResults)]; each result carries its
    [score]. *)
Definition searchConversations (query : string) (maxResults : nat) (s : Storage)
  : list (Conversation * nat) :=
  if bool_decide (query = EmptyString) || bool_decide (trim query = EmptyString)
  then []
  else
    let conversations := loadConversations s in
    match conversations, queryTerms query with
    | [], _ => []
    | _, [] => []
    | _, terms =>
        take maxResults
          (sort_by_score
             (filter (fun item => 0 < item.2)
                (map (fun c => (c, score terms c)) conversations)))
    end.

End Search.

End ConversationMemory.

(** ** The order of dispatch *)

(** The place of a slot in a frame: the scene first, then the entities
    by index. *)
Definition slot_rank (sl : Slot) : nat :=
  match sl with
  | SceneSlot => 0
  | EntitySlot i => S i
  end.

(** The slot an event of the driver belongs to, if any. *)
Definition event_slot (e : Event) : option Slot :=
  match e with
  | EvParse s | EvTopLevel s | EvUpdate s => Some s
  | EvLog (ErrorInScript s _) | EvLog (ErrorInitializing s _)
  | EvLog (ErrorExecutingUpdate s _) => Some s
  | EvLog (ErrorInModelScript i _) => Some (EntitySlot i)
  | _ => None
  end.

(** The ranks of the slots that a stretch of trace mentions, newest
    first. *)
Definition dispatch_ranks (evs : list Event) : list nat :=
  omap (fun e => slot_rank <$> event_slot e) evs.

(** No number is followed by a larger one. *)
Fixpoint descending (l : list nat) : Prop :=
  match l with
  | [] => True
  | x :: rest => Forall (fun y => y <= x) rest /\ descending rest
  end.

(** * Properties *)

(** ** Removing markup *)

Lemma removeHTML_absent id w :
  Dom.getElementById (document w) id = None ->
  removeHTML id w = (w, Normal tt).
Proof. unfold removeHTML. intros ->. reflexivity. Qed.

Lemma removeHTML_no_overlay id w :
  Dom.doc_overlay (document w) = None ->
  removeHTML id w = (w, Normal tt).
Proof.
  unfold removeHTML. intros ->.
  destruct (Dom.getElementById (document w) id); reflexivity.
Qed.

Lemma removeHTML_not_child id w r :
  Dom.doc_overlay (document w) <> None ->
  Dom.getElementById (document w) id = Some r ->
  (forall k, r <> Dom.OverlayChild k) ->
  removeHTML id w = (w, Abrupt NotFoundError).
Proof.
  unfold removeHTML. intros Hov -> Hr.
  destruct (Dom.doc_overlay (document w)) as [ch|] eqn:E; [|congruence].
  unfold Dom.removeChild. rewrite E.
  destruct r; try reflexivity. exfalso. eapply Hr. reflexivity.
Qed.

(** An element outside the overlay root is what the lookup returns as
    soon as it precedes the overlay root. *)
Lemma getElementById_before d id :
  existsb (Dom.has_id id) (Dom.doc_before d) = true ->
  Dom.getElementById d id = Some Dom.InBefore.
Proof. unfold Dom.getElementById. intros ->. reflexivity. Qed.

(** The empty string is the id of no element a lookup returns, whatever
    [id] attributes the document holds. *)
Lemma id_matches_empty o : Dom.id_matches EmptyString o = false.
Proof. destruct o as [j|]; simpl; [apply andb_false_r | reflexivity]. Qed.

Lemma has_id_empty n : Dom.has_id EmptyString n = false.
Proof.
  revert n. fix IH 1. intros [s|tag o ch]; simpl; [reflexivity|].
  rewrite id_matches_empty. simpl.
  induction ch as [|m ch IHch]; simpl; [reflexivity|].
  rewrite (IH m). exact IHch.
Qed.

Lemma existsb_has_id_empty l : existsb (Dom.has_id EmptyString) l = false.
Proof.
  induction l as [|n l IH]; simpl; [reflexivity|].
  rewrite has_id_empty. exact IH.
Qed.

Lemma find_child_empty k ch : Dom.find_child EmptyString k ch = None.
Proof.
  revert k. induction ch as [|n ch IH]; intros k; simpl; [reflexivity|].
  rewrite has_id_empty.
  destruct n as [s|tag o c]; simpl; [apply IH|].
  rewrite id_matches_empty. apply IH.
Qed.

Lemma getElementById_empty d : Dom.getElementById d EmptyString = None.
Proof.
  unfold Dom.getElementById, Dom.find_after.
  rewrite !existsb_has_id_empty.
  destruct (Dom.doc_overlay d) as [ch|]; [|reflexivity].
  rewrite bool_decide_eq_false_2 by discriminate.
  rewrite find_child_empty. reflexivity.
Qed.

(** C10, as stated, fails: with [<div id=a>] both as a child of the
    overlay root and, later in the document, outside of it, an element
    with the id exists outside the overlay root, yet [removeHTML('a')]
    removes the overlay's child and returns normally. *)
Lemma C10_duplicate_id_counterexample :
  let w := Fixtures.world_of None Fixtures.doc_duplicate in
  existsb (Dom.has_id "a") (Dom.doc_after (document w)) = true /\
  Dom.doc_overlay (document w) <> None /\
  snd (removeHTML "a" w) = Normal tt /\
  Dom.doc_overlay (document (fst (removeHTML "a" w))) = Some [].
Proof. cbv zeta. split; [reflexivity|]. split; [discriminate|]. split; reflexivity. Qed.

(** C10 (amended): [removeHTML(id)] is a silent no-op when the lookup
    [document.getElementById(id)] finds no element (as it does for every
    document when the id is the empty string) or the overlay root does
    not exist; when the overlay root exists and the first element with
    the id in document order is not one of its children (so in
    particular when it lies outside the overlay root), the call throws
    [NotFoundError] and changes nothing. *)
Theorem C10_removeHTML_noop_or_throw id w :
  (Dom.getElementById (document w) id = None \/
   Dom.doc_overlay (document w) = None ->
   removeHTML id w = (w, Normal tt)) /\
  (forall r,
     Dom.doc_overlay (document w) <> None ->
     Dom.getElementById (document w) id = Some r ->
     (forall k, r <> Dom.OverlayChild k) ->
     removeHTML id w = (w, Abrupt NotFoundError)) /\
  (Dom.doc_overlay (document w) <> None ->
   existsb (Dom.has_id id) (Dom.doc_before (document w)) = true ->
   removeHTML id w = (w, Abrupt NotFoundError)) /\
  (Dom.getElementById (document w) EmptyString = None /\
   removeHTML EmptyString w = (w, Normal tt)).
Proof.
  split; [|split; [|split; [|split]]].
  - intros [H|H]; [apply removeHTML_absent | apply removeHTML_no_overlay]; exact H.
  - intros r. apply removeHTML_not_child.
  - intros Hov Hb. eapply removeHTML_not_child; [exact Hov| |].
    + apply getElementById_before, Hb.
    + discriminate.
  - apply getElementById_empty.
  - apply removeHTML_absent, getElementById_empty.
Qed.

Lemma C10_removeHTML_witness :
  removeHTML "hud" Fixtures.w_mixer = (Fixtures.w_mixer, Normal tt) /\
  removeHTML "app" (Fixtures.world_of None Fixtures.doc_no_overlay)
    = (Fixtures.world_of None Fixtures.doc_no_overlay, Normal tt) /\
  removeHTML "app" Fixtures.w_mixer = (Fixtures.w_mixer, Abrupt NotFoundError) /\
  removeHTML EmptyString (Fixtures.world_of None Fixtures.doc_empty_id)
    = (Fixtures.world_of None Fixtures.doc_empty_id, Normal tt).
Proof.
  split; [|split; [|split]].
  - apply (proj1 (C10_removeHTML_noop_or_throw "hud" Fixtures.w_mixer)).
    left. reflexivity.
  - apply (proj1 (C10_removeHTML_noop_or_throw "app"
                    (Fixtures.world_of None Fixtures.doc_no_overlay))).
    right. reflexivity.
  - apply (proj1 (proj2 (proj2
             (C10_removeHTML_noop_or_throw "app" Fixtures.w_mixer)))).
    + discriminate.
    + reflexivity.
  - apply (proj2 (proj2 (proj2
             (C10_removeHTML_noop_or_throw EmptyString
                (Fixtures.world_of None Fixtures.doc_empty_id))))).
Defined.

(** ** Looking up entities and clips *)

Lemma getModelByName_not_found p modelName :
  indexOf modelName (modelNames p) = None ->
  getModelByName p modelName = Null.
Proof. unfold getModelByName. intros ->. reflexivity. Qed.

Lemma playAnimation_no_mixer p m a w :
  mixer w = None -> playAnimation p m a w = (w, Normal tt).
Proof. unfold playAnimation. intros ->. reflexivity. Qed.

Lemma playAnimation_entity_not_found p m a w mx :
  mixer w = Some mx ->
  entity_not_found p w m ->
  playAnimation p m a w = (console (NoModelFound m) w, Normal tt).
Proof.
  unfold playAnimation, entity_not_found. intros -> H.
  destruct (targetModel p m w) as [| |t]; try reflexivity.
  exfalso. apply (H t). reflexivity.
Qed.

Lemma playAnimation_clip_not_found p m a w mx :
  mixer w = Some mx ->
  clip_not_found p w m a ->
  exists l, playAnimation p m a w = (console l w, Normal tt).
Proof.
  unfold playAnimation. intros -> (t & clips & -> & -> & Hf).
  destruct clips as [|c clips].
  - eexists. reflexivity.
  - rewrite Hf. eexists. reflexivity.
Qed.

(** C5, as stated, fails: without a mixer, playing a clip of an entity
    that does not exist writes nothing to the console. *)
Lemma C5_no_mixer_counterexample :
  let p := Fixtures.props_of false EmptyString [] in
  entity_not_found p Fixtures.w_no_mixer "ghost.glb" /\
  trace (fst (playAnimation p "ghost.glb" "walk" Fixtures.w_no_mixer))
    = trace Fixtures.w_no_mixer.
Proof.
  cbv zeta. split; [|reflexivity].
  intros t. vm_compute. discriminate.
Qed.

(** C5 (amended): [getModelByName] answers [null] for a name that is not
    registered; a [playAnimation] call whose entity or clip is not found
    returns normally and leaves objects, mixer and document untouched:
    with a mixer it logs one diagnostic, without one it is silent. *)
Theorem C5_lookup_misuse_never_throws p w m a :
  entity_not_found p w m \/ clip_not_found p w m a ->
  (indexOf m (modelNames p) = None -> getModelByName p m = Null) /\
  exists w',
    playAnimation p m a w = (w', Normal tt) /\
    objects w' = objects w /\ mixer w' = mixer w /\ document w' = document w /\
    match mixer w with
    | Some _ => exists l, trace w' = EvLog l :: trace w
    | None => trace w' = trace w
    end.
Proof.
  intros H. split; [apply getModelByName_not_found|].
  destruct (mixer w) as [mx|] eqn:E.
  - destruct H as [H|H].
    + exists (console (NoModelFound m) w).
      split; [eapply playAnimation_entity_not_found; eauto|].
      repeat split; eauto.
    + destruct (playAnimation_clip_not_found p m a w mx E H) as [l Hl].
      exists (console l w). repeat split; eauto.
  - exists w. split; [apply playAnimation_no_mixer; exact E|].
    repeat split; auto.
Qed.

Lemma C5_lookup_misuse_witness :
  let p := Fixtures.props_of false EmptyString [] in
  clip_not_found p Fixtures.w_mixer "robot.glb" "jump" /\
  exists w',
    playAnimation p "robot.glb" "jump" Fixtures.w_mixer = (w', Normal tt) /\
    objects w' = objects Fixtures.w_mixer /\
    mixer w' = mixer Fixtures.w_mixer /\
    document w' = document Fixtures.w_mixer /\
    exists l, trace w' = EvLog l :: trace Fixtures.w_mixer.
Proof.
  cbv zeta.
  assert (H : clip_not_found (Fixtures.props_of false EmptyString [])
                Fixtures.w_mixer "robot.glb" "jump").
  { exists Fixtures.robot_ref, [Fixtures.walk; Fixtures.run_clip].
    split; [reflexivity|]. split; reflexivity. }
  split; [exact H|].
  exact (proj2 (C5_lookup_misuse_never_throws
                  (Fixtures.props_of false EmptyString []) Fixtures.w_mixer
                  "robot.glb" "jump" (or_intror H))).
Defined.

(** ** Relations that every step of a frame respects *)

Arguments handle : simpl never.

Section Stepwise.

Variable new_Function : string -> option (Args -> Prog JSModule).
Variable p : Props.
Variable R : World -> World -> Prop.
Hypothesis R_refl : forall w, R w w.
Hypothesis R_trans : forall w1 w2 w3, R w1 w2 -> R w2 w3 -> R w1 w3.
Hypothesis R_handle :
  forall X (c : Cap X) env w, R w (handle p c (env, w)).1.2.

Lemma run_rel {X} (prog : Prog X) env w : R w (run p prog (env, w)).1.2.
Proof.
  revert env w. induction prog as [r|e|Y c k IH]; intros env w; cbn [run]; auto.
  destruct (handle p c (env, w)) as [[env' w'] x] eqn:E.
  eapply R_trans; [|apply IH].
  specialize (R_handle Y c env w). rewrite E in R_handle. exact R_handle.
Qed.

(** [D] holds of the events whose emission [R] tolerates. *)
Variable D : Event -> Prop.
Hypothesis R_emit : forall e w, D e -> R w (emit e w).

Ltac about_ok :=
  simpl; first [reflexivity | apply bool_decide_eq_true_2; reflexivity].
Ltac emits H := apply R_emit, H; about_ok.

Lemma emit_run_rel {X} (prog : Prog X) e env w :
  D e -> R w (run p prog (env, emit e w)).1.2.
Proof. intros He. eapply R_trans; [apply R_emit, He | apply run_rel]. Qed.

Lemma scriptFn_call_rel slot body args w :
  (forall e, about slot e = true -> D e) ->
  R w (scriptFn_call p slot body args w).1.2.
Proof.
  intros HD. unfold scriptFn_call.
  assert (H : R w (run p (body args) (∅, emit (EvTopLevel slot) w)).1.2).
  { apply emit_run_rel, HD. about_ok. }
  destruct (run p (body args) (∅, emit (EvTopLevel slot) w)) as [[env w'] [v|e]];
    simpl in *; auto.
  eapply R_trans; [exact H | emits HD].
Qed.

Lemma scene_construct_rel t s :
  (forall e, about SceneSlot e = true -> D e) ->
  R (world s) (world (scene_construct new_Function p t s).1).
Proof.
  intros HD. unfold scene_construct.
  destruct (truthy (module (sceneScriptRef s))); simpl; auto.
  destruct (new_Function (sceneScript p)) as [fn|]; simpl.
  2: { emits HD. }
  pose proof (scriptFn_call_rel SceneSlot fn (scene_args t)
                (emit (EvParse SceneSlot) (world s)) HD) as H.
  destruct (scriptFn_call p SceneSlot fn (scene_args t) _) as [[env w'] [v|e]];
    simpl in *.
  - eapply R_trans; [|exact H]. emits HD.
  - eapply R_trans; [|eapply R_trans; [exact H|]]; emits HD.
Qed.

Lemma scene_update_rel t s :
  (forall e, about SceneSlot e = true -> D e) ->
  R (world s) (world (scene_update p t s).1).
Proof.
  intros HD. unfold scene_update.
  destruct (module (sceneScriptRef s)) as [| | | |[u|]]; simpl; auto.
  assert (H : R (world s)
                (run p (u (scene_args t))
                   (closure (sceneScriptRef s),
                    emit (EvUpdate SceneSlot) (world s))).1.2).
  { apply emit_run_rel, HD. about_ok. }
  destruct (run p (u (scene_args t)) _) as [[env w'] [v|e]]; simpl in *; auto.
  eapply R_trans; [exact H | emits HD].
Qed.

Lemma scene_part_rel t s :
  (forall e, about SceneSlot e = true -> D e) ->
  R (world s) (world (scene_part new_Function p t s).1).
Proof.
  intros HD. unfold scene_part. destruct (bool_decide _); simpl; auto.
  pose proof (scene_construct_rel t s HD) as H.
  destruct (scene_construct new_Function p t s) as [s' [v|e]]; simpl in *; auto.
  eapply R_trans; [exact H | apply scene_update_rel, HD].
Qed.

Lemma model_construct_rel t scr index model s :
  (forall e, about (EntitySlot index) e = true -> D e) ->
  R (world s) (world (model_construct new_Function p t scr index model s).1).
Proof.
  intros HD. unfold model_construct.
  destruct (truthy (model_module s index)); simpl; auto.
  destruct (new_Function scr) as [fn|]; simpl.
  2: { emits HD. }
  pose proof (scriptFn_call_rel (EntitySlot index) fn (model_args t model)
                (emit (EvParse (EntitySlot index)) (world s)) HD) as H.
  destruct (scriptFn_call p (EntitySlot index) fn (model_args t model) _)
    as [[env w'] [v|e]]; simpl in *.
  - eapply R_trans; [|exact H]. emits HD.
  - eapply R_trans; [|eapply R_trans; [exact H|]]; emits HD.
Qed.

Lemma model_update_rel t index model s :
  (forall e, about (EntitySlot index) e = true -> D e) ->
  R (world s) (world (model_update p t index model s).1).
Proof.
  intros HD. unfold model_update.
  destruct (array_get (modelScriptsRef s) index) as [e|]; simpl; auto.
  destruct (module e) as [| | | |[u|]]; simpl; auto.
  assert (H : R (world s)
                (run p (u (model_args t model))
                   (closure e, emit (EvUpdate (EntitySlot index)) (world s))).1.2).
  { apply emit_run_rel, HD. about_ok. }
  destruct (run p (u (model_args t model)) _) as [[env w'] [v|err]];
    simpl in *; auto.
  eapply R_trans; [exact H | emits HD].
Qed.

Lemma model_step_rel t index model s :
  (forall e, about (EntitySlot index) e = true -> D e) ->
  R (world s) (world (model_step new_Function p t index model s)).
Proof.
  intros HD. unfold model_step. destruct (script_at p index) as [scr|]; auto.
  pose proof (model_construct_rel t scr index model s HD) as H1.
  destruct (model_construct new_Function p t scr index model s) as [s1 [v|e]];
    simpl in *.
  - pose proof (model_update_rel t index model s1 HD) as H2.
    destruct (model_update p t index model s1) as [s2 [v2|e2]]; simpl in *.
    + eapply R_trans; eauto.
    + eapply R_trans; [exact H1|]. eapply R_trans; [exact H2 | emits HD].
  - eapply R_trans; [exact H1 | emits HD].
Qed.

Lemma models_loop_rel t models index s :
  (forall j e, index <= j < index + length models ->
               about (EntitySlot j) e = true -> D e) ->
  R (world s) (world (models_loop new_Function p t index models s)).
Proof.
  revert index s. induction models as [|m rest IH]; intros index s HD; simpl; auto.
  eapply R_trans.
  - apply model_step_rel. intros e He. apply (HD index e); [simpl; lia | exact He].
  - apply IH. intros j e Hj. apply HD. simpl. lia.
Qed.

Lemma run_scripts_rel t s :
  (forall e, driver_event e = true -> D e) ->
  R (world s) (world (run_scripts new_Function p t s)).
Proof.
  intros HD.
  assert (HA : forall sl e, about sl e = true -> D e).
  { intros sl e He. apply HD. destruct e as [[]| | | | |]; try discriminate;
      reflexivity. }
  unfold run_scripts.
  pose proof (scene_part_rel t s (HA SceneSlot)) as H.
  destruct (scene_part new_Function p t s) as [s1 [v|e]]; simpl in *.
  - eapply R_trans; [exact H |]. apply models_loop_rel. intros j e' _. apply HA.
  - eapply R_trans; [exact H | apply R_emit, HD; reflexivity].
Qed.

End Stepwise.

(** ** The mixer clock *)

Lemma clock_emit e w : clock (emit e w) = clock w.
Proof. reflexivity. Qed.

Lemma clock_on_mixer f w :
  (forall m, mx_time (f m) = mx_time m) -> clock (on_mixer f w) = clock w.
Proof.
  intros H. unfold clock, on_mixer. simpl.
  destruct (mixer w); simpl; [rewrite H|]; reflexivity.
Qed.

Lemma clock_handlePlayAnimation p m a w :
  clock (handlePlayAnimation p m a w) = clock w.
Proof.
  unfold handlePlayAnimation.
  repeat case_match; try reflexivity.
  rewrite !clock_on_mixer by reflexivity. reflexivity.
Qed.

Lemma clock_playAnimation p m a w :
  clock (playAnimation p m a w).1 = clock w.
Proof.
  unfold playAnimation.
  repeat case_match; simpl; try reflexivity.
  rewrite clock_handlePlayAnimation, !clock_on_mixer by reflexivity.
  reflexivity.
Qed.

Lemma clock_removeHTML id w : clock (removeHTML id w).1 = clock w.
Proof. unfold removeHTML. repeat case_match; reflexivity. Qed.

Lemma clock_handle p X (c : Cap X) env w :
  clock (handle p c (env, w)).1.2 = clock w.
Proof.
  destruct c; unfold handle; simpl; try reflexivity.
  - pose proof (clock_playAnimation p modelName animationName w) as H.
    destruct (playAnimation p modelName animationName w); exact H.
  - unfold stopAnimation, handleStopAnimation.
    rewrite !clock_on_mixer by reflexivity. reflexivity.
  - unfold createHTML. repeat case_match; reflexivity.
  - pose proof (clock_removeHTML id w) as H.
    destruct (removeHTML id w); exact H.
  - case_match; reflexivity.
  - case_match; reflexivity.
Qed.

Lemma clock_run_scripts nf p t s :
  clock (world (run_scripts nf p t s)) = clock (world s).
Proof.
  apply (run_scripts_rel nf p (fun w w' => clock w' = clock w)) with (D := fun _ => True).
  - reflexivity.
  - intros w1 w2 w3 H1 H2. congruence.
  - intros X c env w. apply clock_handle.
  - intros e w _. apply clock_emit.
  - auto.
Qed.

Lemma clock_mixer_update delta w :
  clock (mixer_update delta w) = (fun x => Double.add x delta) <$> clock w.
Proof. unfold mixer_update, clock. destruct (mixer w) eqn:E; simpl; rewrite ?E; reflexivity. Qed.

(** ** Traces only grow *)

Lemma extends_refl w : extends w w.
Proof. exists []. reflexivity. Qed.

Lemma extends_trans w1 w2 w3 : extends w1 w2 -> extends w2 w3 -> extends w1 w3.
Proof.
  intros [e1 H1] [e2 H2]. exists (e2 ++ e1). rewrite H2, H1, app_assoc.
  reflexivity.
Qed.

Lemma extends_emit e w : extends w (emit e w).
Proof. exists [e]. reflexivity. Qed.

Lemma events_since_app w w' evs :
  trace w' = evs ++ trace w -> events_since w w' = evs.
Proof.
  intros H. unfold events_since. rewrite H, length_app.
  replace (length evs + length (trace w) - length (trace w)) with (length evs)
    by lia.
  apply take_app_length.
Qed.

Lemma events_since_same w w' : trace w' = trace w -> events_since w w' = [].
Proof. intros H. apply (events_since_app w w' []). exact H. Qed.

(** ** Mode gate *)

Lemma useFrame_edit nf p t s :
  isEditMode p = true ->
  useFrame nf p t s = set_world (mixer_update (tick_delta t) (world s)) s.
Proof. unfold useFrame. intros ->. reflexivity. Qed.

Lemma events_mixer_update delta w :
  events_since w (mixer_update delta w)
  = match mixer w with Some _ => [EvMixerUpdate delta] | None => [] end.
Proof.
  unfold mixer_update. destruct (mixer w).
  - apply events_since_app. reflexivity.
  - apply events_since_same. reflexivity.
Qed.

(** C9: on every frame the mixer's clock advances by the frame's delta
    (the clock and the delta are doubles, and the sum is rounded as the
    code's [time += delta] rounds it),
    in editing mode as in running mode, and a frame in editing mode does
    nothing else: it parses no script, runs no top-level statements and
    calls no [update], for the scene slot and for every entity slot. *)
Theorem C9_mixer_every_frame_scripts_when_running nf p t s :
  clock (world (useFrame nf p t s))
    = (fun x => Double.add x (tick_delta t)) <$> clock (world s) /\
  (isEditMode p = true ->
   useFrame nf p t s = set_world (mixer_update (tick_delta t) (world s)) s /\
   forall slot,
     ~ (EvUpdate slot ∈ events_since (world s) (world (useFrame nf p t s))) /\
     ~ (EvTopLevel slot ∈ events_since (world s) (world (useFrame nf p t s))) /\
     ~ (EvParse slot ∈ events_since (world s) (world (useFrame nf p t s)))).
Proof.
  split.
  - unfold useFrame. destruct (isEditMode p).
    + apply clock_mixer_update.
    + rewrite clock_run_scripts. apply clock_mixer_update.
  - intros He. rewrite (useFrame_edit nf p t s He). split; [reflexivity|].
    intros slot. simpl. rewrite events_mixer_update.
    destruct (mixer (world s)); repeat split; intros H;
      repeat (apply elem_of_cons in H as [H|H]; [discriminate|]);
      try (apply elem_of_nil in H; exact H).
Qed.

(** A clock at 2^53 is not moved by a frame whose delta is 1, in
    editing mode; a clock at 0.1 is taken to 0.30000000000000004 by a
    running frame whose delta is 0.2. *)
Lemma C9_rounding_witness :
  let at_time x := Fixtures.world_of
                     (Some {| mx_active := []; mx_time := x |})
                     Fixtures.doc_app in
  let tenth := Double.scaled 3602879701896397 (-55) in
  let fifth := Double.scaled 3602879701896397 (-54) in
  let t := {| tick_scene := Fixtures.scene_ref;
              tick_camera := Fixtures.camera_ref;
              tick_input := Fixtures.no_input; tick_delta := fifth |} in
  let editing := Fixtures.props_of true Fixtures.src_hud [] in
  let running := Fixtures.props_of false Fixtures.src_hud [] in
  clock (world (useFrame Fixtures.toy_Function editing (Fixtures.tick 1)
                  (st (mount editing (at_time (Double.of_Z (2 ^ 53)))))))
  = Some (Double.of_Z (2 ^ 53)) /\
  clock (world (useFrame Fixtures.toy_Function running t
                  (st (mount running (at_time tenth)))))
  = Some (Double.scaled 5404319552844596 (-54)).
Proof.
  cbv zeta. split.
  - rewrite (proj1 (C9_mixer_every_frame_scripts_when_running _ _ _ _)).
    vm_compute. reflexivity.
  - rewrite (proj1 (C9_mixer_every_frame_scripts_when_running _ _ _ _)).
    vm_compute. reflexivity.
Defined.

(** ** JavaScript arrays *)

Lemma array_get_set_eq {A} (l : list (option A)) i x :
  array_get (array_set l i x) i = Some x.
Proof.
  unfold array_get, array_set. destruct (decide (i < length l)) as [H|H].
  - rewrite list_lookup_insert_eq by exact H. reflexivity.
  - rewrite lookup_app_r by lia.
    rewrite lookup_app_r by (rewrite length_replicate; lia).
    rewrite length_replicate.
    replace (i - length l - (i - length l)) with 0 by lia. reflexivity.
Qed.

Lemma array_get_set_ne {A} (l : list (option A)) i j x :
  i <> j -> array_get (array_set l i x) j = array_get l j.
Proof.
  intros Hne. unfold array_get, array_set.
  destruct (decide (i < length l)) as [H|H].
  - rewrite list_lookup_insert_ne by exact Hne. reflexivity.
  - destruct (decide (j < length l)) as [Hj|Hj].
    + rewrite lookup_app_l by exact Hj. reflexivity.
    + rewrite (lookup_ge_None_2 l j) by lia.
      rewrite lookup_app_r by lia.
      destruct (decide (j - length l < i - length l)) as [Hlt|Hge].
      * rewrite lookup_app_l by (rewrite length_replicate; exact Hlt).
        rewrite lookup_replicate_2 by exact Hlt. reflexivity.
      * rewrite lookup_app_r by (rewrite length_replicate; lia).
        rewrite length_replicate.
        rewrite lookup_ge_None_2; [reflexivity|]. simpl. lia.
Qed.

(** ** The cache-reset effect *)

Lemma reset_if_changed_other index scr refs j :
  index <> j ->
  array_get (reset_if_changed index scr refs) j = array_get refs j.
Proof.
  intros Hne. unfold reset_if_changed.
  destruct (array_get refs index) as [e|]; [destruct (bool_decide _)|];
    auto using array_get_set_ne.
Qed.

Lemma reset_if_changed_same index scr refs e :
  array_get refs index = Some e -> script e = scr ->
  reset_if_changed index scr refs = refs.
Proof.
  intros H1 H2. unfold reset_if_changed. rewrite H1.
  rewrite bool_decide_eq_true_2 by exact H2. reflexivity.
Qed.

Lemma reset_if_changed_fresh index scr refs :
  (forall e, array_get refs index = Some e -> script e <> scr) ->
  array_get (reset_if_changed index scr refs) index = Some (fresh_entry scr).
Proof.
  intros H. unfold reset_if_changed.
  destruct (array_get refs index) as [e|] eqn:E.
  - rewrite bool_decide_eq_false_2 by (apply H; reflexivity).
    apply array_get_set_eq.
  - apply array_get_set_eq.
Qed.

Lemma reset_if_changed_at index scr refs :
  array_get (reset_if_changed index scr refs) index
  = match array_get refs index with
    | Some e => if bool_decide (script e = scr) then Some e
                else Some (fresh_entry scr)
    | None => Some (fresh_entry scr)
    end.
Proof.
  unfold reset_if_changed.
  destruct (array_get refs index) as [e|] eqn:E.
  - destruct (bool_decide _); [exact E | apply array_get_set_eq].
  - apply array_get_set_eq.
Qed.

Lemma reset_model_caches_below scripts k refs j :
  j < k ->
  array_get (reset_model_caches k scripts refs) j = array_get refs j.
Proof.
  revert k refs. induction scripts as [|item rest IH]; intros k refs Hj; simpl.
  - reflexivity.
  - rewrite IH by lia.
    destruct item; auto; apply reset_if_changed_other; lia.
Qed.

(** What the effect leaves at entity slot [k + i], by the entry of
    [modelScripts] it visits there. *)
Lemma reset_model_caches_at scripts k refs i item :
  scripts !! i = Some item ->
  array_get (reset_model_caches k scripts refs) (k + i)
  = match item with
    | Hole => array_get refs (k + i)
    | Undef => array_get (reset_if_changed (k + i) None refs) (k + i)
    | Src text => array_get (reset_if_changed (k + i) (Some text) refs) (k + i)
    end.
Proof.
  revert k refs i. induction scripts as [|it rest IH]; intros k refs i Hi.
  - discriminate.
  - destruct i as [|i]; simpl in *.
    + inversion Hi; subst. rewrite Nat.add_0_r.
      rewrite reset_model_caches_below by lia. destruct item; reflexivity.
    + replace (k + S i) with (S k + i) by lia.
      rewrite (IH (S k) _ i Hi).
      destruct item; destruct it; try reflexivity;
        rewrite ?reset_if_changed_at, ?reset_if_changed_other by lia;
        reflexivity.
Qed.

(** ** Scripts that stay away from a class of calls *)

Section Avoiding.

Variable p : Props.
Variable bad : CapClass.
Variable R : World -> World -> Prop.
Hypothesis R_refl : forall w, R w w.
Hypothesis R_trans : forall w1 w2 w3, R w1 w2 -> R w2 w3 -> R w1 w3.
Hypothesis R_handle :
  forall X (c : Cap X) env w, bad X c = false -> R w (handle p c (env, w)).1.2.

Lemma run_avoids {X} (prog : Prog X) env w :
  avoids bad prog -> R w (run p prog (env, w)).1.2.
Proof.
  intros H. revert env w.
  induction H as [r|e|Y c k Hc Hk IH]; intros env w; cbn [run]; auto.
  destruct (handle p c (env, w)) as [[env' w'] x] eqn:E.
  eapply R_trans; [|apply IH].
  specialize (R_handle Y c env w Hc). rewrite E in R_handle. exact R_handle.
Qed.

Lemma run_script_avoids prog env w :
  script_avoids bad prog ->
  R w (run p prog (env, w)).1.2 /\
  forall v, (run p prog (env, w)).2 = Normal v -> unit_avoids bad v.
Proof.
  intros H. revert env w.
  induction H as [v Hv|e|Y c k Hc Hk IH]; intros env w; cbn [run].
  - split; [apply R_refl|]. simpl. intros v' Hv'. inversion Hv'; subst. exact Hv.
  - split; [apply R_refl|]. simpl. discriminate.
  - destruct (handle p c (env, w)) as [[env' w'] x] eqn:E.
    destruct (IH x env' w') as [H1 H2]. split; [|exact H2].
    eapply R_trans; [|exact H1].
    specialize (R_handle Y c env w Hc). rewrite E in R_handle. exact R_handle.
Qed.

Hypothesis R_emit : forall e w, R w (emit e w).

Lemma unit_avoids_noop : unit_avoids bad noop_module.
Proof. intros args. constructor. Qed.

Lemma scriptFn_call_guarded slot body args w :
  script_avoids bad (body args) ->
  R w (scriptFn_call p slot body args w).1.2 /\
  forall v, (scriptFn_call p slot body args w).2 = Normal v ->
            unit_avoids bad v.
Proof.
  intros H. unfold scriptFn_call.
  destruct (run_script_avoids (body args) ∅ (emit (EvTopLevel slot) w) H)
    as [H1 H2].
  destruct (run p (body args) (∅, emit (EvTopLevel slot) w))
    as [[env w'] [v|e]]; simpl in *.
  - split; [eapply R_trans; [apply R_emit | exact H1]|].
    intros v' Hv'. apply H2. exact Hv'.
  - split.
    + eapply R_trans; [apply R_emit|]. eapply R_trans; [exact H1 | apply R_emit].
    + intros v' Hv'. inversion Hv'; subst. apply unit_avoids_noop.
Qed.

Lemma cache_avoids_set_world w s :
  cache_avoids bad s -> cache_avoids bad (set_world w s).
Proof. intros H [|i]; [apply (H SceneSlot) | apply (H (EntitySlot i))]. Qed.

Lemma cache_avoids_set_scene e w s :
  cache_avoids bad s -> unit_avoids bad (module e) ->
  cache_avoids bad (set_scene_entry e w s).
Proof. intros H He [|i]; [exact He | apply (H (EntitySlot i))]. Qed.

Lemma cache_avoids_set_model index e w s :
  cache_avoids bad s -> unit_avoids bad (module e) ->
  cache_avoids bad (set_model_entry index e w s).
Proof.
  intros H He [|i]; [apply (H SceneSlot)|].
  simpl. unfold model_module. simpl.
  destruct (decide (i = index)) as [->|Hne].
  - rewrite array_get_set_eq. exact He.
  - rewrite array_get_set_ne by congruence. apply (H (EntitySlot i)).
Qed.

Lemma guarded_refl s : guarded bad R s s.
Proof. intros H. split; [apply R_refl | exact H]. Qed.

Lemma guarded_trans s1 s2 s3 :
  guarded bad R s1 s2 -> guarded bad R s2 s3 -> guarded bad R s1 s3.
Proof.
  intros H1 H2 H. destruct (H1 H) as [R1 C1]. destruct (H2 C1) as [R2 C2].
  split; [eapply R_trans; eassumption | exact C2].
Qed.

Lemma log_state_guarded l s : guarded bad R s (log_state l s).
Proof.
  intros H. split; [apply R_emit | apply cache_avoids_set_world, H].
Qed.

Variable new_Function : string -> option (Args -> Prog JSModule).
Hypothesis scripts_ok : scripts_avoid bad new_Function p.

Lemma scene_construct_guarded t s :
  sceneScript p <> EmptyString ->
  guarded bad R s (scene_construct new_Function p t s).1.
Proof.
  intros Hne Hc. unfold scene_construct.
  destruct (truthy (module (sceneScriptRef s))); simpl.
  { split; [apply R_refl | exact Hc]. }
  destruct (new_Function (sceneScript p)) as [fn|] eqn:Ef; simpl.
  2: { split; [apply R_emit | apply cache_avoids_set_world, Hc]. }
  assert (Hs : slot_script p SceneSlot = Some (sceneScript p)).
  { simpl. rewrite bool_decide_eq_false_2 by exact Hne. reflexivity. }
  destruct (scriptFn_call_guarded SceneSlot fn (scene_args t)
              (emit (EvParse SceneSlot) (world s))
              (scripts_ok SceneSlot _ fn Hs Ef (scene_args t))) as [H1 H2].
  destruct (scriptFn_call p SceneSlot fn (scene_args t) _) as [[env w'] [v|e]];
    simpl in *.
  - split; [eapply R_trans; [apply R_emit | exact H1]|].
    apply cache_avoids_set_scene; [exact Hc | apply H2; reflexivity].
  - split.
    + eapply R_trans; [apply R_emit|]. eapply R_trans; [exact H1 | apply R_emit].
    + apply cache_avoids_set_scene; [exact Hc | apply unit_avoids_noop].
Qed.

Lemma scene_update_guarded t s : guarded bad R s (scene_update p t s).1.
Proof.
  intros Hc. unfold scene_update.
  pose proof (Hc SceneSlot) as Hu. simpl in Hu.
  destruct (module (sceneScriptRef s)) as [| | | |[u|]] eqn:Em; simpl;
    try (split; [apply R_refl | exact Hc]).
  pose proof (run_avoids (u (scene_args t)) (closure (sceneScriptRef s))
                (emit (EvUpdate SceneSlot) (world s)) (Hu (scene_args t))) as H.
  destruct (run p (u (scene_args t)) _) as [[env w'] [v|e]]; simpl in *.
  - split; [eapply R_trans; [apply R_emit | exact H]|].
    apply cache_avoids_set_scene; [exact Hc|]. simpl. rewrite ?Em. exact Hu.
  - split.
    + eapply R_trans; [apply R_emit|]. eapply R_trans; [exact H | apply R_emit].
    + apply cache_avoids_set_scene; [exact Hc|]. simpl. rewrite ?Em. exact Hu.
Qed.

Lemma scene_part_guarded t s : guarded bad R s (scene_part new_Function p t s).1.
Proof.
  unfold scene_part. case_bool_decide as He; [apply guarded_refl|].
  pose proof (scene_construct_guarded t s He) as H.
  destruct (scene_construct new_Function p t s) as [s' [v|e]]; simpl in *;
    [|exact H].
  eapply guarded_trans; [exact H | apply scene_update_guarded].
Qed.

Lemma model_construct_guarded t scr index model s :
  slot_script p (EntitySlot index) = Some scr ->
  guarded bad R s (model_construct new_Function p t scr index model s).1.
Proof.
  intros Hs Hc. unfold model_construct.
  destruct (truthy (model_module s index)); simpl.
  { split; [apply R_refl | exact Hc]. }
  destruct (new_Function scr) as [fn|] eqn:Ef; simpl.
  2: { split; [apply R_emit | apply cache_avoids_set_world, Hc]. }
  destruct (scriptFn_call_guarded (EntitySlot index) fn (model_args t model)
              (emit (EvParse (EntitySlot index)) (world s))
              (scripts_ok _ _ fn Hs Ef (model_args t model))) as [H1 H2].
  destruct (scriptFn_call p (EntitySlot index) fn (model_args t model) _)
    as [[env w'] [v|e]]; simpl in *.
  - split; [eapply R_trans; [apply R_emit | exact H1]|].
    apply cache_avoids_set_model; [exact Hc | apply H2; reflexivity].
  - split.
    + eapply R_trans; [apply R_emit|]. eapply R_trans; [exact H1 | apply R_emit].
    + apply cache_avoids_set_model; [exact Hc | apply unit_avoids_noop].
Qed.

Lemma model_update_guarded t index model s :
  guarded bad R s (model_update p t index model s).1.
Proof.
  intros Hc. unfold model_update.
  pose proof (Hc (EntitySlot index)) as Hu. simpl in Hu. unfold model_module in Hu.
  destruct (array_get (modelScriptsRef s) index) as [e|]; simpl;
    [|split; [apply R_refl | exact Hc]].
  destruct (module e) as [| | | |[u|]] eqn:Em; simpl;
    try (split; [apply R_refl | exact Hc]).
  pose proof (run_avoids (u (model_args t model)) (closure e)
                (emit (EvUpdate (EntitySlot index)) (world s))
                (Hu (model_args t model))) as H.
  destruct (run p (u (model_args t model)) _) as [[env w'] [v|err]]; simpl in *.
  - split; [eapply R_trans; [apply R_emit | exact H]|].
    apply cache_avoids_set_model; [exact Hc|]. simpl. rewrite ?Em. exact Hu.
  - split.
    + eapply R_trans; [apply R_emit|]. eapply R_trans; [exact H | apply R_emit].
    + apply cache_avoids_set_model; [exact Hc|]. simpl. rewrite ?Em. exact Hu.
Qed.

Lemma model_step_guarded t index model s :
  uploadedModels p !! index = Some model ->
  guarded bad R s (model_step new_Function p t index model s).
Proof.
  intros Hm. unfold model_step.
  destruct (script_at p index) as [scr|] eqn:Hs; [|apply guarded_refl].
  assert (Hs' : slot_script p (EntitySlot index) = Some scr)
    by (simpl; rewrite Hm; exact Hs).
  pose proof (model_construct_guarded t scr index model s Hs') as H1.
  destruct (model_construct new_Function p t scr index model s) as [s1 [v|e]];
    simpl in *.
  - pose proof (model_update_guarded t index model s1) as H2.
    destruct (model_update p t index model s1) as [s2 [v2|e2]]; simpl in *.
    + eapply guarded_trans; eassumption.
    + eapply guarded_trans; [exact H1|].
      eapply guarded_trans; [exact H2 | apply log_state_guarded].
  - eapply guarded_trans; [exact H1 | apply log_state_guarded].
Qed.

Lemma models_loop_guarded t models index s :
  (forall i model, models !! i = Some model ->
                   uploadedModels p !! (index + i) = Some model) ->
  guarded bad R s (models_loop new_Function p t index models s).
Proof.
  revert index s. induction models as [|m rest IH]; intros index s H; simpl.
  - apply guarded_refl.
  - eapply guarded_trans.
    + apply model_step_guarded.
      pose proof (H 0 m eq_refl) as H0. rewrite Nat.add_0_r in H0. exact H0.
    + apply IH. intros i model Hi.
      replace (S index + i) with (index + S i) by lia. apply H. exact Hi.
Qed.

Lemma run_scripts_guarded t s : guarded bad R s (run_scripts new_Function p t s).
Proof.
  unfold run_scripts.
  pose proof (scene_part_guarded t s) as H.
  destruct (scene_part new_Function p t s) as [s1 [v|e]]; simpl in *.
  - eapply guarded_trans; [exact H|]. apply models_loop_guarded.
    intros i model Hi. exact Hi.
  - eapply guarded_trans; [exact H | apply log_state_guarded].
Qed.

Hypothesis R_mixer : forall delta w, R w (mixer_update delta w).

Lemma useFrame_guarded t s : guarded bad R s (useFrame new_Function p t s).
Proof.
  unfold useFrame.
  assert (H0 : guarded bad R s
                 (set_world (mixer_update (tick_delta t) (world s)) s)).
  { intros Hc. split; [apply R_mixer | apply cache_avoids_set_world, Hc]. }
  destruct (isEditMode p); [exact H0|].
  eapply guarded_trans; [exact H0 | apply run_scripts_guarded].
Qed.

Lemma frames_guarded ticks s : guarded bad R s (frames new_Function p ticks s).
Proof.
  revert s. induction ticks as [|t rest IH]; intros s; simpl.
  - apply guarded_refl.
  - eapply guarded_trans; [apply useFrame_guarded | apply IH].
Qed.

End Avoiding.

(** The effect hands every slot its old entry or a fresh one. *)
Lemma reset_if_changed_cases index scr refs j :
  array_get (reset_if_changed index scr refs) j = array_get refs j \/
  array_get (reset_if_changed index scr refs) j = Some (fresh_entry scr).
Proof.
  destruct (decide (index = j)) as [->|Hne].
  - rewrite reset_if_changed_at.
    destruct (array_get refs j) as [e|]; [destruct (bool_decide _)|]; auto.
  - left. apply reset_if_changed_other, Hne.
Qed.

Lemma reset_model_caches_cases scripts k refs j :
  array_get (reset_model_caches k scripts refs) j = array_get refs j \/
  exists scr,
    array_get (reset_model_caches k scripts refs) j = Some (fresh_entry scr).
Proof.
  revert k refs. induction scripts as [|item rest IH]; intros k refs; simpl;
    [left; reflexivity|].
  match goal with |- context [reset_model_caches (S k) rest ?r] =>
    destruct (IH (S k) r) as [H|H]; [rewrite H | right; exact H]
  end.
  destruct item as [| |text]; [left; reflexivity| |].
  - destruct (reset_if_changed_cases k None refs j); eauto.
  - destruct (reset_if_changed_cases k (Some text) refs j); eauto.
Qed.

Lemma cache_avoids_script_effect bad p s :
  cache_avoids bad s -> cache_avoids bad (script_effect p s).
Proof.
  intros H [|i]; simpl.
  - case_bool_decide; [apply (H SceneSlot) | exact I].
  - unfold model_module. simpl.
    destruct (reset_model_caches_cases (modelScripts p) 0 (modelScriptsRef s) i)
      as [E|[scr E]]; rewrite E; [apply (H (EntitySlot i)) | exact I].
Qed.

Lemma slot_script_set_isEditMode b p sl :
  slot_script (set_isEditMode b p) sl = slot_script p sl.
Proof. destruct sl; reflexivity. Qed.

(** ** Mode transitions *)

Lemma script_effect_scene_same p s :
  script (sceneScriptRef s) = Some (sceneScript p) ->
  sceneScriptRef (script_effect p s) = sceneScriptRef s.
Proof. intros H. simpl. rewrite bool_decide_eq_true_2 by exact H. reflexivity. Qed.

Lemma script_effect_scene_changed p s :
  script (sceneScriptRef s) <> Some (sceneScript p) ->
  sceneScriptRef (script_effect p s) = fresh_entry (Some (sceneScript p)).
Proof. intros H. simpl. rewrite bool_decide_eq_false_2 by exact H. reflexivity. Qed.

Lemma script_effect_model_same p s index text e :
  modelScripts p !! index = Some (Src text) ->
  array_get (modelScriptsRef s) index = Some e ->
  script e = Some text ->
  array_get (modelScriptsRef (script_effect p s)) index = Some e.
Proof.
  intros Hs He Ht. simpl.
  rewrite (reset_model_caches_at _ 0 _ index _ Hs). simpl.
  rewrite reset_if_changed_at, He.
  rewrite bool_decide_eq_true_2 by exact Ht. reflexivity.
Qed.

Lemma script_effect_model_changed p s index text :
  modelScripts p !! index = Some (Src text) ->
  (forall e, array_get (modelScriptsRef s) index = Some e ->
             script e <> Some text) ->
  array_get (modelScriptsRef (script_effect p s)) index
  = Some (fresh_entry (Some text)).
Proof.
  intros Hs He. simpl.
  rewrite (reset_model_caches_at _ 0 _ index _ Hs). simpl.
  apply reset_if_changed_fresh, He.
Qed.

(** C4, as stated, fails: a scene script is compiled in a running frame;
    the mode goes to editing and back to running with the text untouched;
    the cached unit is the one compiled before, and the next frame calls
    its [update] without parsing or running the script body again. *)
Lemma C4_unit_survives_toggle_counterexample :
  let sys1 := frame Fixtures.toy_Function (Fixtures.tick 16)
                (Fixtures.boot Fixtures.src_hud []) in
  let sys2 := toggleEditMode sys1 in
  let sys3 := toggleEditMode sys2 in
  isEditMode (props sys1) = false /\
  isEditMode (props sys2) = true /\
  isEditMode (props sys3) = false /\
  sceneScriptRef (st sys3) = sceneScriptRef (st sys1) /\
  module (sceneScriptRef (st sys3)) = JObject (Some Fixtures.hud_update) /\
  events_since (world (st sys3))
    (world (st (frame Fixtures.toy_Function (Fixtures.tick 16) sys3)))
  = [EvUpdate SceneSlot; EvMixerUpdate (Double.of_Z 16)].
Proof. cbv zeta. repeat split; vm_compute; reflexivity. Qed.

(** C4 (amended): when the mode goes from editing to running the effect
    runs, and it invalidates a slot's cached unit exactly when the slot's
    source text differs from the text the unit was cached under (or the
    entity slot has no entry yet); a slot whose text is unchanged keeps
    its cached unit. *)
Theorem C4_toggle_resets_only_changed_text sys :
  isEditMode (props sys) = true ->
  let sys' := toggleEditMode sys in
  isEditMode (props sys') = false /\
  (script (sceneScriptRef (st sys)) = Some (sceneScript (props sys)) ->
   sceneScriptRef (st sys') = sceneScriptRef (st sys)) /\
  (script (sceneScriptRef (st sys)) <> Some (sceneScript (props sys)) ->
   sceneScriptRef (st sys') = fresh_entry (Some (sceneScript (props sys)))) /\
  (forall index text e,
     modelScripts (props sys) !! index = Some (Src text) ->
     array_get (modelScriptsRef (st sys)) index = Some e ->
     script e = Some text ->
     array_get (modelScriptsRef (st sys')) index = Some e) /\
  (forall index text,
     modelScripts (props sys) !! index = Some (Src text) ->
     (forall e, array_get (modelScriptsRef (st sys)) index = Some e ->
                script e <> Some text) ->
     array_get (modelScriptsRef (st sys')) index
     = Some (fresh_entry (Some text))).
Proof.
  intros He. cbv zeta. unfold toggleEditMode.
  cbn [props st]. rewrite He.
  set (p' := set_isEditMode (negb true) (props sys)).
  split; [reflexivity|]. split; [|split; [|split]].
  - apply (script_effect_scene_same p').
  - apply (script_effect_scene_changed p').
  - intros index text e. apply (script_effect_model_same p').
  - intros index text. apply (script_effect_model_changed p').
Qed.

Lemma C4_toggle_witness :
  let sys := toggleEditMode
               (frame Fixtures.toy_Function (Fixtures.tick 16)
                  (Fixtures.boot Fixtures.src_hud [])) in
  isEditMode (props sys) = true /\
  module (sceneScriptRef (st (toggleEditMode sys)))
  = JObject (Some Fixtures.hud_update).
Proof.
  cbv zeta. split; [reflexivity|].
  pose proof (C4_toggle_resets_only_changed_text
                (toggleEditMode
                   (frame Fixtures.toy_Function (Fixtures.tick 16)
                      (Fixtures.boot Fixtures.src_hud []))) eq_refl) as H.
  cbv zeta in H. destruct H as (_ & H & _).
  rewrite H; reflexivity.
Defined.

(** ** The overlay across mode transitions *)

Lemma document_mixer_update delta w :
  document (mixer_update delta w) = document w.
Proof. unfold mixer_update. destruct (mixer w); reflexivity. Qed.

Lemma frames_edit_document nf p ticks s :
  isEditMode p = true ->
  document (world (frames nf p ticks s)) = document (world s).
Proof.
  intros He. revert s. induction ticks as [|t rest IH]; intros s; simpl.
  - reflexivity.
  - rewrite IH, (useFrame_edit nf p t s He). simpl.
    apply document_mixer_update.
Qed.

Lemma document_handlePlayAnimation p m a w :
  document (handlePlayAnimation p m a w) = document w.
Proof. unfold handlePlayAnimation. repeat case_match; reflexivity. Qed.

Lemma document_playAnimation p m a w :
  document (playAnimation p m a w).1 = document w.
Proof.
  unfold playAnimation. repeat case_match; simpl; try reflexivity.
  rewrite document_handlePlayAnimation. reflexivity.
Qed.

Lemma existsb_delete {A} (f : A -> bool) k (l : list A) :
  existsb f (delete k l) = true -> existsb f l = true.
Proof.
  revert k. induction l as [|x l IH]; intros [|k]; simpl; auto.
  - intros ->. apply orb_true_r.
  - intros H. apply orb_true_iff in H as [H|H].
    + rewrite H. reflexivity.
    + rewrite (IH k H). apply orb_true_r.
Qed.

Lemma overlay_has_removeHTML id' id w :
  Dom.overlay_has id (document (removeHTML id' w).1) = true ->
  Dom.overlay_has id (document w) = true.
Proof.
  unfold removeHTML.
  destruct (Dom.getElementById (document w) id') as [r|]; [|auto].
  destruct (Dom.doc_overlay (document w)) as [ch|] eqn:E; [|auto].
  unfold Dom.removeChild. rewrite E.
  destruct r; simpl; auto.
  unfold Dom.overlay_has. simpl. rewrite E. apply existsb_delete.
Qed.

(** Only [createHTML] adds a child to the overlay root. *)
Lemma overlay_grows_only_by_createHTML p X (c : Cap X) env w id :
  is_createHTML c = false ->
  Dom.overlay_has id (document (handle p c (env, w)).1.2) = true ->
  Dom.overlay_has id (document w) = true.
Proof.
  destruct c; unfold handle; simpl; try discriminate; auto.
  - intros _.
    pose proof (document_playAnimation p modelName animationName w) as H.
    destruct (playAnimation p modelName animationName w); simpl in *.
    rewrite H. auto.
  - intros _. pose proof (overlay_has_removeHTML id0 id w) as H.
    destruct (removeHTML id0 w); exact H.
  - intros _. case_match; auto.
  - intros _. case_match; auto.
Qed.

Lemma has_id_root i n : Dom.has_id i n = false -> Dom.root_has_id i n = false.
Proof.
  destruct n as [s|tag [j|] ch]; simpl; try reflexivity.
  intros H. apply orb_false_iff in H. tauto.
Qed.

Lemma overlay_has_holds id d :
  Dom.overlay_has id d = true -> overlay_holds id d = true.
Proof.
  unfold Dom.overlay_has, overlay_holds.
  destruct (Dom.doc_overlay d) as [ch|]; [|auto].
  induction ch as [|n ch IH]; simpl; [auto|].
  intros H. apply orb_true_iff in H as [H|H].
  - destruct (Dom.has_id id n) eqn:E; [reflexivity|].
    rewrite (has_id_root id n E) in H. discriminate.
  - rewrite (IH H). apply orb_true_r.
Qed.

(** A [createHTML] call adds the first element of its markup, and with
    it an element with the id only when it brings one. *)
Lemma overlay_holds_createHTML id html w :
  overlay_holds id (document (createHTML html w))
  = overlay_holds id (document w)
    || match Dom.doc_overlay (document w) with
       | Some _ => creates id _ (CreateHTML html)
       | None => false
       end.
Proof.
  unfold createHTML, overlay_holds, creates.
  destruct (Dom.doc_overlay (document w)) as [ch|] eqn:E; simpl;
    [|rewrite E; reflexivity].
  destruct (Dom.firstElementChild html) as [el|]; simpl.
  - unfold Dom.appendChild. rewrite E. simpl.
    rewrite existsb_app. simpl. rewrite orb_false_r. reflexivity.
  - rewrite E, orb_false_r. reflexivity.
Qed.

Lemma overlay_holds_removeHTML id' id w :
  overlay_holds id (document (removeHTML id' w).1) = true ->
  overlay_holds id (document w) = true.
Proof.
  unfold removeHTML.
  destruct (Dom.getElementById (document w) id') as [r|]; [|auto].
  destruct (Dom.doc_overlay (document w)) as [ch|] eqn:E; [|auto].
  unfold Dom.removeChild. rewrite E.
  destruct r; simpl; auto.
  unfold overlay_holds. simpl. rewrite E. apply existsb_delete.
Qed.

(** No capability call brings an element with the id into the overlay
    but a [createHTML] call that creates one. *)
Lemma overlay_handle_avoids p id X (c : Cap X) env w :
  creates id X c = false ->
  overlay_holds id (document w) = false ->
  overlay_holds id (document (handle p c (env, w)).1.2) = false.
Proof.
  intros Hc Hw. destruct c; unfold handle; simpl; try exact Hw.
  - pose proof (document_playAnimation p modelName animationName w) as H.
    destruct (playAnimation p modelName animationName w); simpl in *.
    rewrite H. exact Hw.
  - rewrite overlay_holds_createHTML, Hw. simpl.
    destruct (Dom.doc_overlay (document w)); [exact Hc | reflexivity].
  - pose proof (overlay_holds_removeHTML id0 id w) as H.
    destruct (removeHTML id0 w) as [w' r]; simpl in *.
    destruct (overlay_holds id (document w')); [|reflexivity].
    rewrite H in Hw by reflexivity. discriminate.
  - case_match; exact Hw.
  - case_match; exact Hw.
Qed.

(** Frames whose scripts create no element with the id do not bring
    one into the overlay. *)
Lemma overlay_frames_avoid nf p ticks s id :
  scripts_avoid (creates id) nf p ->
  cache_avoids (creates id) s ->
  overlay_holds id (document (world s)) = false ->
  overlay_holds id (document (world (frames nf p ticks s))) = false /\
  cache_avoids (creates id) (frames nf p ticks s).
Proof.
  intros Hnf Hc Hw.
  destruct (frames_guarded p (creates id)
              (fun w w' => overlay_holds id (document w) = false ->
                           overlay_holds id (document w') = false))
    with (new_Function := nf) (ticks := ticks) (s := s) as [H1 H2]; auto.
  - intros X c env w. apply overlay_handle_avoids.
  - intros delta w. rewrite document_mixer_update. auto.
Qed.

Lemma overlay_script_effect p s :
  overlay_of (script_effect p s) = (fun _ => []) <$> overlay_of s.
Proof.
  unfold overlay_of, script_effect. simpl. unfold Dom.clear_overlay.
  destruct (Dom.doc_overlay (document (world s))) eqn:E; simpl; rewrite ?E;
    reflexivity.
Qed.

Lemma overlay_has_script_effect id p s :
  Dom.overlay_has id (document (world (script_effect p s))) = false.
Proof.
  unfold script_effect, Dom.overlay_has, Dom.clear_overlay. simpl.
  destruct (Dom.doc_overlay (document (world s))) eqn:E; simpl;
    [reflexivity | rewrite E; reflexivity].
Qed.

Lemma overlay_holds_script_effect id p s :
  overlay_holds id (document (world (script_effect p s))) = false.
Proof.
  unfold script_effect, overlay_holds, Dom.clear_overlay. simpl.
  destruct (Dom.doc_overlay (document (world s))) eqn:E; simpl;
    [reflexivity | rewrite E; reflexivity].
Qed.

(** C8: the transition from running to editing empties the overlay root,
    so no element a script created (for instance the one with id [hud])
    is a child of it any more; no frame in editing mode changes the
    document, and the transition back to running empties the overlay
    again.  In the running frames that follow, as in any run of frames,
    an element with the id comes into the overlay only if a script
    makes a [createHTML] call that brings one: while the scripts, in
    their top-level statements and in the [update] of their units, make
    no such call, no element with the id lies in the overlay, as a
    child of the root or deeper; and such a call, made while the
    overlay root exists, puts one there. *)
Theorem C8_entering_edit_mode_clears_overlay sys :
  isEditMode (props sys) = false ->
  let sys' := toggleEditMode sys in
  isEditMode (props sys') = true /\
  overlay_of (st sys') = (fun _ => []) <$> overlay_of (st sys) /\
  (forall id, Dom.overlay_has id (document (world (st sys'))) = false) /\
  (forall nf ticks id,
     Dom.overlay_has id
       (document (world (frames nf (props sys') ticks (st sys')))) = false) /\
  (forall p X (c : Cap X) env w id,
     is_createHTML c = false ->
     Dom.overlay_has id (document (handle p c (env, w)).1.2) = true ->
     Dom.overlay_has id (document w) = true) /\
  (forall nf editing id,
     let back := toggleEditMode (run_for nf editing sys') in
     isEditMode (props back) = false /\
     overlay_of (st back) = (fun _ => []) <$> overlay_of (st sys) /\
     overlay_holds id (document (world (st back))) = false) /\
  (forall nf editing running id,
     scripts_avoid (creates id) nf (props sys) ->
     cache_avoids (creates id) (st sys) ->
     let back := toggleEditMode (run_for nf editing sys') in
     overlay_holds id (document (world (st (run_for nf running back))))
     = false) /\
  (forall nf p ticks s id,
     scripts_avoid (creates id) nf p ->
     cache_avoids (creates id) s ->
     overlay_holds id (document (world s)) = false ->
     overlay_holds id (document (world (frames nf p ticks s))) = false) /\
  (forall p html env w id,
     Dom.doc_overlay (document w) <> None ->
     creates id _ (CreateHTML html) = true ->
     overlay_holds id (document (handle p (CreateHTML html) (env, w)).1.2)
     = true) /\
  (forall id d, Dom.overlay_has id d = true -> overlay_holds id d = true).
Proof.
  intros Hr. cbv zeta.
  assert (He : isEditMode (props (toggleEditMode sys)) = true).
  { unfold toggleEditMode. simpl. rewrite Hr. reflexivity. }
  assert (Hov : overlay_of (st (toggleEditMode sys))
                = (fun _ => []) <$> overlay_of (st sys)).
  { unfold toggleEditMode, overlay_of, script_effect, Dom.clear_overlay. simpl.
    destruct (Dom.doc_overlay (document (world (st sys)))) eqn:E; simpl;
      [reflexivity | exact E]. }
  assert (Hno : forall id,
             Dom.overlay_has id (document (world (st (toggleEditMode sys))))
             = false).
  { intros id. apply overlay_has_script_effect. }
  split; [exact He|]. split; [exact Hov|]. split; [exact Hno|].
  split; [|split; [|split; [|split; [|split; [|split]]]]].
  - intros nf ticks id. rewrite frames_edit_document by exact He. apply Hno.
  - apply overlay_grows_only_by_createHTML.
  - intros nf editing id.
    split; [|split; [|apply overlay_holds_script_effect]].
    + unfold toggleEditMode, run_for. simpl. rewrite Hr. reflexivity.
    + unfold toggleEditMode at 1. cbn [st]. rewrite overlay_script_effect.
      unfold run_for. cbn [st props]. unfold overlay_of at 1.
      rewrite frames_edit_document by exact He.
      fold (overlay_of (st (toggleEditMode sys))). rewrite Hov.
      destruct (overlay_of (st sys)); reflexivity.
  - intros nf editing running id Hnf Hc.
    apply overlay_frames_avoid.
    + intros sl scr body Hs Hb args. apply (Hnf sl scr body); [|exact Hb].
      unfold toggleEditMode, run_for in Hs. simpl in Hs.
      rewrite !slot_script_set_isEditMode in Hs. exact Hs.
    + apply cache_avoids_script_effect.
      apply (overlay_frames_avoid nf _ editing _ id).
      * intros sl scr body Hs Hb args. apply (Hnf sl scr body); [|exact Hb].
        unfold toggleEditMode in Hs. simpl in Hs.
        rewrite slot_script_set_isEditMode in Hs. exact Hs.
      * apply cache_avoids_script_effect, Hc.
      * apply overlay_holds_script_effect.
    + apply overlay_holds_script_effect.
  - intros nf p ticks s id Hnf Hc Hw.
    apply (overlay_frames_avoid nf p ticks s id Hnf Hc Hw).
  - intros p html env w id Ho Hc. unfold handle. simpl.
    rewrite overlay_holds_createHTML.
    destruct (Dom.doc_overlay (document w)); [|contradiction].
    rewrite Hc. apply orb_true_r.
  - apply overlay_has_holds.
Qed.

(** The scenario of the HUD: a scene script creates [<div id=hud>] in a
    running frame; entering editing mode removes it; it stays away during
    editing frames and after returning to running mode, and is back after
    the next running frame, in which the script creates it again; an
    element with the id [menu], which the script never creates, is not
    there after two more running frames. *)
Lemma C8_hud_witness :
  let t := Fixtures.tick 16 in
  let nf := Fixtures.toy_Function in
  let sys1 := frame nf t (Fixtures.boot Fixtures.src_hud []) in
  let sys2 := toggleEditMode sys1 in
  let sys3 := run_for nf [t] sys2 in
  let sys4 := toggleEditMode sys3 in
  let sys5 := run_for nf [t; t] sys4 in
  isEditMode (props sys1) = false /\
  Dom.overlay_has "hud" (document (world (st sys1))) = true /\
  Dom.overlay_has "hud" (document (world (st sys2))) = false /\
  Dom.overlay_has "hud" (document (world (st sys3))) = false /\
  overlay_holds "hud" (document (world (st sys4))) = false /\
  Dom.overlay_has "hud" (document (world (st sys5))) = true /\
  overlay_holds "menu" (document (world (st sys5))) = false.
Proof.
  cbv zeta.
  pose proof (C8_entering_edit_mode_clears_overlay
                (frame Fixtures.toy_Function (Fixtures.tick 16)
                   (Fixtures.boot Fixtures.src_hud [])) eq_refl) as H.
  cbv zeta in H. destruct H as (_ & _ & H2 & H3 & _ & H5 & H6 & _).
  split; [reflexivity|]. split; [reflexivity|].
  split; [apply H2|].
  split; [apply (H3 Fixtures.toy_Function [Fixtures.tick 16])|].
  split; [apply (H5 Fixtures.toy_Function [Fixtures.tick 16])|].
  split; [reflexivity|].
  apply (H6 Fixtures.toy_Function [Fixtures.tick 16]
            [Fixtures.tick 16; Fixtures.tick 16] "menu").
  - intros [|i] scr body Hs Hb args.
    + vm_compute in Hs. inversion Hs; subst scr.
      vm_compute in Hb. inversion Hb; subst body.
      constructor. intros a. unfold Fixtures.hud_update, call.
      constructor; [reflexivity|]. intros [x|e]; constructor.
    + simpl in Hs. unfold script_at in Hs. simpl in Hs.
      destruct (_ !! i); discriminate.
  - intros [|i].
    + simpl. intros a. unfold Fixtures.hud_update, call.
      constructor; [reflexivity|]. intros [x|e]; constructor.
    + vm_compute. destruct i; exact I.
Defined.

(** ** What capability calls leave in the trace and in the store *)

Lemma replay_writes_app e1 e2 o :
  replay_writes (e1 ++ e2) o = replay_writes e1 (replay_writes e2 o).
Proof. unfold replay_writes. apply foldr_app. Qed.

Lemma cap_step_refl w : cap_step w w.
Proof. exists []. repeat split. Qed.

Lemma cap_step_trans w1 w2 w3 : cap_step w1 w2 -> cap_step w2 w3 -> cap_step w1 w3.
Proof.
  intros (e1 & T1 & F1 & O1) (e2 & T2 & F2 & O2). exists (e2 ++ e1).
  split; [rewrite T2, T1, app_assoc; reflexivity|]. split.
  - rewrite forallb_app, F1, F2. reflexivity.
  - rewrite O2, O1, replay_writes_app. reflexivity.
Qed.

Lemma writes_only_refl w : writes_only w w.
Proof. exists []. split; reflexivity. Qed.

Lemma writes_only_trans w1 w2 w3 :
  writes_only w1 w2 -> writes_only w2 w3 -> writes_only w1 w3.
Proof.
  intros (e1 & T1 & O1) (e2 & T2 & O2). exists (e2 ++ e1).
  split; [rewrite T2, T1, app_assoc; reflexivity|].
  rewrite O2, O1, replay_writes_app. reflexivity.
Qed.

Lemma cap_step_writes_only w w' : cap_step w w' -> writes_only w w'.
Proof. intros (e & T & _ & O). exists e. split; assumption. Qed.

Lemma writes_only_emit e w : driver_event e = true -> writes_only w (emit e w).
Proof.
  intros H. exists [e]. split; [reflexivity|].
  destruct e; try discriminate; reflexivity.
Qed.

Ltac cap_step_explicit :=
  first [ exists []; repeat split; reflexivity
        | eexists [_]; repeat split; reflexivity
        | eexists [_; _]; repeat split; reflexivity ].

Lemma cap_step_handlePlayAnimation p m a w :
  cap_step w (handlePlayAnimation p m a w).
Proof. unfold handlePlayAnimation. repeat case_match; cap_step_explicit. Qed.

Lemma cap_step_playAnimation p m a w : cap_step w (playAnimation p m a w).1.
Proof.
  unfold playAnimation. repeat case_match; simpl; try cap_step_explicit.
  eapply cap_step_trans; [|apply cap_step_handlePlayAnimation].
  cap_step_explicit.
Qed.

Lemma cap_step_removeHTML id w : cap_step w (removeHTML id w).1.
Proof. unfold removeHTML. repeat case_match; cap_step_explicit. Qed.

Lemma cap_step_handle p X (c : Cap X) env w :
  cap_step w (handle p c (env, w)).1.2.
Proof.
  destruct c; unfold handle; simpl; try cap_step_explicit.
  - pose proof (cap_step_playAnimation p modelName animationName w) as H.
    destruct (playAnimation p modelName animationName w); exact H.
  - unfold createHTML. repeat case_match; cap_step_explicit.
  - pose proof (cap_step_removeHTML id w) as H.
    destruct (removeHTML id w); exact H.
  - case_match; cap_step_explicit.
  - destruct (objects w !! o) as [ob|] eqn:E; simpl; [|cap_step_explicit].
    eexists [_]. repeat split. simpl. rewrite E. reflexivity.
Qed.

Lemma cap_step_run p X (prog : Prog X) env w :
  cap_step w (run p prog (env, w)).1.2.
Proof.
  apply run_rel; auto using cap_step_refl, cap_step_handle.
  exact cap_step_trans.
Qed.

Lemma writes_only_run_scripts nf p t s :
  writes_only (world s) (world (run_scripts nf p t s)).
Proof.
  apply run_scripts_rel with (D := fun e => driver_event e = true).
  - apply writes_only_refl.
  - exact writes_only_trans.
  - intros X c env w. apply cap_step_writes_only, cap_step_handle.
  - apply writes_only_emit.
  - auto.
Qed.

Lemma writes_only_mixer_update delta w : writes_only w (mixer_update delta w).
Proof.
  unfold mixer_update. destruct (mixer w).
  - exists [EvMixerUpdate delta]. split; reflexivity.
  - apply writes_only_refl.
Qed.

Lemma writes_only_useFrame nf p t s :
  writes_only (world s) (world (useFrame nf p t s)).
Proof.
  unfold useFrame.
  pose proof (writes_only_mixer_update (tick_delta t) (world s)) as H.
  destruct (isEditMode p); [exact H|].
  eapply writes_only_trans; [exact H|].
  apply (writes_only_run_scripts nf p t
           (set_world (mixer_update (tick_delta t) (world s)) s)).
Qed.

Lemma useFrame_extends nf p t s : extends (world s) (world (useFrame nf p t s)).
Proof.
  destruct (writes_only_useFrame nf p t s) as (evs & H & _). exists evs. exact H.
Qed.

(** Every change a frame makes to the store is a write some script
    issued during that frame. *)
Lemma useFrame_store nf p t s :
  objects (world (useFrame nf p t s))
  = replay_writes (events_since (world s) (world (useFrame nf p t s)))
      (objects (world s)).
Proof.
  destruct (writes_only_useFrame nf p t s) as (evs & HT & HO).
  rewrite (events_since_app _ _ _ HT). exact HO.
Qed.

(** ** [userData] and the cache *)

Lemma assign_script_lookup l index value :
  assign_script l index value !! index = Some (Src value).
Proof.
  unfold assign_script. destruct (decide (index < length l)) as [H|H].
  - apply list_lookup_insert_eq, H.
  - rewrite lookup_app_r by lia.
    rewrite lookup_app_r by (rewrite length_replicate; lia).
    rewrite length_replicate.
    replace (index - length l - (index - length l)) with 0 by lia. reflexivity.
Qed.

Lemma objects_handleScriptChange sel value sys :
  objects (world (st (handleScriptChange sel value sys)))
  = objects (world (st sys)).
Proof.
  unfold handleScriptChange. destruct sel; [case_bool_decide|]; reflexivity.
Qed.

Lemma objects_deleteModel index sys :
  objects (world (st (deleteModel index sys))) = objects (world (st sys)).
Proof. unfold deleteModel. simpl. case_bool_decide; reflexivity. Qed.

Lemma objects_handlePlayAnimation p m a w :
  objects (handlePlayAnimation p m a w) = objects w.
Proof. unfold handlePlayAnimation. repeat case_match; reflexivity. Qed.

Lemma objects_playAnimation p m a w :
  objects (playAnimation p m a w).1 = objects w.
Proof.
  unfold playAnimation. repeat case_match; simpl; try reflexivity.
  rewrite objects_handlePlayAnimation. reflexivity.
Qed.

Lemma objects_removeHTML id w : objects (removeHTML id w).1 = objects w.
Proof. unfold removeHTML. repeat case_match; reflexivity. Qed.

Lemma objects_createHTML html w : objects (createHTML html w) = objects w.
Proof. unfold createHTML. repeat case_match; reflexivity. Qed.

Lemma stored_ext w w' r key :
  objects w' = objects w -> stored w' r key = stored w r key.
Proof. unfold stored. intros ->. reflexivity. Qed.

(** A capability call other than a write of that key on that object
    leaves the stored value. *)
Lemma stored_handle_avoids p r key X (c : Cap X) env w :
  writes_key r key X c = false ->
  stored (handle p c (env, w)).1.2 r key = stored w r key.
Proof.
  destruct c; unfold handle; simpl; intros Hc; try reflexivity.
  - pose proof (objects_playAnimation p modelName animationName w) as H.
    destruct (playAnimation p modelName animationName w). apply stored_ext, H.
  - apply stored_ext, objects_createHTML.
  - pose proof (objects_removeHTML id w) as H.
    destruct (removeHTML id w). apply stored_ext, H.
  - case_match; reflexivity.
  - destruct (objects w !! o) as [ob|] eqn:Eo; [|reflexivity].
    unfold stored. simpl.
    destruct (decide (o = r)) as [->|Hne].
    + rewrite lookup_insert_eq, Eo. simpl.
      apply lookup_insert_ne. intros ->.
      rewrite bool_decide_eq_true_2 in Hc by auto. discriminate.
    + rewrite lookup_insert_ne by exact Hne. reflexivity.
Qed.

Lemma stored_mixer_update delta w r key :
  stored (mixer_update delta w) r key = stored w r key.
Proof. unfold mixer_update. destruct (mixer w); reflexivity. Qed.

(** Frames whose scripts never write a key of an object leave it, and
    so do the compilations they include. *)
Lemma stored_frames_avoid nf p ticks s r key :
  scripts_avoid (writes_key r key) nf p ->
  cache_avoids (writes_key r key) s ->
  stored (world (frames nf p ticks s)) r key = stored (world s) r key.
Proof.
  intros Hnf Hc.
  destruct (frames_guarded p (writes_key r key)
              (fun w w' => stored w' r key = stored w r key))
    with (new_Function := nf) (ticks := ticks) (s := s) as [H1 H2]; auto.
  - intros w1 w2 w3 H1 H2. congruence.
  - intros X c env w. apply stored_handle_avoids.
  - intros delta w. apply stored_mixer_update.
Qed.

(** C7: the operations on the cache (the effect, a mode toggle, a change
    of source text) and the deletion of a model leave every object's
    [userData] as it is; whatever a frame changes in the store is listed
    in the trace as a write; and a change of a slot's source
    text replaces the slot's entry by a fresh one, with no module and an
    empty closure, so that only the closure state of the previous unit is
    lost.  The driver itself writes nothing: over any run of frames,
    with the compilations it includes, a key that no script writes (in
    its top-level statements or in [update]) keeps its value, also
    across a change of source text and the recompilation that follows;
    a script's read returns the stored value and a script's write
    stores the value written. *)
Theorem C7_userData_only_written_by_scripts :
  (forall p s, objects (world (script_effect p s)) = objects (world s)) /\
  (forall sys,
     objects (world (st (toggleEditMode sys))) = objects (world (st sys))) /\
  (forall sel value sys,
     objects (world (st (handleScriptChange sel value sys)))
     = objects (world (st sys))) /\
  (forall index sys,
     objects (world (st (deleteModel index sys))) = objects (world (st sys))) /\
  (forall nf p t s,
     objects (world (useFrame nf p t s))
     = replay_writes (events_since (world s) (world (useFrame nf p t s)))
         (objects (world s))) /\
  (forall value sys,
     value <> sceneScript (props sys) ->
     script (sceneScriptRef (st sys)) <> Some value ->
     sceneScriptRef (st (handleScriptChange SceneSlot value sys))
     = fresh_entry (Some value)) /\
  (forall index value sys e,
     array_get (modelScriptsRef (st sys)) index = Some e ->
     script e <> Some value ->
     array_get
       (modelScriptsRef (st (handleScriptChange (EntitySlot index) value sys)))
       index
     = Some (fresh_entry (Some value))) /\
  (forall nf p ticks s r key,
     scripts_avoid (writes_key r key) nf p ->
     cache_avoids (writes_key r key) s ->
     stored (world (frames nf p ticks s)) r key = stored (world s) r key) /\
  (forall nf sel value sys ticks r key,
     let sys' := handleScriptChange sel value sys in
     scripts_avoid (writes_key r key) nf (props sys') ->
     cache_avoids (writes_key r key) (st sys') ->
     stored (world (st (run_for nf ticks sys'))) r key
     = stored (world (st sys)) r key) /\
  (forall p r key env w,
     is_Some (objects w !! r) ->
     handle p (GetUserData r key) (env, w)
     = (env, w, Normal (stored w r key))) /\
  (forall p r key v env w,
     is_Some (objects w !! r) ->
     (handle p (SetUserData r key v) (env, w)).2 = Normal tt /\
     stored (handle p (SetUserData r key v) (env, w)).1.2 r key = Some v).
Proof.
  split; [reflexivity|]. split; [reflexivity|].
  split; [apply objects_handleScriptChange|].
  split; [apply objects_deleteModel|].
  split; [apply useFrame_store|]. split; [|split; [|split; [|split; [|split]]]].
  - intros value sys Hv Hs. unfold handleScriptChange.
    rewrite bool_decide_eq_false_2 by exact Hv. cbn [st].
    apply (script_effect_scene_changed (set_sceneScript value (props sys))).
    exact Hs.
  - intros index value sys e He Hs. unfold handleScriptChange. cbn [st].
    apply script_effect_model_changed.
    + apply assign_script_lookup.
    + intros e' He'. rewrite He in He'. inversion He'; subst. exact Hs.
  - apply stored_frames_avoid.
  - intros nf sel value sys ticks r key. cbv zeta. intros Hnf Hc.
    unfold run_for. cbn [st].
    rewrite (stored_frames_avoid nf _ ticks _ r key Hnf Hc).
    apply stored_ext, objects_handleScriptChange.
  - intros p r key env w [ob Eo]. unfold handle, stored. rewrite Eo. reflexivity.
  - intros p r key v env w [ob Eo]. unfold handle, stored. rewrite Eo. simpl.
    split; [reflexivity|].
    rewrite lookup_insert_eq. simpl. apply lookup_insert_eq.
Qed.

(** The scenario of the tally: after three frames the entity's
    [userData] holds [calls = 3] (kept in the unit's closure) and
    [total = 3]; the text is then replaced by another with the same
    behaviour; after the next frame [total] is 4, the new unit having seen
    the stored value, and [calls] is 1, the old closure being gone.  When
    the text is replaced by a script that plays a clip and writes
    nothing, [total] is still 3 after the unit is compiled and two
    frames have run. *)
Lemma C7_tally_witness :
  let nf := Fixtures.toy_Function in
  let t := Fixtures.tick 16 in
  let sys3 := frame nf t (frame nf t (frame nf t
                (Fixtures.boot EmptyString [Src Fixtures.src_tally]))) in
  let sys4 := handleScriptChange (EntitySlot 0) Fixtures.src_tally_v2 sys3 in
  let sys5 := frame nf t sys4 in
  let sys4' := handleScriptChange (EntitySlot 0) Fixtures.src_play_walk sys3 in
  let sys6' := run_for nf [t; t] sys4' in
  Fixtures.userData_of sys3 Fixtures.robot_ref "calls" = Some (VNum 3) /\
  Fixtures.userData_of sys3 Fixtures.robot_ref "total" = Some (VNum 3) /\
  array_get (modelScriptsRef (st sys4)) 0
    = Some (fresh_entry (Some Fixtures.src_tally_v2)) /\
  objects (world (st sys4)) = objects (world (st sys3)) /\
  Fixtures.userData_of sys5 Fixtures.robot_ref "calls" = Some (VNum 1) /\
  Fixtures.userData_of sys5 Fixtures.robot_ref "total" = Some (VNum 4) /\
  count_event (EvTopLevel (EntitySlot 0))
    (events_since (world (st sys4')) (world (st sys6'))) = 1 /\
  stored (world (st sys6')) Fixtures.robot_ref "total"
  = stored (world (st sys3)) Fixtures.robot_ref "total".
Proof.
  cbv zeta.
  destruct C7_userData_only_written_by_scripts
    as (_ & _ & H3 & _ & _ & _ & H7 & _ & H9 & _).
  split; [vm_compute; reflexivity|]. split; [vm_compute; reflexivity|].
  split.
  { eapply H7; [vm_compute; reflexivity|]. vm_compute. discriminate. }
  split; [apply H3|]. split; [vm_compute; reflexivity|].
  split; [vm_compute; reflexivity|]. split; [vm_compute; reflexivity|].
  apply H9.
  - intros [|i] scr body Hs Hb args.
    + vm_compute in Hs. discriminate.
    + destruct i as [|i].
      * vm_compute in Hs. inversion Hs; subst scr.
        vm_compute in Hb. inversion Hb; subst body.
        constructor. intros a. unfold call.
        constructor; [reflexivity|]. intros [x|e]; constructor.
      * destruct i as [|i]; vm_compute in Hs; [discriminate|].
        destruct i; discriminate.
  - intros [|i]; [exact I|].
    destruct i as [|i]; [exact I|]. vm_compute. destruct i; exact I.
Defined.

(** ** The shared mixer *)

Lemma find_clip_name a l c : find_clip a l = Some c -> clip_name c = a.
Proof.
  unfold find_clip. intros H. apply head_Some_elem_of in H.
  apply list_elem_of_filter in H as [H _]. exact H.
Qed.

Lemma find_clip_cons_inv a l c :
  find_clip a l = Some c -> exists x rest, l = x :: rest.
Proof. destruct l as [|x rest]; [discriminate | eauto]. Qed.

Lemma playing_emit e w : playing (emit e w) = playing w.
Proof. reflexivity. Qed.

(** After [stopAllAction] and [play] exactly the played action runs. *)
Lemma playing_stop_play act w mx :
  mixer w = Some mx ->
  playing (on_mixer (Mixer.play act) (on_mixer Mixer.stopAllAction w)) = [act].
Proof. unfold playing, on_mixer. simpl. intros ->. reflexivity. Qed.

Lemma handlePlayAnimation_playing p m a w :
  playing (handlePlayAnimation p m a w) = playing w \/
  exists act, playing (handlePlayAnimation p m a w) = [act] /\
              clip_name (act_clip act) = a.
Proof.
  unfold handlePlayAnimation.
  destruct (activeModel p ≫= animations_of w) as [clips|]; [|left; reflexivity].
  destruct (find_clip a clips) as [c|] eqn:Ec; [|left; reflexivity].
  destruct (activeModel p) as [model|]; [|left; reflexivity].
  destruct (mixer w) as [mx|] eqn:Em; [|left; reflexivity].
  right. eexists. split.
  - apply (playing_stop_play _ (console (EnginePlaying a) w) mx). exact Em.
  - simpl. eapply find_clip_name, Ec.
Qed.

Lemma playAnimation_resolved p m a w :
  resolves p w m a ->
  (playAnimation p m a w).2 = Normal tt /\
  exists act, playing (playAnimation p m a w).1 = [act] /\
              clip_name (act_clip act) = a.
Proof.
  intros (mx & target & clips & c & Em & Et & Ea & Ec).
  unfold playAnimation. rewrite Em, Et, Ea.
  destruct (find_clip_cons_inv _ _ _ Ec) as (x & rest & ->).
  rewrite Ec. simpl. split; [reflexivity|].
  match goal with |- context [handlePlayAnimation p m a ?w3] =>
    destruct (handlePlayAnimation_playing p m a w3) as [H|H];
    [|exact H]; rewrite H
  end.
  eexists. split.
  - apply (playing_stop_play _ (console (PlayingAnimation m a) w) mx). exact Em.
  - simpl. eapply find_clip_name, Ec.
Qed.






Lemma resolves_ext p w w' m a :
  objects w' = objects w -> is_Some (mixer w') ->
  resolves p w m a -> resolves p w' m a.
Proof.
  intros Ho [mx' Em'] (mx & target & clips & c & Em & Et & Ea & Ec).
  exists mx', target, clips, c. split; [exact Em'|].
  unfold targetModel, active_named, animations_of in *. rewrite Ho.
  auto.
Qed.


(** ** One slot at a time *)

Lemma silent_refl sl w : silent sl w w.
Proof. exists []. split; reflexivity. Qed.

Lemma silent_trans sl w1 w2 w3 :
  silent sl w1 w2 -> silent sl w2 w3 -> silent sl w1 w3.
Proof.
  intros (e1 & T1 & F1) (e2 & T2 & F2). exists (e2 ++ e1).
  split; [rewrite T2, T1, app_assoc; reflexivity|].
  rewrite forallb_app, F1, F2. reflexivity.
Qed.

Lemma silent_emit sl e w : about sl e = false -> silent sl w (emit e w).
Proof. intros H. exists [e]. split; [reflexivity|]. simpl. rewrite H. reflexivity. Qed.

Lemma cap_not_about sl e : cap_event e = true -> about sl e = false.
Proof. destruct e as [[]| | | | |]; simpl; try discriminate; reflexivity. Qed.

Lemma about_other s1 s2 e : about s1 e = true -> s1 <> s2 -> about s2 e = false.
Proof.
  intros H Hne.
  destruct e as [[]| | | | |]; simpl in *; try discriminate;
    apply bool_decide_eq_true_1 in H; apply bool_decide_eq_false_2; congruence.
Qed.

Lemma cap_step_silent sl w w' : cap_step w w' -> silent sl w w'.
Proof.
  intros (evs & T & F & _). exists evs. split; [exact T|].
  apply forallb_forall. intros e He.
  rewrite forallb_forall in F. rewrite (cap_not_about sl e (F e He)). reflexivity.
Qed.

Lemma silent_run sl p X (prog : Prog X) env w :
  silent sl w (run p prog (env, w)).1.2.
Proof. apply cap_step_silent, cap_step_run. Qed.

Lemma quiet_refl sl s : quiet sl s s.
Proof. split; [reflexivity | apply silent_refl]. Qed.

Lemma quiet_trans sl s1 s2 s3 : quiet sl s1 s2 -> quiet sl s2 s3 -> quiet sl s1 s3.
Proof.
  intros [E1 S1] [E2 S2]. split; [congruence | eapply silent_trans; eauto].
Qed.

Section OtherSlots.

Variable nf : string -> option (Args -> Prog JSModule).
Variable p : Props.
Variable sl : Slot.

Let tolerated := fun e : Event => about sl e = false.

Lemma scene_part_silent t s :
  sl <> SceneSlot -> silent sl (world s) (world (scene_part nf p t s).1).
Proof.
  intros Hne.
  apply (scene_part_rel nf p (silent sl) (silent_refl sl) (silent_trans sl))
    with (D := tolerated).
  - intros X c env w. apply cap_step_silent, cap_step_handle.
  - apply silent_emit.
  - intros e He. eapply about_other; eauto.
Qed.

Lemma model_step_silent t index model s :
  sl <> EntitySlot index ->
  silent sl (world s) (world (model_step nf p t index model s)).
Proof.
  intros Hne.
  apply (model_step_rel nf p (silent sl) (silent_refl sl) (silent_trans sl))
    with (D := tolerated).
  - intros X c env w. apply cap_step_silent, cap_step_handle.
  - apply silent_emit.
  - intros e He. eapply about_other; eauto.
Qed.

End OtherSlots.

(** *** Cache entries of the other slots *)

Lemma scene_part_models nf p t s :
  modelScriptsRef (scene_part nf p t s).1 = modelScriptsRef s.
Proof.
  unfold scene_part, scene_construct, scene_update, scriptFn_call.
  repeat (case_match; simpl in *; subst; try reflexivity);
    repeat match goal with H : (_, _) = (_, _) |- _ => inversion H; clear H; subst end;
    reflexivity.
Qed.

Ltac crunch_pairs :=
  repeat match goal with
         | H : (_, _) = (_, _) |- _ => inversion H; clear H; subst
         end.

Lemma model_step_scene nf p t index model s :
  sceneScriptRef (model_step nf p t index model s) = sceneScriptRef s.
Proof.
  unfold model_step, model_construct, model_update, scriptFn_call.
  repeat (case_match; simpl in *; subst; try reflexivity);
    crunch_pairs; reflexivity.
Qed.

Lemma model_construct_entry_other nf p t scr index model s i :
  i <> index ->
  array_get (modelScriptsRef (model_construct nf p t scr index model s).1) i
  = array_get (modelScriptsRef s) i.
Proof.
  intros Hne. unfold model_construct, scriptFn_call.
  repeat (case_match; simpl in *; subst; try reflexivity);
    crunch_pairs; simpl; rewrite ?array_get_set_ne by auto; reflexivity.
Qed.

Lemma model_update_entry_other p t index model s i :
  i <> index ->
  array_get (modelScriptsRef (model_update p t index model s).1) i
  = array_get (modelScriptsRef s) i.
Proof.
  intros Hne. unfold model_update.
  repeat (case_match; simpl in *; subst; try reflexivity);
    crunch_pairs; simpl; rewrite ?array_get_set_ne by auto; reflexivity.
Qed.

Lemma model_step_entry_other nf p t index model s i :
  i <> index ->
  array_get (modelScriptsRef (model_step nf p t index model s)) i
  = array_get (modelScriptsRef s) i.
Proof.
  intros Hne. unfold model_step.
  destruct (script_at p index) as [scr|]; [|reflexivity].
  pose proof (model_construct_entry_other nf p t scr index model s i Hne) as H1.
  destruct (model_construct nf p t scr index model s) as [s1 [v|e]]; simpl in *.
  - pose proof (model_update_entry_other p t index model s1 i Hne) as H2.
    destruct (model_update p t index model s1) as [s2 [v2|e2]]; simpl in *;
      congruence.
  - exact H1.
Qed.

Lemma scene_part_quiet nf p t s i :
  quiet (EntitySlot i) s (scene_part nf p t s).1.
Proof.
  split.
  - simpl. rewrite scene_part_models. reflexivity.
  - apply scene_part_silent. discriminate.
Qed.

Lemma model_step_quiet nf p t index model s sl :
  sl <> EntitySlot index -> quiet sl s (model_step nf p t index model s).
Proof.
  intros Hne. split; [|apply model_step_silent, Hne].
  destruct sl as [|i]; simpl.
  - rewrite model_step_scene. reflexivity.
  - apply model_step_entry_other. congruence.
Qed.

Lemma models_loop_quiet nf p t models k s sl :
  (forall j, k <= j < k + length models -> sl <> EntitySlot j) ->
  quiet sl s (models_loop nf p t k models s).
Proof.
  revert k s. induction models as [|m rest IH]; intros k s H; simpl.
  - apply quiet_refl.
  - apply (quiet_trans _ _ (model_step nf p t k m s)).
    + apply model_step_quiet, H. simpl. lia.
    + apply IH. intros j Hj. apply H. simpl. lia.
Qed.

Lemma log_state_quiet sl l s :
  about sl (EvLog l) = false -> quiet sl s (log_state l s).
Proof. intros H. split; [destruct sl; reflexivity | apply silent_emit, H]. Qed.

Lemma mixer_update_quiet sl delta s :
  quiet sl s (set_world (mixer_update delta (world s)) s).
Proof.
  split; [destruct sl; reflexivity|]. simpl. unfold mixer_update.
  destruct (mixer (world s)); [|apply silent_refl].
  exists [EvMixerUpdate delta]. split; reflexivity.
Qed.

(** The loop over the models, seen from entity slot [k + i]: quiet up
    to the slot's own step, and quiet after it. *)
Lemma models_loop_split nf p t models k s i model :
  models !! i = Some model ->
  exists s1,
    quiet (EntitySlot (k + i)) s s1 /\
    quiet (EntitySlot (k + i)) (model_step nf p t (k + i) model s1)
      (models_loop nf p t k models s).
Proof.
  revert k s i. induction models as [|m rest IH]; intros k s i Hi.
  - discriminate.
  - destruct i as [|i]; simpl in *.
    + inversion Hi; subst. exists s. rewrite Nat.add_0_r.
      split; [apply quiet_refl|].
      apply models_loop_quiet. intros j Hj Heq.
      assert (k = j) by congruence. lia.
    + destruct (IH (S k) (model_step nf p t k m s) i Hi) as (s1 & Q1 & Q2).
      replace (k + S i) with (S k + i) by lia.
      exists s1. split; [|exact Q2].
      apply (quiet_trans _ _ (model_step nf p t k m s)); [|exact Q1].
      apply model_step_quiet. intros Heq.
      assert (S k + i = k) by congruence. lia.
Qed.

(** ** What a frame does for one slot *)

Lemma marks_nil sl : marks sl [] = [].
Proof. reflexivity. Qed.

Lemma marks_app sl l1 l2 : marks sl (l1 ++ l2) = marks sl l1 ++ marks sl l2.
Proof. apply filter_app. Qed.

Lemma marks_cons_tracked sl e l :
  tracked sl e = true -> marks sl (e :: l) = e :: marks sl l.
Proof. intros H. unfold marks. rewrite filter_cons_True by exact H. reflexivity. Qed.

Lemma marks_cons_untracked sl e l :
  tracked sl e = false -> marks sl (e :: l) = marks sl l.
Proof.
  intros H. unfold marks. rewrite filter_cons_False; [reflexivity|].
  rewrite H. discriminate.
Qed.

Lemma tracked_about sl e : tracked sl e = true -> about sl e = true.
Proof. destruct e as [[]| | | | |]; simpl; auto; discriminate. Qed.

Lemma marks_silent sl evs :
  forallb (fun e => negb (about sl e)) evs = true -> marks sl evs = [].
Proof.
  induction evs as [|e l IH]; simpl; [reflexivity|].
  intros H. apply andb_true_iff in H as [H1 H2].
  rewrite marks_cons_untracked; [apply IH, H2|].
  destruct (tracked sl e) eqn:E; [|reflexivity].
  rewrite (tracked_about sl e E) in H1. discriminate.
Qed.

Lemma module_of_entry s sl :
  module_of s sl
  = match entry_of s sl with Some e => module e | None => JUndefined end.
Proof. destruct sl; reflexivity. Qed.

Lemma quiet_module sl s s' : quiet sl s s' -> module_of s' sl = module_of s sl.
Proof. intros [H _]. rewrite !module_of_entry, H. reflexivity. Qed.

Lemma slot_summary_quiet_l nf sl scr s s1 s2 :
  quiet sl s s1 -> slot_summary nf sl scr s1 s2 -> slot_summary nf sl scr s s2.
Proof.
  intros Q (evs & threw & T & M & H1 & H2 & H3).
  pose proof (quiet_module sl s s1 Q) as Hm.
  destruct Q as [_ (evs0 & T0 & F0)].
  exists (evs ++ evs0), threw. rewrite Hm in *.
  split; [rewrite T, T0, app_assoc; reflexivity|].
  split; [rewrite marks_app, (marks_silent sl evs0 F0), app_nil_r; exact M|].
  auto.
Qed.

Lemma slot_summary_quiet_r nf sl scr s s1 s2 :
  slot_summary nf sl scr s s1 -> quiet sl s1 s2 -> slot_summary nf sl scr s s2.
Proof.
  intros (evs & threw & T & M & H1 & H2 & H3) Q.
  pose proof (quiet_module sl s1 s2 Q) as Hm.
  destruct Q as [_ (evs0 & T0 & F0)].
  exists (evs0 ++ evs), threw. rewrite Hm.
  split; [rewrite T0, T, app_assoc; reflexivity|].
  split; [rewrite marks_app, (marks_silent sl evs0 F0); exact M|].
  auto.
Qed.

Lemma yields_unit_run p prog env w :
  yields_unit prog ->
  match (run p prog (env, w)).2 with
  | Normal v => truthy v = true
  | Abrupt _ => True
  end.
Proof.
  intros H. revert env w. induction H as [v Hv|e|X c k _ IH]; intros env w;
    cbn [run]; simpl; auto.
  destruct (handle p c (env, w)) as [[env' w'] x]. apply IH.
Qed.

(** The compiled function of a well-formed body returns a truthy
    module. *)
Lemma scriptFn_call_truthy p slot body args w :
  yields_unit (body args) ->
  match (scriptFn_call p slot body args w).2 with
  | Normal v => truthy v = true
  | Abrupt _ => False
  end.
Proof.
  intros H. unfold scriptFn_call.
  pose proof (yields_unit_run p (body args) ∅ (emit (EvTopLevel slot) w) H) as Hr.
  destruct (run p (body args) (∅, emit (EvTopLevel slot) w)) as [[env w'] [v|e]];
    simpl in *; auto.
Qed.

Lemma scriptFn_call_normal p slot body args w :
  exists v, (scriptFn_call p slot body args w).2 = Normal v.
Proof.
  unfold scriptFn_call.
  destruct (run p (body args) (∅, emit (EvTopLevel slot) w)) as [[env w'] [v|e]];
    simpl; eauto.
Qed.

(** The trace of a call of the compiled function: the mark of the
    top-level run, then events that are not tracked for any slot. *)
Lemma scriptFn_call_trace p slot body args w sl :
  exists evs,
    trace (scriptFn_call p slot body args w).1.2
    = evs ++ EvTopLevel slot :: trace w /\
    marks sl evs = [].
Proof.
  unfold scriptFn_call.
  destruct (silent_run sl p _ (body args) ∅ (emit (EvTopLevel slot) w))
    as (evs & T & F).
  destruct (run p (body args) (∅, emit (EvTopLevel slot) w)) as [[env w'] [v|e]];
    simpl in *.
  - exists evs. split; [exact T | apply marks_silent, F].
  - exists (EvLog (ErrorInScript slot e) :: evs). rewrite T.
    split; [reflexivity|].
    rewrite marks_cons_untracked by reflexivity. apply marks_silent, F.
Qed.

Ltac tracked_ok :=
  simpl; first [reflexivity | apply bool_decide_eq_true_2; reflexivity].

Ltac marks_tac :=
  repeat first
    [ rewrite marks_app
    | rewrite marks_cons_tracked by tracked_ok
    | rewrite marks_cons_untracked by reflexivity
    | rewrite marks_nil ].

Lemma model_module_set index e w s :
  model_module (set_model_entry index e w s) index = module e.
Proof. unfold model_module. simpl. rewrite array_get_set_eq. reflexivity. Qed.

Lemma model_construct_spec nf p t scr i model s :
  let r := model_construct nf p t scr i model s in
  let m0 := model_module s i in
  exists evs,
    trace (world r.1) = evs ++ trace (world s) /\
    marks (EntitySlot i) evs = construct_marks nf (EntitySlot i) scr m0 /\
    (truthy m0 = true -> model_module r.1 i = m0) /\
    (truthy m0 = false -> nf scr = None ->
     model_module r.1 i = m0 /\ r.2 = Abrupt SyntaxError) /\
    (truthy m0 = false -> forall body, nf scr = Some body ->
     r.2 = Normal tt /\
     ((forall args, yields_unit (body args)) ->
      truthy (model_module r.1 i) = true)).
Proof.
  cbv zeta. unfold model_construct, construct_marks.
  destruct (truthy (model_module s i)) eqn:Et.
  - exists []. simpl. repeat split; auto; discriminate.
  - destruct (nf scr) as [fn|] eqn:En.
    + set (w := emit (EvParse (EntitySlot i)) (world s)).
      destruct (scriptFn_call_trace p (EntitySlot i) fn (model_args t model) w
                  (EntitySlot i)) as (evs & T & M).
      pose proof (scriptFn_call_truthy p (EntitySlot i) fn (model_args t model) w)
        as Hy.
      destruct (scriptFn_call p (EntitySlot i) fn (model_args t model) w)
        as [[env w'] [v|err]]; simpl in *.
      * exists (evs ++ [EvTopLevel (EntitySlot i); EvParse (EntitySlot i)]).
        split; [rewrite T, <- app_assoc; reflexivity|].
        split; [marks_tac; rewrite M; reflexivity|].
        split; [discriminate|]. split; [discriminate|].
        intros _ body Hb. inversion Hb; subst. split; [reflexivity|].
        intros Hw. rewrite model_module_set. simpl. apply Hy, Hw.
      * exists (EvLog (ErrorInitializing (EntitySlot i) err) :: evs
                ++ [EvTopLevel (EntitySlot i); EvParse (EntitySlot i)]).
        split; [simpl; rewrite T, <- app_assoc; reflexivity|].
        split; [marks_tac; rewrite M; reflexivity|].
        split; [discriminate|]. split; [discriminate|].
        intros _ body Hb. split; [reflexivity|].
        intros _. rewrite model_module_set. reflexivity.
    + exists [EvParse (EntitySlot i)]. simpl.
      split; [reflexivity|]. split; [marks_tac; reflexivity|].
      split; [discriminate|]. split; [auto|]. intros _ body Hb. discriminate.
Qed.

Lemma model_update_spec p t i model s :
  let r := model_update p t i model s in
  let m := model_module s i in
  exists evs threw,
    trace (world r.1) = evs ++ trace (world s) /\
    marks (EntitySlot i) evs = update_marks (EntitySlot i) m threw /\
    model_module r.1 i = m.
Proof.
  cbv zeta. unfold model_update, update_marks.
  destruct (array_get (modelScriptsRef s) i) as [e|] eqn:Ee.
  2: { replace (model_module s i) with JUndefined
         by (unfold model_module; rewrite Ee; reflexivity).
       exists [], None. simpl. unfold model_module. rewrite Ee. auto. }
  replace (model_module s i) with (module e)
    by (unfold model_module; rewrite Ee; reflexivity).
  destruct (module e) as [| | | |[u|]] eqn:Em;
    try (exists [], None; simpl; unfold model_module; rewrite Ee, Em; auto; fail).
  set (w := emit (EvUpdate (EntitySlot i)) (world s)).
  destruct (silent_run (EntitySlot i) p _ (u (model_args t model)) (closure e) w)
    as (evs & T & F).
  destruct (run p (u (model_args t model)) (closure e, w)) as [[env w'] [v|err]];
    simpl in *.
  - exists (evs ++ [EvUpdate (EntitySlot i)]), None.
    split; [rewrite T, <- app_assoc; reflexivity|].
    split; [marks_tac; rewrite (marks_silent _ _ F); reflexivity|].
    rewrite model_module_set. reflexivity.
  - exists (EvLog (ErrorExecutingUpdate (EntitySlot i) err) :: evs
            ++ [EvUpdate (EntitySlot i)]), (Some err).
    split; [simpl; rewrite T, <- app_assoc; reflexivity|].
    split; [marks_tac; rewrite (marks_silent _ _ F); reflexivity|].
    rewrite model_module_set. reflexivity.
Qed.

Lemma model_step_summary nf p t i model s scr :
  script_at p i = Some scr ->
  slot_summary nf (EntitySlot i) scr s (model_step nf p t i model s).
Proof.
  intros Hs. unfold model_step. rewrite Hs.
  destruct (model_construct_spec nf p t scr i model s)
    as (evs1 & T1 & M1 & A1 & A2 & A3).
  destruct (model_construct nf p t scr i model s) as [s1 c1] eqn:E1.
  simpl in *.
  destruct c1 as [[]|err1].
  - destruct (model_update_spec p t i model s1) as (evs2 & threw & T2 & M2 & B).
    destruct (model_update p t i model s1) as [s2 c2] eqn:E2. simpl in *.
    assert (Hsum : exists evs,
               trace (world s2) = evs ++ trace (world s) /\
               marks (EntitySlot i) evs
               = update_marks (EntitySlot i) (model_module s2 i) threw
                 ++ construct_marks nf (EntitySlot i) scr (model_module s i)).
    { exists (evs2 ++ evs1). split; [rewrite T2, T1, app_assoc; reflexivity|].
      rewrite marks_app, M2, M1, B. reflexivity. }
    destruct Hsum as (evs & T & M).
    assert (Hmods :
      (truthy (model_module s i) = true -> model_module s2 i = model_module s i) /\
      (truthy (model_module s i) = false -> nf scr = None ->
       model_module s2 i = model_module s i) /\
      (truthy (model_module s i) = false ->
       forall body, nf scr = Some body ->
                    (forall args, yields_unit (body args)) ->
                    truthy (model_module s2 i) = true)).
    { rewrite B. split; [exact A1|]. split.
      - intros H1 H2. apply A2; assumption.
      - intros H1 body Hb Hy. apply (A3 H1 body Hb), Hy. }
    destruct c2 as [[]|err2].
    + exists evs, threw. split; [exact T|]. split; [exact M|]. exact Hmods.
    + exists (EvLog (ErrorInModelScript i err2) :: evs), threw.
      split; [simpl; rewrite T; reflexivity|].
      split; [marks_tac; exact M|]. exact Hmods.
  - assert (Hf : truthy (model_module s i) = false).
    { destruct (truthy (model_module s i)) eqn:Et; [|reflexivity].
      unfold model_construct in E1. rewrite Et in E1. inversion E1. }
    assert (Hn : nf scr = None).
    { destruct (nf scr) as [body|] eqn:En; [|reflexivity].
      destruct (A3 Hf body eq_refl) as [Hc _]. discriminate. }
    destruct (A2 Hf Hn) as [Hm _].
    exists (EvLog (ErrorInModelScript i err1) :: evs1), None.
    unfold module_of.
    change (model_module (log_state (ErrorInModelScript i err1) s1) i)
      with (model_module s1 i).
    rewrite Hm.
    split; [simpl; rewrite T1; reflexivity|].
    split.
    + marks_tac. rewrite M1. unfold update_marks.
      destruct (model_module s i) as [| | | |[u|]]; try reflexivity.
      discriminate.
    + split; [auto|]. split; [auto|]. intros _ body Hb. congruence.
Qed.

Lemma scene_construct_spec nf p t s :
  let r := scene_construct nf p t s in
  let m0 := module (sceneScriptRef s) in
  let scr := sceneScript p in
  exists evs,
    trace (world r.1) = evs ++ trace (world s) /\
    marks SceneSlot evs = construct_marks nf SceneSlot scr m0 /\
    (truthy m0 = true -> module (sceneScriptRef r.1) = m0 /\ r.2 = Normal tt) /\
    (truthy m0 = false -> nf scr = None ->
     module (sceneScriptRef r.1) = m0 /\ r.2 = Abrupt SyntaxError) /\
    (truthy m0 = false -> forall body, nf scr = Some body ->
     r.2 = Normal tt /\
     ((forall args, yields_unit (body args)) ->
      truthy (module (sceneScriptRef r.1)) = true)).
Proof.
  cbv zeta. unfold scene_construct, construct_marks.
  destruct (truthy (module (sceneScriptRef s))) eqn:Et.
  - exists []. simpl. repeat split; auto; discriminate.
  - destruct (nf (sceneScript p)) as [fn|] eqn:En.
    + set (w := emit (EvParse SceneSlot) (world s)).
      destruct (scriptFn_call_trace p SceneSlot fn (scene_args t) w SceneSlot)
        as (evs & T & M).
      pose proof (scriptFn_call_truthy p SceneSlot fn (scene_args t) w) as Hy.
      destruct (scriptFn_call p SceneSlot fn (scene_args t) w)
        as [[env w'] [v|err]]; simpl in *.
      * exists (evs ++ [EvTopLevel SceneSlot; EvParse SceneSlot]).
        split; [rewrite T, <- app_assoc; reflexivity|].
        split; [marks_tac; rewrite M; reflexivity|].
        split; [discriminate|]. split; [discriminate|].
        intros _ body Hb. inversion Hb; subst. split; [reflexivity|].
        intros Hw. apply Hy, Hw.
      * exists (EvLog (ErrorInitializing SceneSlot err) :: evs
                ++ [EvTopLevel SceneSlot; EvParse SceneSlot]).
        split; [simpl; rewrite T, <- app_assoc; reflexivity|].
        split; [marks_tac; rewrite M; reflexivity|].
        split; [discriminate|]. split; [discriminate|].
        intros _ body Hb. split; reflexivity.
    + exists [EvParse SceneSlot]. simpl.
      split; [reflexivity|]. split; [marks_tac; reflexivity|].
      split; [discriminate|]. split; [auto|]. intros _ body Hb. discriminate.
Qed.

Lemma scene_update_spec p t s :
  let r := scene_update p t s in
  let m := module (sceneScriptRef s) in
  exists evs threw,
    trace (world r.1) = evs ++ trace (world s) /\
    marks SceneSlot evs = update_marks SceneSlot m threw /\
    module (sceneScriptRef r.1) = m /\
    (truthy m = true -> r.2 = Normal tt).
Proof.
  cbv zeta. unfold scene_update, update_marks.
  destruct (module (sceneScriptRef s)) as [| | | |[u|]] eqn:Em;
    try (exists [], None; simpl; rewrite ?Em; auto; fail).
  - exists [], None. simpl. rewrite Em. repeat split; auto. discriminate.
  - set (w := emit (EvUpdate SceneSlot) (world s)).
    destruct (silent_run SceneSlot p _ (u (scene_args t))
                (closure (sceneScriptRef s)) w) as (evs & T & F).
    destruct (run p (u (scene_args t)) (closure (sceneScriptRef s), w))
      as [[env w'] [v|err]]; simpl in *.
    + exists (evs ++ [EvUpdate SceneSlot]), None.
      split; [rewrite T, <- app_assoc; reflexivity|].
      split; [marks_tac; rewrite (marks_silent _ _ F); reflexivity|]. auto.
    + exists (EvLog (ErrorExecutingUpdate SceneSlot err) :: evs
              ++ [EvUpdate SceneSlot]), (Some err).
      split; [simpl; rewrite T, <- app_assoc; reflexivity|].
      split; [marks_tac; rewrite (marks_silent _ _ F); reflexivity|]. auto.
Qed.

Lemma scene_part_empty nf p t s :
  sceneScript p = EmptyString -> scene_part nf p t s = (s, Normal tt).
Proof. intros H. unfold scene_part. rewrite H. reflexivity. Qed.

Lemma scene_part_summary nf p t s :
  sceneScript p <> EmptyString ->
  slot_summary nf SceneSlot (sceneScript p) s (scene_part nf p t s).1 /\
  (truthy (module (sceneScriptRef (scene_part nf p t s).1)) = true ->
   (scene_part nf p t s).2 = Normal tt).
Proof.
  intros Hs. unfold scene_part.
  rewrite bool_decide_eq_false_2 by exact Hs.
  destruct (scene_construct_spec nf p t s) as (evs1 & T1 & M1 & A1 & A2 & A3).
  destruct (scene_construct nf p t s) as [s1 c1] eqn:E1. simpl in *.
  destruct c1 as [[]|err1].
  - destruct (scene_update_spec p t s1) as (evs2 & threw & T2 & M2 & B & C).
    destruct (scene_update p t s1) as [s2 c2] eqn:E2. simpl in *.
    split; [|rewrite B; exact C].
    exists (evs2 ++ evs1), threw. unfold module_of. rewrite B.
    split; [rewrite T2, T1, app_assoc; reflexivity|].
    split; [rewrite marks_app, M2, M1; reflexivity|].
    split; [intros H; apply A1, H|]. split.
    + intros H1 H2. apply A2; assumption.
    + intros H1 body Hb Hy. apply (A3 H1 body Hb), Hy.
  - assert (Hf : truthy (module (sceneScriptRef s)) = false).
    { destruct (truthy (module (sceneScriptRef s))) eqn:Et; [|reflexivity].
      destruct (A1 eq_refl) as [_ Hc]. discriminate. }
    assert (Hn : nf (sceneScript p) = None).
    { destruct (nf (sceneScript p)) as [body|] eqn:En; [|reflexivity].
      destruct (A3 Hf body eq_refl) as [Hc _]. discriminate. }
    destruct (A2 Hf Hn) as [Hm _].
    split; [|simpl; rewrite Hm, Hf; discriminate].
    exists evs1, None. unfold module_of. simpl. rewrite Hm.
    split; [exact T1|]. split.
    + rewrite M1. unfold update_marks.
      destruct (module (sceneScriptRef s)) as [| | | |[u|]]; try reflexivity.
      discriminate.
    + split; [auto|]. split; [auto|]. intros _ body Hb. congruence.
Qed.

(** *** A whole frame, for one slot *)

Lemma useFrame_running nf p t s :
  isEditMode p = false ->
  useFrame nf p t s = run_scripts nf p t (after_mixer t s).
Proof. unfold useFrame. intros ->. reflexivity. Qed.

Lemma scene_ok_normal nf p t s :
  scene_ok nf p s ->
  (scene_part nf p t (after_mixer t s)).2 = Normal tt /\
  scene_ok nf p (scene_part nf p t (after_mixer t s)).1.
Proof.
  intros Hok.
  destruct (decide (sceneScript p = EmptyString)) as [He|Hne].
  - rewrite (scene_part_empty nf p t _ He). split; [reflexivity|]. left. exact He.
  - destruct (scene_part_summary nf p t (after_mixer t s) Hne)
      as [(evs & threw & _ & _ & H1 & _ & H3) Hn].
    simpl in H1, H3.
    assert (Ht : truthy (module (sceneScriptRef
                                   (scene_part nf p t (after_mixer t s)).1))
                 = true).
    { destruct Hok as [He|[Ht|(body & Hb & Hy)]]; [contradiction| |].
      - rewrite (H1 Ht). exact Ht.
      - destruct (truthy (module (sceneScriptRef s))) eqn:Et.
        + rewrite (H1 eq_refl). exact Et.
        + apply (H3 eq_refl body Hb Hy). }
    split; [apply Hn, Ht|]. right. left. exact Ht.
Qed.

Lemma useFrame_scene_summary nf p t s :
  isEditMode p = false ->
  sceneScript p <> EmptyString ->
  slot_summary nf SceneSlot (sceneScript p) s (useFrame nf p t s).
Proof.
  intros He Hs. rewrite (useFrame_running nf p t s He).
  eapply slot_summary_quiet_l; [apply mixer_update_quiet|].
  unfold run_scripts.
  destruct (scene_part_summary nf p t (after_mixer t s) Hs) as [Hsum _].
  fold (after_mixer t s).
  destruct (scene_part nf p t (after_mixer t s)) as [s1 [[]|err]]; simpl in *.
  - eapply slot_summary_quiet_r; [exact Hsum|].
    apply models_loop_quiet. discriminate.
  - eapply slot_summary_quiet_r; [exact Hsum|].
    apply log_state_quiet. reflexivity.
Qed.

Lemma useFrame_entity_summary nf p t s i model scr :
  isEditMode p = false ->
  uploadedModels p !! i = Some model ->
  script_at p i = Some scr ->
  (scene_part nf p t (after_mixer t s)).2 = Normal tt ->
  slot_summary nf (EntitySlot i) scr s (useFrame nf p t s).
Proof.
  intros He Hm Hs Hn. rewrite (useFrame_running nf p t s He).
  eapply slot_summary_quiet_l; [apply mixer_update_quiet|].
  fold (after_mixer t s). unfold run_scripts.
  pose proof (scene_part_quiet nf p t (after_mixer t s) i) as Q0.
  destruct (scene_part nf p t (after_mixer t s)) as [s1 c]; simpl in *. subst c.
  eapply slot_summary_quiet_l; [exact Q0|].
  destruct (models_loop_split nf p t (uploadedModels p) 0 s1 i model Hm)
    as (s2 & Q1 & Q2).
  simpl in Q1, Q2.
  eapply slot_summary_quiet_l; [exact Q1|].
  eapply slot_summary_quiet_r; [|exact Q2].
  apply model_step_summary, Hs.
Qed.

Lemma useFrame_scene_ok nf p t s :
  isEditMode p = false -> scene_ok nf p s -> scene_ok nf p (useFrame nf p t s).
Proof.
  intros He Hok. rewrite (useFrame_running nf p t s He).
  destruct (scene_ok_normal nf p t s Hok) as [Hn Hok'].
  unfold run_scripts.
  destruct (scene_part nf p t (after_mixer t s)) as [s1 c]; simpl in *. subst c.
  pose proof (models_loop_quiet nf p t (uploadedModels p) 0 s1 SceneSlot) as Q.
  destruct Q as [Q _]; [discriminate|]. simpl in Q. inversion Q as [Q'].
  destruct Hok' as [H|[H|H]]; [left; exact H | right; left | right; right; exact H].
  rewrite Q'. exact H.
Qed.

Lemma useFrame_summary nf p t s sl scr :
  isEditMode p = false ->
  slot_script p sl = Some scr ->
  scene_ok nf p s ->
  slot_summary nf sl scr s (useFrame nf p t s).
Proof.
  intros He Hs Hok. destruct sl as [|i]; simpl in Hs.
  - case_bool_decide as Hne; [discriminate|]. inversion Hs; subst.
    apply useFrame_scene_summary; assumption.
  - destruct (uploadedModels p !! i) as [model|] eqn:Em; [|discriminate].
    eapply useFrame_entity_summary; eauto.
    apply scene_ok_normal, Hok.
Qed.

(** *** Counting *)

Lemma count_event_app e l1 l2 :
  count_event e (l1 ++ l2) = count_event e l1 + count_event e l2.
Proof. unfold count_event. rewrite filter_app, length_app. reflexivity. Qed.

Lemma count_event_cons_eq e l : count_event e (e :: l) = S (count_event e l).
Proof. unfold count_event. rewrite filter_cons_True by reflexivity. reflexivity. Qed.

Lemma count_event_cons_ne e x l :
  x <> e -> count_event e (x :: l) = count_event e l.
Proof. intros H. unfold count_event. rewrite filter_cons_False by exact H. reflexivity. Qed.

Lemma count_event_marks sl e evs :
  tracked sl e = true -> count_event e (marks sl evs) = count_event e evs.
Proof.
  intros Ht. induction evs as [|x l IH]; [reflexivity|].
  destruct (tracked sl x) eqn:Ex.
  - rewrite marks_cons_tracked by exact Ex.
    destruct (decide (x = e)) as [->|Hne].
    + rewrite !count_event_cons_eq, IH. reflexivity.
    + rewrite !count_event_cons_ne by exact Hne. exact IH.
  - rewrite marks_cons_untracked by exact Ex.
    rewrite count_event_cons_ne; [exact IH|]. intros ->. congruence.
Qed.

Lemma elem_of_marks sl e evs :
  tracked sl e = true -> e ∈ marks sl evs <-> e ∈ evs.
Proof.
  intros Ht. unfold marks. rewrite list_elem_of_filter. tauto.
Qed.

Ltac count_tac :=
  repeat first
    [ rewrite count_event_app
    | rewrite count_event_cons_eq
    | rewrite count_event_cons_ne by discriminate ];
  try reflexivity.

Lemma count_parse_update_marks sl m threw :
  count_event (EvParse sl) (update_marks sl m threw) = 0.
Proof. unfold update_marks. destruct (is_unit m), threw; count_tac. Qed.

Lemma count_top_update_marks sl m threw :
  count_event (EvTopLevel sl) (update_marks sl m threw) = 0.
Proof. unfold update_marks. destruct (is_unit m), threw; count_tac. Qed.

Lemma count_update_update_marks sl m threw :
  count_event (EvUpdate sl) (update_marks sl m threw)
  = if is_unit m then 1 else 0.
Proof. unfold update_marks. destruct (is_unit m), threw; count_tac. Qed.

Lemma count_parse_construct_marks nf sl scr m0 :
  count_event (EvParse sl) (construct_marks nf sl scr m0)
  = if truthy m0 then 0 else 1.
Proof. unfold construct_marks. destruct (truthy m0), (nf scr); count_tac. Qed.

Lemma count_top_construct_marks nf sl scr m0 :
  count_event (EvTopLevel sl) (construct_marks nf sl scr m0)
  = if truthy m0 then 0 else match nf scr with Some _ => 1 | None => 0 end.
Proof. unfold construct_marks. destruct (truthy m0), (nf scr); count_tac. Qed.

Lemma count_update_construct_marks nf sl scr m0 :
  count_event (EvUpdate sl) (construct_marks nf sl scr m0) = 0.
Proof. unfold construct_marks. destruct (truthy m0), (nf scr); count_tac. Qed.

Lemma tracked_parse sl : tracked sl (EvParse sl) = true.
Proof. simpl. apply bool_decide_eq_true_2. reflexivity. Qed.
Lemma tracked_top sl : tracked sl (EvTopLevel sl) = true.
Proof. simpl. apply bool_decide_eq_true_2. reflexivity. Qed.
Lemma tracked_update sl : tracked sl (EvUpdate sl) = true.
Proof. simpl. apply bool_decide_eq_true_2. reflexivity. Qed.
Lemma tracked_threw sl err : tracked sl (EvLog (ErrorExecutingUpdate sl err)) = true.
Proof. simpl. apply bool_decide_eq_true_2. reflexivity. Qed.

(** The counts a summary stands for. *)
Lemma slot_summary_counts nf sl scr s s' :
  slot_summary nf sl scr s s' ->
  exists evs,
    trace (world s') = evs ++ trace (world s) /\
    count_event (EvParse sl) evs = (if truthy (module_of s sl) then 0 else 1) /\
    count_event (EvTopLevel sl) evs
    = (if truthy (module_of s sl) then 0 else match nf scr with Some _ => 1 | None => 0 end) /\
    count_event (EvUpdate sl) evs = (if is_unit (module_of s' sl) then 1 else 0) /\
    (forall err, EvLog (ErrorExecutingUpdate sl err) ∈ evs ->
                 is_unit (module_of s' sl) = true).
Proof.
  intros (evs & threw & T & M & _). exists evs. split; [exact T|].
  rewrite <- (count_event_marks sl (EvParse sl) evs (tracked_parse sl)).
  rewrite <- (count_event_marks sl (EvTopLevel sl) evs (tracked_top sl)).
  rewrite <- (count_event_marks sl (EvUpdate sl) evs (tracked_update sl)).
  rewrite M, !count_event_app.
  rewrite count_parse_update_marks, count_top_update_marks,
    count_update_update_marks, count_parse_construct_marks,
    count_top_construct_marks, count_update_construct_marks.
  split; [reflexivity|]. split; [reflexivity|]. split; [lia|].
  intros err Hin.
  apply (elem_of_marks sl _ evs (tracked_threw sl err)) in Hin.
  rewrite M in Hin. unfold update_marks, construct_marks in Hin.
  destruct (is_unit (module_of s' sl)); [reflexivity|]. exfalso.
  simpl in Hin.
  destruct (truthy (module_of s sl)), (nf scr);
    repeat (apply elem_of_cons in Hin as [Hin|Hin]; [discriminate|]);
    apply elem_of_nil in Hin; exact Hin.
Qed.

(** ** Compile once *)

Lemma frames_extends nf p ticks s :
  extends (world s) (world (frames nf p ticks s)).
Proof.
  revert s. induction ticks as [|t rest IH]; intros s; simpl.
  - apply extends_refl.
  - eapply extends_trans; [apply useFrame_extends | apply IH].
Qed.

(** Frames over a slot whose module is cached: no parse, no top-level
    run, and one call of [update] per frame when the module is a unit. *)
Lemma frames_compiled nf p ticks s sl scr :
  isEditMode p = false ->
  slot_script p sl = Some scr ->
  scene_ok nf p s ->
  truthy (module_of s sl) = true ->
  module_of (frames nf p ticks s) sl = module_of s sl /\
  exists evs,
    trace (world (frames nf p ticks s)) = evs ++ trace (world s) /\
    count_event (EvParse sl) evs = 0 /\
    count_event (EvTopLevel sl) evs = 0 /\
    count_event (EvUpdate sl) evs
    = if is_unit (module_of s sl) then length ticks else 0.
Proof.
  intros He Hs. revert s. induction ticks as [|t rest IH]; intros s Hok Ht; simpl.
  - split; [reflexivity|]. exists []. repeat split; auto.
    destruct (is_unit _); reflexivity.
  - pose proof (useFrame_summary nf p t s sl scr He Hs Hok) as Hsum.
    assert (Hm : module_of (useFrame nf p t s) sl = module_of s sl).
    { destruct Hsum as (_ & _ & _ & _ & H1 & _). apply H1, Ht. }
    destruct (slot_summary_counts _ _ _ _ _ Hsum) as (e1 & T1 & P1 & L1 & U1 & _).
    rewrite Ht in P1, L1. rewrite Hm in U1.
    destruct (IH (useFrame nf p t s)) as (Hm2 & e2 & T2 & P2 & L2 & U2).
    { apply useFrame_scene_ok; assumption. }
    { rewrite Hm. exact Ht. }
    split; [rewrite Hm2; exact Hm|].
    exists (e2 ++ e1). split; [rewrite T2, T1, app_assoc; reflexivity|].
    rewrite !count_event_app, P1, P2, L1, L2, U1, U2, Hm.
    repeat split; auto. destruct (is_unit (module_of s sl)); lia.
Qed.

(** C2, as stated, fails: a scene script that defines [update] but does
    not return it yields [undefined]; nothing truthy is cached, and each
    of three frames parses the text and runs its top-level statements
    again. *)
Lemma C2_falsy_module_recompiled_counterexample :
  let sys := Fixtures.boot Fixtures.src_no_return [] in
  let t := Fixtures.tick 16 in
  let sys3 := frame Fixtures.toy_Function t
                (frame Fixtures.toy_Function t
                   (frame Fixtures.toy_Function t sys)) in
  sceneScript (props sys3) = Fixtures.src_no_return /\
  count_event (EvTopLevel SceneSlot)
    (events_since (world (st sys)) (world (st sys3))) = 3 /\
  count_event (EvParse SceneSlot)
    (events_since (world (st sys)) (world (st sys3))) = 3.
Proof. cbv zeta. repeat split; vm_compute; reflexivity. Qed.

(** C2 (amended): in running mode, take a slot that the driver
    dispatches, whose source text parses and whose top-level statements
    always end by returning a truthy value or by throwing, with a scene
    slot that does not abort the frame.  Over any [N >= 1] consecutive
    frames with the text unchanged, the text is parsed once and its
    top-level statements run once when the cache held no module for the
    slot, and not at all when it did; a module is cached after the last
    frame; and if it is a unit, [update] was called once per frame. *)
Theorem C2_compile_once nf p ticks s sl scr body :
  isEditMode p = false ->
  ticks <> [] ->
  slot_script p sl = Some scr ->
  nf scr = Some body ->
  (forall args, yields_unit (body args)) ->
  scene_ok nf p s ->
  let s' := frames nf p ticks s in
  let evs := events_since (world s) (world s') in
  let compiles := if truthy (module_of s sl) then 0 else 1 in
  count_event (EvTopLevel sl) evs = compiles /\
  count_event (EvParse sl) evs = compiles /\
  truthy (module_of s' sl) = true /\
  (is_unit (module_of s' sl) = true ->
   count_event (EvUpdate sl) evs = length ticks).
Proof.
  intros He Hne Hs Hb Hy Hok. cbv zeta.
  destruct (truthy (module_of s sl)) eqn:Hf.
  - destruct (frames_compiled nf p ticks s sl scr He Hs Hok Hf)
      as (Hm & e & T & P & L & U).
    rewrite (events_since_app _ _ _ T), Hm, P, L, U.
    split; [reflexivity|]. split; [reflexivity|]. split; [exact Hf|].
    intros Hu. rewrite Hu. reflexivity.
  - destruct ticks as [|t rest]; [contradiction|]. simpl.
    pose proof (useFrame_summary nf p t s sl scr He Hs Hok) as Hsum.
    assert (Ht : truthy (module_of (useFrame nf p t s) sl) = true).
    { destruct Hsum as (_ & _ & _ & _ & _ & _ & H3). apply (H3 Hf body Hb Hy). }
    destruct (slot_summary_counts _ _ _ _ _ Hsum) as (e1 & T1 & P1 & L1 & U1 & _).
    rewrite Hf in P1, L1. rewrite Hb in L1.
    destruct (frames_compiled nf p rest (useFrame nf p t s) sl scr He Hs)
      as (Hm & e2 & T2 & P2 & L2 & U2);
      [apply useFrame_scene_ok; assumption|exact Ht|].
    rewrite (events_since_app (world s) _ (e2 ++ e1))
      by (rewrite T2, T1, app_assoc; reflexivity).
    rewrite !count_event_app, P1, P2, L1, L2, U1, U2, Hm.
    split; [reflexivity|]. split; [reflexivity|]. split; [exact Ht|].
    intros Hu. rewrite Hu. lia.
Qed.

(** The scenario of the counter: an entity script increments
    [model.userData.counter]; after ten frames the counter is 10, the
    script body has run once, the text was parsed once and [update] was
    called ten times. *)
Lemma C2_counter_witness :
  let sys := Fixtures.boot EmptyString [Src Fixtures.src_counter] in
  let ticks := replicate 10 (Fixtures.tick 16) in
  let s' := frames Fixtures.toy_Function (props sys) ticks (st sys) in
  let evs := events_since (world (st sys)) (world s') in
  (count_event (EvTopLevel (EntitySlot 0)) evs = 1 /\
   count_event (EvParse (EntitySlot 0)) evs = 1 /\
   truthy (module_of s' (EntitySlot 0)) = true /\
   (is_unit (module_of s' (EntitySlot 0)) = true ->
    count_event (EvUpdate (EntitySlot 0)) evs = length ticks)) /\
  is_unit (module_of s' (EntitySlot 0)) = true /\
  (objects (world s') !! Fixtures.robot_ref ≫= fun o => userData o !! "counter")
  = Some (VNum 10).
Proof.
  cbv zeta. split; [|split; vm_compute; reflexivity].
  apply (C2_compile_once Fixtures.toy_Function
           (props (Fixtures.boot EmptyString [Src Fixtures.src_counter]))
           (replicate 10 (Fixtures.tick 16))
           (st (Fixtures.boot EmptyString [Src Fixtures.src_counter]))
           (EntitySlot 0) Fixtures.src_counter
           (Fixtures.returns Fixtures.counter_update)).
  - reflexivity.
  - discriminate.
  - vm_compute. reflexivity.
  - vm_compute. reflexivity.
  - intros args. apply yields_ret. reflexivity.
  - left. reflexivity.
Defined.

(** ** A scene script that does not parse *)

Lemma useFrame_syntax_error nf p t s :
  isEditMode p = false ->
  sceneScript p <> EmptyString ->
  nf (sceneScript p) = None ->
  truthy (module (sceneScriptRef s)) = false ->
  useFrame nf p t s
  = log_state (ErrorInScriptExecution SyntaxError)
      (set_world (emit (EvParse SceneSlot)
                    (mixer_update (tick_delta t) (world s))) s).
Proof.
  intros He Hs Hn Hf. unfold useFrame, run_scripts, scene_part, scene_construct.
  rewrite He, bool_decide_eq_false_2 by exact Hs. simpl.
  rewrite Hf, Hn. reflexivity.
Qed.

(** C1, where the code departs from it: the scene script does not parse.
    [new Function] throws outside the [try] that would install the no-op
    unit, so after any number of frames the cache entry is what it was
    (its module still falsy), every frame has evaluated [new Function]
    again and logged the error again from the outermost [catch], and no
    entity slot was touched. *)
Theorem C1_syntax_error_retried_every_frame nf p ticks s :
  isEditMode p = false ->
  sceneScript p <> EmptyString ->
  nf (sceneScript p) = None ->
  truthy (module (sceneScriptRef s)) = false ->
  let s' := frames nf p ticks s in
  let evs := events_since (world s) (world s') in
  sceneScriptRef s' = sceneScriptRef s /\
  modelScriptsRef s' = modelScriptsRef s /\
  count_event (EvParse SceneSlot) evs = length ticks /\
  count_event (EvLog (ErrorInScriptExecution SyntaxError)) evs = length ticks /\
  forall sl, count_event (EvUpdate sl) evs = 0.
Proof.
  intros He Hs Hn. cbv zeta. revert s.
  induction ticks as [|t rest IH]; intros s Hf.
  - simpl. rewrite (events_since_same (world s) (world s)) by reflexivity.
    repeat split; reflexivity.
  - simpl frames. rewrite (useFrame_syntax_error nf p t s He Hs Hn Hf).
    set (s1 := log_state _ _).
    destruct (IH s1 Hf) as (H1 & H2 & H3 & H4 & H5).
    destruct (frames_extends nf p rest s1) as [evs T].
    rewrite (events_since_app _ _ _ T) in H3, H4, H5.
    assert (T1 : exists e1, trace (world s1) = e1 ++ trace (world s) /\
                   count_event (EvParse SceneSlot) e1 = 1 /\
                   count_event (EvLog (ErrorInScriptExecution SyntaxError)) e1 = 1 /\
                   forall sl, count_event (EvUpdate sl) e1 = 0).
    { unfold s1, mixer_update. simpl. destruct (mixer (world s)).
      - eexists [_; _; _]. split; [reflexivity|].
        repeat split; try intros sl; count_tac.
      - eexists [_; _]. split; [reflexivity|].
        repeat split; try intros sl; count_tac. }
    destruct T1 as (e1 & T1 & P1 & L1 & U1).
    rewrite (events_since_app (world s) _ (evs ++ e1))
      by (rewrite T, T1, app_assoc; reflexivity).
    split; [rewrite H1; reflexivity|]. split; [rewrite H2; reflexivity|].
    rewrite !count_event_app, H3, H4, P1, L1. simpl length.
    split; [lia|]. split; [lia|].
    intros sl. rewrite count_event_app, H5, U1. reflexivity.
Qed.

Lemma C1_syntax_error_witness :
  let sys := Fixtures.boot Fixtures.src_syntax_error [Src Fixtures.src_counter] in
  let ticks := replicate 3 (Fixtures.tick 16) in
  let s' := frames Fixtures.toy_Function (props sys) ticks (st sys) in
  let evs := events_since (world (st sys)) (world s') in
  module (sceneScriptRef (st sys)) = JNull /\
  sceneScriptRef s' = sceneScriptRef (st sys) /\
  modelScriptsRef s' = modelScriptsRef (st sys) /\
  count_event (EvParse SceneSlot) evs = length ticks /\
  count_event (EvLog (ErrorInScriptExecution SyntaxError)) evs = length ticks /\
  forall sl, count_event (EvUpdate sl) evs = 0.
Proof.
  cbv zeta. split; [reflexivity|].
  apply (C1_syntax_error_retried_every_frame Fixtures.toy_Function
           (props (Fixtures.boot Fixtures.src_syntax_error
                     [Src Fixtures.src_counter]))
           (replicate 3 (Fixtures.tick 16))
           (st (Fixtures.boot Fixtures.src_syntax_error
                  [Src Fixtures.src_counter]))).
  - reflexivity.
  - discriminate.
  - vm_compute. reflexivity.
  - reflexivity.
Defined.

(** The same for an entity slot, on the model of the robot: three frames
    over an entity script that does not parse leave its cache entry with
    a null module, evaluate [new Function] three times and log three
    errors from the per-model [catch]. *)
Lemma entity_syntax_error_example :
  let sys := Fixtures.boot EmptyString [Src Fixtures.src_syntax_error] in
  let s' := frames Fixtures.toy_Function (props sys)
              (replicate 3 (Fixtures.tick 16)) (st sys) in
  let evs := events_since (world (st sys)) (world s') in
  model_module s' 0 = JNull /\
  count_event (EvParse (EntitySlot 0)) evs = 3 /\
  count_event (EvLog (ErrorInModelScript 0 SyntaxError)) evs = 3.
Proof. cbv zeta. repeat split; vm_compute; reflexivity. Qed.

(** The part of C1 the code does implement: a script whose top-level
    statements throw gets the no-op unit, logged once from inside the
    compiled function, and is not built again. *)
Lemma toplevel_throw_example :
  let sys := Fixtures.boot Fixtures.src_throw_top [] in
  let s' := frames Fixtures.toy_Function (props sys)
              (replicate 3 (Fixtures.tick 16)) (st sys) in
  let evs := events_since (world (st sys)) (world s') in
  module (sceneScriptRef s') = noop_module /\
  count_event (EvTopLevel SceneSlot) evs = 1 /\
  count_event (EvParse SceneSlot) evs = 1 /\
  count_event (EvLog (ErrorInScript SceneSlot (ScriptError "boom"))) evs = 1 /\
  count_event (EvUpdate SceneSlot) evs = 3.
Proof. cbv zeta. repeat split; vm_compute; reflexivity. Qed.

(** ** Isolation of a throwing [update] *)

Lemma silent_not_in sl w w' e :
  silent sl w w' -> about sl e = true -> ~ (e ∈ events_since w w').
Proof.
  intros (evs & T & F) Ha Hin.
  rewrite (events_since_app _ _ _ T) in Hin.
  rewrite forallb_forall in F.
  apply list_elem_of_In in Hin. specialize (F e Hin).
  rewrite Ha in F. discriminate.
Qed.

Lemma useFrame_unscripted nf p t s sl :
  isEditMode p = false ->
  slot_script p sl = None ->
  quiet sl s (useFrame nf p t s).
Proof.
  intros He Hs. rewrite (useFrame_running nf p t s He).
  eapply quiet_trans; [apply mixer_update_quiet|].
  fold (after_mixer t s). unfold run_scripts.
  destruct sl as [|i]; simpl in Hs.
  - case_bool_decide as Hempty; [|discriminate].
    rewrite (scene_part_empty nf p t _ Hempty).
    apply models_loop_quiet. discriminate.
  - pose proof (scene_part_quiet nf p t (after_mixer t s) i) as Q0.
    destruct (scene_part nf p t (after_mixer t s)) as [s1 [[]|err]]; simpl in *.
    2: { eapply quiet_trans; [exact Q0 | apply log_state_quiet; reflexivity]. }
    eapply quiet_trans; [exact Q0|].
    destruct (uploadedModels p !! i) as [model|] eqn:Em.
    + destruct (models_loop_split nf p t (uploadedModels p) 0 s1 i model Em)
        as (s2 & Q1 & Q2).
      simpl in Q1, Q2. unfold model_step in Q2. rewrite Hs in Q2.
      eapply quiet_trans; eauto.
    + apply models_loop_quiet. intros j Hj Heq.
      apply lookup_ge_None_1 in Em. assert (i = j) by congruence. lia.
Qed.

(** What one running frame does for a dispatched slot, read off the
    events of the frame. *)
Lemma useFrame_slot nf p t s sl scr :
  isEditMode p = false ->
  slot_script p sl = Some scr ->
  scene_ok nf p s ->
  let s' := useFrame nf p t s in
  let evs := events_since (world s) (world s') in
  count_event (EvParse sl) evs = (if truthy (module_of s sl) then 0 else 1) /\
  count_event (EvTopLevel sl) evs
  = (if truthy (module_of s sl) then 0
     else match nf scr with Some _ => 1 | None => 0 end) /\
  (is_unit (module_of s' sl) = true -> EvUpdate sl ∈ evs) /\
  (forall err, EvLog (ErrorExecutingUpdate sl err) ∈ evs ->
               is_unit (module_of s' sl) = true) /\
  (truthy (module_of s sl) = true -> module_of s' sl = module_of s sl).
Proof.
  intros He Hs Hok. cbv zeta.
  pose proof (useFrame_summary nf p t s sl scr He Hs Hok) as Hsum.
  destruct (slot_summary_counts _ _ _ _ _ Hsum) as (evs & T & P & L & U & E).
  rewrite (events_since_app _ _ _ T).
  split; [exact P|]. split; [exact L|]. split.
  - intros Hu. rewrite Hu in U.
    unfold count_event in U.
    destruct (filter (fun x => x = EvUpdate sl) evs) as [|x l] eqn:Ef;
      [discriminate|].
    assert (Hx : x ∈ filter (fun x => x = EvUpdate sl) evs)
      by (rewrite Ef; apply list_elem_of_here).
    apply list_elem_of_filter in Hx as [-> Hx]. exact Hx.
  - split; [exact E|].
    destruct Hsum as (_ & _ & _ & _ & H1 & _). exact H1.
Qed.

Lemma is_unit_truthy m : is_unit m = true -> truthy m = true.
Proof. destruct m as [| | | |[u|]]; simpl; auto; discriminate. Qed.

(** A frame whose scene part throws leaves every entity slot alone. *)
Lemma useFrame_scene_abort nf p t s i err :
  isEditMode p = false ->
  (scene_part nf p t (after_mixer t s)).2 = Abrupt err ->
  quiet (EntitySlot i) s (useFrame nf p t s).
Proof.
  intros He Ha. rewrite (useFrame_running nf p t s He).
  eapply quiet_trans; [apply mixer_update_quiet|].
  fold (after_mixer t s). unfold run_scripts.
  pose proof (scene_part_quiet nf p t (after_mixer t s) i) as Q0.
  destruct (scene_part nf p t (after_mixer t s)) as [s1 [[]|e]]; simpl in *;
    [discriminate|].
  eapply quiet_trans; [exact Q0 | apply log_state_quiet; reflexivity].
Qed.

(** A frame leaves a slot alone or serves it. *)
Lemma useFrame_quiet_or_summary nf p t s sl :
  quiet sl s (useFrame nf p t s) \/
  exists scr, slot_script p sl = Some scr /\
              slot_summary nf sl scr s (useFrame nf p t s).
Proof.
  destruct (isEditMode p) eqn:He.
  { left. rewrite (useFrame_edit nf p t s He). apply mixer_update_quiet. }
  destruct (slot_script p sl) as [scr|] eqn:Hs.
  2: { left. apply useFrame_unscripted; assumption. }
  destruct sl as [|i]; simpl in Hs.
  - right. exists scr. split; [reflexivity|].
    case_bool_decide as Hne; [discriminate|]. inversion Hs; subst.
    apply useFrame_scene_summary; assumption.
  - destruct (uploadedModels p !! i) as [model|] eqn:Em; [|discriminate].
    destruct (scene_part nf p t (after_mixer t s)).2 as [[]|err] eqn:En.
    + right. exists scr. split; [reflexivity|].
      eapply useFrame_entity_summary; eauto.
    + left. eapply useFrame_scene_abort; eauto.
Qed.

Lemma quiet_counts sl s s' :
  quiet sl s s' ->
  exists evs,
    trace (world s') = evs ++ trace (world s) /\
    forall e, about sl e = true -> count_event e evs = 0.
Proof.
  intros [_ (evs & T & F)]. exists evs. split; [exact T|].
  intros e He. unfold count_event.
  destruct (filter (fun x => x = e) evs) as [|x l] eqn:Ef; [reflexivity|].
  exfalso.
  assert (Hx : x ∈ filter (fun x => x = e) evs)
    by (rewrite Ef; apply list_elem_of_here).
  apply list_elem_of_filter in Hx as [-> Hx].
  rewrite forallb_forall in F. apply list_elem_of_In in Hx.
  specialize (F e Hx). rewrite He in F. discriminate.
Qed.

Lemma about_parse sl : about sl (EvParse sl) = true.
Proof. simpl. apply bool_decide_eq_true_2. reflexivity. Qed.
Lemma about_top sl : about sl (EvTopLevel sl) = true.
Proof. simpl. apply bool_decide_eq_true_2. reflexivity. Qed.
Lemma about_update sl : about sl (EvUpdate sl) = true.
Proof. simpl. apply bool_decide_eq_true_2. reflexivity. Qed.

(** A slot whose module is cached keeps it over a frame, in either
    mode and whatever the scene part does, and is not compiled. *)
Lemma useFrame_cached nf p t s sl :
  truthy (module_of s sl) = true ->
  module_of (useFrame nf p t s) sl = module_of s sl /\
  exists evs,
    trace (world (useFrame nf p t s)) = evs ++ trace (world s) /\
    count_event (EvParse sl) evs = 0 /\
    count_event (EvTopLevel sl) evs = 0.
Proof.
  intros Ht.
  destruct (useFrame_quiet_or_summary nf p t s sl) as [Q|(scr & Hs & Hsum)].
  - split; [apply quiet_module, Q|].
    destruct (quiet_counts _ _ _ Q) as (evs & T & C). exists evs.
    split; [exact T|]. split; apply C; [apply about_parse | apply about_top].
  - split; [destruct Hsum as (_ & _ & _ & _ & H1 & _); apply H1, Ht|].
    destruct (slot_summary_counts _ _ _ _ _ Hsum) as (evs & T & P & L & _).
    rewrite Ht in P, L. exists evs. auto.
Qed.

Lemma frames_cached nf p ticks s sl :
  truthy (module_of s sl) = true ->
  module_of (frames nf p ticks s) sl = module_of s sl /\
  exists evs,
    trace (world (frames nf p ticks s)) = evs ++ trace (world s) /\
    count_event (EvParse sl) evs = 0 /\
    count_event (EvTopLevel sl) evs = 0.
Proof.
  revert s. induction ticks as [|t rest IH]; intros s Ht; simpl.
  - split; [reflexivity|]. exists []. auto.
  - destruct (useFrame_cached nf p t s sl Ht) as (Hm & e1 & T1 & P1 & L1).
    destruct (IH (useFrame nf p t s)) as (Hm2 & e2 & T2 & P2 & L2);
      [rewrite Hm; exact Ht|].
    split; [rewrite Hm2; exact Hm|].
    exists (e2 ++ e1). split; [rewrite T2, T1, app_assoc; reflexivity|].
    rewrite !count_event_app, P1, P2, L1, L2. auto.
Qed.

Lemma useFrame_summary_when nf p t s sl scr :
  isEditMode p = false ->
  slot_script p sl = Some scr ->
  (scene_part nf p t (after_mixer t s)).2 = Normal tt ->
  slot_summary nf sl scr s (useFrame nf p t s).
Proof.
  intros He Hs Hn. destruct sl as [|i]; simpl in Hs.
  - case_bool_decide as Hne; [discriminate|]. inversion Hs; subst.
    apply useFrame_scene_summary; assumption.
  - destruct (uploadedModels p !! i) as [model|] eqn:Em; [|discriminate].
    eapply useFrame_entity_summary; eauto.
Qed.

(** What a running frame whose scene part completes does for a
    dispatched slot, read off the events of the frame. *)
Lemma useFrame_slot_when nf p t s sl scr :
  isEditMode p = false ->
  slot_script p sl = Some scr ->
  (scene_part nf p t (after_mixer t s)).2 = Normal tt ->
  let s' := useFrame nf p t s in
  let evs := events_since (world s) (world s') in
  count_event (EvParse sl) evs = (if truthy (module_of s sl) then 0 else 1) /\
  count_event (EvTopLevel sl) evs
  = (if truthy (module_of s sl) then 0
     else match nf scr with Some _ => 1 | None => 0 end) /\
  count_event (EvUpdate sl) evs = (if is_unit (module_of s' sl) then 1 else 0) /\
  (forall err, EvLog (ErrorExecutingUpdate sl err) ∈ evs ->
               is_unit (module_of s' sl) = true) /\
  (truthy (module_of s sl) = true -> module_of s' sl = module_of s sl).
Proof.
  intros He Hs Hn. cbv zeta.
  pose proof (useFrame_summary_when nf p t s sl scr He Hs Hn) as Hsum.
  destruct (slot_summary_counts _ _ _ _ _ Hsum) as (evs & T & P & L & U & E).
  rewrite (events_since_app _ _ _ T).
  split; [exact P|]. split; [exact L|]. split; [exact U|]. split; [exact E|].
  destruct Hsum as (_ & _ & _ & _ & H1 & _). exact H1.
Qed.

Lemma count_event_pos e evs : 0 < count_event e evs -> e ∈ evs.
Proof.
  unfold count_event. intros H.
  destruct (filter (fun x => x = e) evs) as [|x l] eqn:Ef; [simpl in H; lia|].
  assert (Hx : x ∈ filter (fun x => x = e) evs)
    by (rewrite Ef; apply list_elem_of_here).
  apply list_elem_of_filter in Hx as [-> Hx]. exact Hx.
Qed.

(** The step of a slot that holds a unit calls the unit's [update] on
    the unit's closure and files what the call leaves of it. *)
Lemma model_step_unit nf p t i model s scr e u :
  script_at p i = Some scr ->
  array_get (modelScriptsRef s) i = Some e ->
  module e = JObject (Some u) ->
  array_get (modelScriptsRef (model_step nf p t i model s)) i
  = Some {| script := script e; module := module e;
            closure := (run p (u (model_args t model))
                          (closure e,
                           emit (EvUpdate (EntitySlot i)) (world s))).1.1 |}.
Proof.
  intros Hs He Hm. unfold model_step. rewrite Hs.
  unfold model_construct, model_module. rewrite He, Hm. simpl.
  unfold model_update. rewrite He, Hm.
  destruct (run p (u (model_args t model)) _) as [[env w] c]. simpl.
  apply array_get_set_eq.
Qed.

Lemma useFrame_unit_closure nf p t s a scr model e u :
  isEditMode p = false ->
  (scene_part nf p t (after_mixer t s)).2 = Normal tt ->
  script_at p a = Some scr ->
  uploadedModels p !! a = Some model ->
  array_get (modelScriptsRef s) a = Some e ->
  module e = JObject (Some u) ->
  exists w,
    array_get (modelScriptsRef (useFrame nf p t s)) a
    = Some {| script := script e; module := module e;
              closure := (run p (u (model_args t model))
                            (closure e,
                             emit (EvUpdate (EntitySlot a)) w)).1.1 |}.
Proof.
  intros He Hn Hs Hm Hen Hu. rewrite (useFrame_running nf p t s He).
  unfold run_scripts.
  pose proof (scene_part_models nf p t (after_mixer t s)) as Hmods.
  destruct (scene_part nf p t (after_mixer t s)) as [s1 c]. simpl in *. subst c.
  destruct (models_loop_split nf p t (uploadedModels p) 0 s1 a model Hm)
    as (s2 & [Q1 _] & [Q2 _]).
  simpl in Q1, Q2. exists (world s2). rewrite Q2.
  apply (model_step_unit nf p t a model s2 scr e u Hs); [|exact Hu].
  rewrite Q1, Hmods. exact Hen.
Qed.

(** C3: in running mode, let the [update] of entity slot [a] throw
    during frame K.  Then the scene part of frame K completed, and in
    frame K the [update] of every dispatched slot that holds a unit, the
    scene slot and every other entity slot, was called.  Slot [a] keeps
    its unit through frame K+1, in which its text is not parsed and its
    top-level statements are not run.  Whether frame K+1 calls that
    [update] again depends on the scene part of frame K+1, which comes
    first and shares the outer [try] with the loop over the entities:
    when it completes, [update] is called once, on the unit and the
    closure that frame K left; when it throws, no entity's [update] is
    called in frame K+1.  It completes whenever there is no scene
    script, a truthy scene module is cached, or the scene text is a
    well-formed script. *)
Theorem C3_throwing_update_is_isolated nf p t t' s a err :
  isEditMode p = false ->
  EvLog (ErrorExecutingUpdate (EntitySlot a) err)
    ∈ events_since (world s) (world (useFrame nf p t s)) ->
  let s1 := useFrame nf p t s in
  let s2 := useFrame nf p t' s1 in
  let evK := events_since (world s) (world s1) in
  let evK1 := events_since (world s1) (world s2) in
  let scene_K1 := (scene_part nf p t' (after_mixer t' s1)).2 in
  (scene_part nf p t (after_mixer t s)).2 = Normal tt /\
  (forall sl scr,
     slot_script p sl = Some scr ->
     is_unit (module_of s sl) = true \/ is_unit (module_of s1 sl) = true ->
     EvUpdate sl ∈ evK) /\
  is_unit (model_module s1 a) = true /\
  (truthy (model_module s a) = true -> model_module s1 a = model_module s a) /\
  model_module s2 a = model_module s1 a /\
  count_event (EvTopLevel (EntitySlot a)) evK1 = 0 /\
  count_event (EvParse (EntitySlot a)) evK1 = 0 /\
  (scene_K1 = Normal tt ->
   EvUpdate (EntitySlot a) ∈ evK1 /\
   count_event (EvUpdate (EntitySlot a)) evK1 = 1 /\
   exists e1 u model w,
     array_get (modelScriptsRef s1) a = Some e1 /\
     module e1 = JObject (Some u) /\
     uploadedModels p !! a = Some model /\
     array_get (modelScriptsRef s2) a
     = Some {| script := script e1; module := module e1;
               closure := (run p (u (model_args t' model))
                             (closure e1,
                              emit (EvUpdate (EntitySlot a)) w)).1.1 |}) /\
  (forall e, scene_K1 = Abrupt e ->
             forall i, count_event (EvUpdate (EntitySlot i)) evK1 = 0) /\
  (scene_ok nf p s \/ scene_ok nf p s1 -> scene_K1 = Normal tt).
Proof.
  intros He Hthrew. cbv zeta.
  assert (Hn : (scene_part nf p t (after_mixer t s)).2 = Normal tt).
  { destruct (scene_part nf p t (after_mixer t s)).2 as [[]|e] eqn:En;
      [reflexivity|]. exfalso.
    destruct (useFrame_scene_abort nf p t s a e He En) as [_ Hq].
    apply (silent_not_in _ _ _ _ Hq) in Hthrew; [exact Hthrew|].
    simpl. apply bool_decide_eq_true_2. reflexivity. }
  split; [exact Hn|]. split.
  { intros sl scr Hs Hu.
    destruct (useFrame_slot_when nf p t s sl scr He Hs Hn) as (_ & _ & U & _ & M).
    apply count_event_pos. rewrite U.
    destruct Hu as [Hu|Hu]; [rewrite (M (is_unit_truthy _ Hu))|];
      rewrite Hu; lia. }
  destruct (slot_script p (EntitySlot a)) as [scr|] eqn:Hs.
  2: { exfalso.
       destruct (useFrame_unscripted nf p t s (EntitySlot a) He Hs) as [_ Hq].
       apply (silent_not_in _ _ _ _ Hq) in Hthrew; [exact Hthrew|].
       simpl. apply bool_decide_eq_true_2. reflexivity. }
  destruct (useFrame_slot_when nf p t s (EntitySlot a) scr He Hs Hn)
    as (_ & _ & _ & E & M).
  pose proof (E err Hthrew) as Hu1. simpl in Hu1, M.
  pose proof (is_unit_truthy _ Hu1) as Ht1.
  destruct (useFrame_cached nf p t' (useFrame nf p t s) (EntitySlot a) Ht1)
    as (M2 & evs & T & P & L).
  simpl in M2. rewrite (events_since_app _ _ _ T).
  split; [exact Hu1|]. split; [exact M|]. split; [exact M2|].
  split; [exact L|]. split; [exact P|]. split; [|split].
  - intros Hn1.
    destruct (useFrame_slot_when nf p t' (useFrame nf p t s) (EntitySlot a) scr
                He Hs Hn1) as (_ & _ & U2 & _ & _).
    simpl in U2. rewrite M2, Hu1 in U2.
    rewrite (events_since_app _ _ _ T) in U2.
    split; [apply count_event_pos; rewrite U2; lia|]. split; [exact U2|].
    simpl in Hs.
    destruct (uploadedModels p !! a) as [model|] eqn:Em; [|discriminate].
    unfold model_module in Hu1.
    destruct (array_get (modelScriptsRef (useFrame nf p t s)) a) as [e1|] eqn:Ee;
      [|discriminate].
    destruct (module e1) as [| | | |[u|]] eqn:Eu; try discriminate.
    destruct (useFrame_unit_closure nf p t' (useFrame nf p t s) a scr model e1 u
                He Hn1 Hs Em Ee Eu) as [w Hw].
    exists e1, u, model, w. repeat split; auto.
  - intros e Ha i.
    destruct (quiet_counts _ _ _
                (useFrame_scene_abort nf p t' (useFrame nf p t s) i e He Ha))
      as (evs' & T' & C).
    assert (evs' = evs)
      by (eapply app_inv_tail; rewrite <- T, <- T'; reflexivity).
    subst evs'. apply C, about_update.
  - intros [Hok|Hok]; apply scene_ok_normal; [|exact Hok].
    apply useFrame_scene_ok; assumption.
Qed.

(** The scenario of the throwing entity: the robot's [update] throws on
    every call, the crate counts its frames, and a scene script draws the
    HUD.  In each of two frames all three [update]s are called, and the
    second frame compiles nothing.  Under the scene script that returns
    nothing on its first run and [null] from then on, the robot's
    [update] throws in the first frame and is not called in the second,
    although its unit is still cached. *)
Lemma C3_isolation_witness :
  let nf := Fixtures.toy_Function in
  let sys := Fixtures.isolation_sys in
  let s1 := useFrame nf (props sys) (Fixtures.tick 16) (st sys) in
  let s2 := useFrame nf (props sys) (Fixtures.tick 17) s1 in
  let evK := events_since (world (st sys)) (world s1) in
  let evK1 := events_since (world s1) (world s2) in
  let nf' := Samples.toy_Function in
  let sys' := Samples.armed_sys in
  let s1' := useFrame nf' (props sys') (Fixtures.tick 16) (st sys') in
  let s2' := useFrame nf' (props sys') (Fixtures.tick 17) s1' in
  let evK' := events_since (world (st sys')) (world s1') in
  let evK1' := events_since (world s1') (world s2') in
  (EvLog (ErrorExecutingUpdate (EntitySlot 0) (ScriptError "boom")) ∈ evK /\
   EvUpdate SceneSlot ∈ evK /\
   EvUpdate (EntitySlot 1) ∈ evK /\
   model_module s2 0 = model_module s1 0 /\
   EvUpdate (EntitySlot 0) ∈ evK1 /\
   count_event (EvTopLevel (EntitySlot 0)) evK1 = 0 /\
   count_event (EvParse (EntitySlot 0)) evK1 = 0) /\
  (EvLog (ErrorExecutingUpdate (EntitySlot 0) (ScriptError "boom")) ∈ evK' /\
   EvUpdate (EntitySlot 1) ∈ evK' /\
   is_unit (model_module s1' 0) = true /\
   model_module s2' 0 = model_module s1' 0 /\
   count_event (EvUpdate (EntitySlot 0)) evK1' = 0 /\
   count_event (EvUpdate (EntitySlot 1)) evK1' = 0 /\
   EvLog (ErrorInScriptExecution TypeError) ∈ evK1').
Proof.
  cbv zeta. split.
  - assert (Hthrew :
      EvLog (ErrorExecutingUpdate (EntitySlot 0) (ScriptError "boom"))
        ∈ events_since (world (st Fixtures.isolation_sys))
            (world (useFrame Fixtures.toy_Function
                      (props Fixtures.isolation_sys) (Fixtures.tick 16)
                      (st Fixtures.isolation_sys)))).
    { vm_compute. apply list_elem_of_In. simpl. tauto. }
    split; [exact Hthrew|].
    destruct (C3_throwing_update_is_isolated Fixtures.toy_Function
                (props Fixtures.isolation_sys)
                (Fixtures.tick 16) (Fixtures.tick 17)
                (st Fixtures.isolation_sys) 0 (ScriptError "boom")
                eq_refl Hthrew)
      as (_ & H1 & _ & _ & H5 & H6 & H7 & H8 & _).
    split; [apply (H1 SceneSlot Fixtures.src_hud); [|left];
            vm_compute; reflexivity|].
    split; [apply (H1 (EntitySlot 1) Fixtures.src_counter); [|left];
            vm_compute; reflexivity|].
    split; [exact H5|]. split; [apply H8; vm_compute; reflexivity|].
    split; assumption.
  - assert (Hthrew :
      EvLog (ErrorExecutingUpdate (EntitySlot 0) (ScriptError "boom"))
        ∈ events_since (world (st Samples.armed_sys))
            (world (useFrame Samples.toy_Function
                      (props Samples.armed_sys) (Fixtures.tick 16)
                      (st Samples.armed_sys)))).
    { vm_compute. apply list_elem_of_In. simpl. tauto. }
    split; [exact Hthrew|].
    destruct (C3_throwing_update_is_isolated Samples.toy_Function
                (props Samples.armed_sys)
                (Fixtures.tick 16) (Fixtures.tick 17)
                (st Samples.armed_sys) 0 (ScriptError "boom")
                eq_refl Hthrew)
      as (_ & H1 & H3 & _ & H5 & _ & _ & _ & H9 & _).
    split; [apply (H1 (EntitySlot 1) Fixtures.src_counter); [|right];
            vm_compute; reflexivity|].
    split; [exact H3|]. split; [exact H5|].
    split; [apply (H9 TypeError); vm_compute; reflexivity|].
    split; [apply (H9 TypeError); vm_compute; reflexivity|].
    vm_compute. apply list_elem_of_In. simpl. tauto.
Defined.

(** ** The later slot wins the mixer *)
















Lemma player_unit_truthy m a v : player_unit m a v -> truthy v = true.
Proof. intros (u & -> & _). reflexivity. Qed.










(** * Further properties of the component *)

(** ** Looking models up *)

Lemma indexOf_Some x l k :
  indexOf x l = Some k <->
  l !! k = Some x /\ forall j, j < k -> l !! j <> Some x.
Proof.
  revert k. induction l as [|y rest IH]; intros k; simpl.
  - split; [discriminate | intros [H _]; discriminate].
  - case_bool_decide as E.
    + subst y. split.
      * intros H. inversion H; subst. split; [reflexivity|]. intros j Hj. lia.
      * intros [H1 H2]. destruct k as [|k]; [reflexivity|].
        exfalso. apply (H2 0); [lia | reflexivity].
    + rewrite fmap_Some. split.
      * intros (k' & Hk & ->). apply IH in Hk as [H1 H2].
        split; [exact H1|]. intros [|j] Hj; simpl; [congruence|].
        apply H2. lia.
      * intros [H1 H2]. destruct k as [|k]; simpl in H1; [congruence|].
        exists k. split; [|reflexivity]. apply IH.
        split; [exact H1|]. intros j Hj. apply (H2 (S j)). lia.
Qed.

Lemma indexOf_None x l : indexOf x l = None <-> x ∉ l.
Proof.
  induction l as [|y rest IH]; simpl.
  - split; [intros _; apply not_elem_of_nil | reflexivity].
  - case_bool_decide as E.
    + subst. split; [discriminate|]. intros H. exfalso. apply H. left.
    + rewrite fmap_None, IH, not_elem_of_cons. tauto.
Qed.

(** X1: [getModelByName] answers with the model at the first index whose
    registered name is the one asked for, with [undefined] when the
    models array has nothing at that index, and with [null] exactly when
    no model is registered under the name. *)
Theorem X1_getModelByName_first_match p modelName :
  match getModelByName p modelName with
  | Obj r =>
      exists i, modelNames p !! i = Some modelName /\
                uploadedModels p !! i = Some r /\
                forall j, j < i -> modelNames p !! j <> Some modelName
  | Undefined =>
      exists i, modelNames p !! i = Some modelName /\
                uploadedModels p !! i = None /\
                forall j, j < i -> modelNames p !! j <> Some modelName
  | Null => modelName ∉ modelNames p
  end.
Proof.
  unfold getModelByName.
  destruct (indexOf modelName (modelNames p)) as [i|] eqn:Ei.
  - apply indexOf_Some in Ei as [H1 H2].
    destruct (uploadedModels p !! i) as [r|] eqn:Er; exists i; auto.
  - apply indexOf_None, Ei.
Qed.

(** ** Listing and playing clips *)

Lemma find_clip_elem c clips :
  c ∈ clips -> exists c', find_clip (clip_name c) clips = Some c'.
Proof.
  intros Hc. unfold find_clip.
  destruct (filter (fun x => clip_name x = clip_name c) clips) as [|c' l] eqn:E.
  - exfalso.
    assert (H : c ∈ filter (fun x => clip_name x = clip_name c) clips)
      by (apply list_elem_of_filter; auto).
    rewrite E in H. apply elem_of_nil in H. exact H.
  - eauto.
Qed.

(** X2: with a mixer, and no active model answering to the name, every
    clip that [getAnimationsForModel(name)] lists can be played by
    [playAnimation(name, clip.name)]: the call returns normally and
    leaves exactly one action running, for a clip of that name. *)
Theorem X2_listed_clip_is_playable p w modelName c mx :
  mixer w = Some mx ->
  active_named p modelName w = None ->
  c ∈ getAnimationsForModel p modelName w ->
  (playAnimation p modelName (clip_name c) w).2 = Normal tt /\
  exists act,
    playing (playAnimation p modelName (clip_name c) w).1 = [act] /\
    clip_name (act_clip act) = clip_name c.
Proof.
  intros Hm Ha Hc. apply playAnimation_resolved.
  unfold getAnimationsForModel in Hc.
  destruct (getModelByName p modelName) as [| |r] eqn:Eg;
    try (apply elem_of_nil in Hc; contradiction).
  destruct (animations_of w r) as [clips|] eqn:Ec; simpl in Hc;
    [|apply elem_of_nil in Hc; contradiction].
  destruct (find_clip_elem c clips Hc) as [c' Hf].
  exists mx, r, clips, c'. unfold targetModel. rewrite Ha. auto.
Qed.

Lemma X2_listed_clip_witness :
  let p := Fixtures.props_of false EmptyString [] in
  Fixtures.run_clip ∈ getAnimationsForModel p "robot.glb" Fixtures.w_mixer /\
  (playAnimation p "robot.glb" "run" Fixtures.w_mixer).2 = Normal tt /\
  exists act,
    playing (playAnimation p "robot.glb" "run" Fixtures.w_mixer).1 = [act] /\
    clip_name (act_clip act) = "run".
Proof.
  cbv zeta.
  assert (H : Fixtures.run_clip
              ∈ getAnimationsForModel (Fixtures.props_of false EmptyString [])
                  "robot.glb" Fixtures.w_mixer).
  { vm_compute. apply list_elem_of_In. simpl. tauto. }
  split; [exact H|].
  exact (X2_listed_clip_is_playable (Fixtures.props_of false EmptyString [])
           Fixtures.w_mixer "robot.glb" Fixtures.run_clip Fixtures.idle_mixer
           eq_refl eq_refl H).
Defined.

Lemma playing_stopAnimation modelName w : playing (stopAnimation modelName w) = [].
Proof.
  unfold playing, stopAnimation, handleStopAnimation, on_mixer. simpl.
  destruct (mixer w); reflexivity.
Qed.

(** X3: [stopAnimation] does not look at its argument.  After a clip of
    one entity has been started, stopping under any name at all, that of
    another entity or of none, leaves nothing running; the call changes
    neither the objects nor the document nor the trace. *)
Theorem X3_stopAnimation_stops_every_model p w modelName animationName other :
  resolves p w modelName animationName ->
  let w1 := (playAnimation p modelName animationName w).1 in
  length (playing w1) = 1 /\
  playing (stopAnimation other w1) = [] /\
  objects (stopAnimation other w1) = objects w1 /\
  document (stopAnimation other w1) = document w1 /\
  trace (stopAnimation other w1) = trace w1.
Proof.
  intros Hr. cbv zeta.
  destruct (playAnimation_resolved p modelName animationName w Hr)
    as (_ & act & Hp & _).
  split; [rewrite Hp; reflexivity|].
  split; [apply playing_stopAnimation|]. repeat split.
Qed.

Lemma X3_stopAnimation_witness :
  let p := Fixtures.props_of false EmptyString [] in
  let w1 := (playAnimation p "robot.glb" "walk" Fixtures.w_mixer).1 in
  length (playing w1) = 1 /\
  playing (stopAnimation "crate.glb" w1) = [] /\
  objects (stopAnimation "crate.glb" w1) = objects w1 /\
  document (stopAnimation "crate.glb" w1) = document w1 /\
  trace (stopAnimation "crate.glb" w1) = trace w1.
Proof.
  cbv zeta.
  apply (X3_stopAnimation_stops_every_model
           (Fixtures.props_of false EmptyString []) Fixtures.w_mixer
           "robot.glb" "walk" "crate.glb").
  exists Fixtures.idle_mixer, Fixtures.robot_ref,
    [Fixtures.walk; Fixtures.run_clip], Fixtures.walk.
  repeat split; reflexivity.
Defined.

(** ** Creating and removing markup *)

Lemma set_overlay_same d ch :
  Dom.doc_overlay d = Some ch -> Dom.set_overlay (Some ch) d = d.
Proof. destruct d; simpl; intros ->; reflexivity. Qed.

Lemma with_overlay_same w ch :
  Dom.doc_overlay (document w) = Some ch -> with_overlay ch w = w.
Proof.
  intros H. unfold with_overlay. rewrite (set_overlay_same _ _ H).
  destruct w; reflexivity.
Qed.

Lemma createHTML_with_overlay html el ch w :
  Dom.firstElementChild html = Some el ->
  createHTML html (with_overlay ch w) = with_overlay (ch ++ [el]) w.
Proof. intros H. unfold createHTML. simpl. rewrite H. reflexivity. Qed.

Lemma iter_createHTML html el ch w n :
  Dom.doc_overlay (document w) = Some ch ->
  Dom.firstElementChild html = Some el ->
  Nat.iter n (createHTML html) w = with_overlay (ch ++ replicate n el) w.
Proof.
  intros Ho Hf. induction n as [|n IH]; simpl.
  - rewrite app_nil_r. symmetry. apply with_overlay_same, Ho.
  - rewrite IH, (createHTML_with_overlay html el _ w Hf).
    rewrite <- app_assoc. f_equal.
    change (el :: replicate n el) with (replicate (S n) el).
    rewrite replicate_S_end. reflexivity.
Qed.

(** X4: [createHTML] is not idempotent.  With an overlay root, a call
    appends the first element of the markup to it and nothing else of
    the markup; [n] calls with the same markup leave [n] copies after
    what was there, and markup without an element changes nothing.
    Without an overlay root every call is dropped. *)
Theorem X4_createHTML_accumulates html w n :
  match Dom.doc_overlay (document w), Dom.firstElementChild html with
  | Some ch, Some el =>
      Nat.iter n (createHTML html) w = with_overlay (ch ++ replicate n el) w
  | _, _ => Nat.iter n (createHTML html) w = w
  end.
Proof.
  destruct (Dom.doc_overlay (document w)) as [ch|] eqn:Eo.
  - destruct (Dom.firstElementChild html) as [el|] eqn:Ef.
    + apply iter_createHTML; assumption.
    + induction n as [|n IH]; simpl; [reflexivity|].
      rewrite IH. unfold createHTML. rewrite Eo, Ef. reflexivity.
  - induction n as [|n IH]; simpl; [reflexivity|].
    rewrite IH. unfold createHTML. rewrite Eo. reflexivity.
Qed.

Lemma find_child_app_free i k ch rest :
  existsb (Dom.has_id i) ch = false ->
  Dom.find_child i k (ch ++ rest) = Dom.find_child i (k + length ch) rest.
Proof.
  revert k. induction ch as [|n ch IH]; intros k H; simpl in *.
  - f_equal. lia.
  - apply orb_false_iff in H as [Hn Hch].
    rewrite (has_id_root _ _ Hn), Hn, (IH (S k) Hch). f_equal. lia.
Qed.

Lemma id_free_inv i d :
  id_free i d ->
  existsb (Dom.has_id i) (Dom.doc_before d) = false /\
  existsb (Dom.has_id i) (default [] (Dom.doc_overlay d)) = false /\
  existsb (Dom.has_id i) (Dom.doc_after d) = false.
Proof.
  intros [H _]. unfold nodes_of in H. rewrite !existsb_app in H.
  apply orb_false_iff in H as [H1 H]. apply orb_false_iff in H as [H2 H3].
  auto.
Qed.

(** An id is free exactly when [document.getElementById] finds nothing. *)
Lemma getElementById_None d i :
  Dom.getElementById d i = None <-> id_free i d.
Proof.
  unfold Dom.getElementById, id_free, nodes_of, Dom.find_after.
  rewrite !existsb_app.
  destruct (existsb (Dom.has_id i) (Dom.doc_before d)) eqn:Eb; simpl.
  { split; [discriminate|]. intros [H _]. discriminate. }
  destruct (Dom.doc_overlay d) as [ch|] eqn:Eo; simpl.
  - case_bool_decide as Hi.
    { split; [discriminate|]. intros [_ H]. exfalso. apply H; [discriminate|exact Hi]. }
    destruct (existsb (Dom.has_id i) ch) eqn:Ec; simpl.
    + split; [|intros [H _]; discriminate].
      intros H. exfalso. clear Eo.
      assert (Hf : forall k, Dom.find_child i k ch <> None).
      { clear H. induction ch as [|n ch IH]; intros k; simpl in *; [discriminate|].
        destruct (Dom.root_has_id i n); [discriminate|].
        destruct (Dom.has_id i n); [discriminate|]. simpl in Ec. apply IH, Ec. }
      apply (Hf 0). destruct (Dom.find_child i 0 ch); [discriminate|reflexivity].
    + rewrite <- (app_nil_r ch) at 1.
      rewrite (find_child_app_free i 0 ch [] Ec). simpl.
      destruct (existsb (Dom.has_id i) (Dom.doc_after d)); simpl.
      * split; [discriminate|]. intros [H _]. discriminate.
      * split; auto.
  - destruct (existsb (Dom.has_id i) (Dom.doc_after d)); simpl.
    + split; [discriminate|]. intros [H _]. discriminate.
    + split; [|reflexivity]. intros _. split; [reflexivity|]. intros H. contradiction.
Qed.

(** X5: [removeHTML] undoes one [createHTML].  When the document holds no
    element with the id before, and the markup's first element is what
    a lookup by the id finds (it carries the id, and the id is not the
    empty string), [removeHTML(id)] after [n + 1] calls of [createHTML(html)]
    returns normally and leaves what [n] calls leave: one copy goes, the
    others stay, although all of them carry the id. *)
Theorem X5_removeHTML_undoes_one_createHTML html el i w n :
  id_free i (document w) ->
  Dom.doc_overlay (document w) <> None ->
  Dom.firstElementChild html = Some el ->
  Dom.root_has_id i el = true ->
  removeHTML i (Nat.iter (S n) (createHTML html) w)
  = (Nat.iter n (createHTML html) w, Normal tt).
Proof.
  intros Hfree Ho Hf Hi.
  destruct (Dom.doc_overlay (document w)) as [ch|] eqn:Eo; [|contradiction].
  rewrite (iter_createHTML html el ch w (S n) Eo Hf).
  rewrite (iter_createHTML html el ch w n Eo Hf).
  destruct (id_free_inv _ _ Hfree) as (Hb & Hc & Ha). rewrite Eo in Hc. simpl in Hc.
  destruct Hfree as [_ Hne]. rewrite Eo in Hne.
  unfold removeHTML, with_overlay. simpl.
  unfold Dom.getElementById. simpl. rewrite Hb.
  rewrite bool_decide_eq_false_2 by (apply Hne; discriminate).
  rewrite (find_child_app_free i 0 ch _ Hc). simpl. rewrite Hi.
  unfold Dom.removeChild. simpl.
  rewrite (delete_middle ch (replicate n el) el). reflexivity.
Qed.

Lemma X5_removeHTML_witness :
  let html := [Dom.Text "score"; Fixtures.div "hud"; Fixtures.div "other"] in
  removeHTML "hud" (Nat.iter 3 (createHTML html) Fixtures.w_mixer)
  = (Nat.iter 2 (createHTML html) Fixtures.w_mixer, Normal tt).
Proof.
  cbv zeta.
  apply (X5_removeHTML_undoes_one_createHTML _ (Fixtures.div "hud") "hud"
           Fixtures.w_mixer 2).
  - split; [reflexivity|]. intros _. discriminate.
  - discriminate.
  - reflexivity.
  - reflexivity.
Defined.

(** ** Mounting and unmounting the overlay *)

Lemma appendChild_overlay n d :
  Dom.doc_overlay d <> None -> Dom.doc_overlay (Dom.appendChild n d) <> None.
Proof.
  unfold Dom.appendChild. destruct (Dom.doc_overlay d) eqn:E; simpl; congruence.
Qed.

Lemma createHTML_frame html w :
  Dom.doc_before (document (createHTML html w)) = Dom.doc_before (document w) /\
  Dom.doc_after (document (createHTML html w)) = Dom.doc_after (document w) /\
  (Dom.doc_overlay (document (createHTML html w)) = None <->
   Dom.doc_overlay (document w) = None).
Proof.
  unfold createHTML.
  destruct (Dom.doc_overlay (document w)) as [ch|] eqn:Eo; [|rewrite Eo; tauto].
  destruct (Dom.firstElementChild html) as [el|]; [|rewrite Eo; tauto].
  unfold Dom.appendChild. rewrite Eo. simpl. split; [|split]; try reflexivity.
  split; discriminate.
Qed.

(** X6: the overlay leaves no trace.  On a page without an element
    [#scriptOverlay], mounting [Scene] gives its scripts an empty
    overlay; whatever markup they then add with [createHTML], unmounting
    takes the overlay and all of it out again, and the page is left with
    the nodes it had. *)
Theorem X6_overlay_mount_unmount d w htmls :
  Dom.getElementById d Dom.overlay_id = None ->
  document w = mountOverlay d ->
  Dom.doc_overlay (document w) = Some [] /\
  let w' := foldr createHTML w htmls in
  Dom.doc_overlay (unmountOverlay (document w')) = None /\
  nodes_of (unmountOverlay (document w')) = nodes_of d.
Proof.
  intros Hg Hw. unfold mountOverlay in Hw. rewrite Hg in Hw.
  split; [rewrite Hw; reflexivity|]. cbv zeta.
  assert (Hfr :
    Dom.doc_before (document (foldr createHTML w htmls)) = Dom.doc_before (document w) /\
    Dom.doc_after (document (foldr createHTML w htmls)) = Dom.doc_after (document w)).
  { induction htmls as [|h l IH]; simpl; [auto|].
    destruct (createHTML_frame h (foldr createHTML w l)) as (H1 & H2 & _).
    rewrite H1, H2. exact IH. }
  destruct Hfr as [Hb Ha].
  assert (Hno : Dom.doc_overlay d = None).
  { apply getElementById_None in Hg. destruct Hg as [_ Hg].
    destruct (Dom.doc_overlay d); [|reflexivity].
    exfalso. apply Hg; [discriminate|reflexivity]. }
  unfold unmountOverlay, nodes_of.
  destruct (Dom.doc_overlay (document (foldr createHTML w htmls))) eqn:E; simpl;
    rewrite ?E, ?Hb, ?Ha, Hw, Hno; simpl; rewrite ?app_nil_r; auto.
Qed.

Lemma X6_overlay_witness :
  let d := Fixtures.doc_no_overlay in
  let w := Fixtures.world_of (Some Fixtures.idle_mixer) (mountOverlay d) in
  Dom.doc_overlay (document w) = Some [] /\
  let w' := foldr createHTML w [[Fixtures.div "a"]; [Fixtures.div "b"]] in
  Dom.doc_overlay (unmountOverlay (document w')) = None /\
  nodes_of (unmountOverlay (document w')) = nodes_of d.
Proof.
  cbv zeta.
  apply (X6_overlay_mount_unmount Fixtures.doc_no_overlay
           (Fixtures.world_of (Some Fixtures.idle_mixer)
              (mountOverlay Fixtures.doc_no_overlay))
           [[Fixtures.div "a"]; [Fixtures.div "b"]]); reflexivity.
Defined.

(** X7: a page that already has an element [#scriptOverlay] of its own
    when [Scene] mounts leaves [overlayRef] empty for good: the mount
    changes nothing, and afterwards every [createHTML] is dropped and
    every [removeHTML] returns without touching the document, also for
    the id of an element the page does hold. *)
Theorem X7_foreign_overlay_disables_markup d w html i :
  Dom.doc_overlay d = None ->
  Dom.getElementById d Dom.overlay_id <> None ->
  document w = mountOverlay d ->
  document w = d /\
  createHTML html w = w /\
  removeHTML i w = (w, Normal tt).
Proof.
  intros Ho Hg Hw. unfold mountOverlay in Hw.
  destruct (Dom.getElementById d Dom.overlay_id) eqn:E; [|contradiction].
  split; [exact Hw|]. unfold createHTML, removeHTML. rewrite Hw, Ho.
  split; [reflexivity|]. destruct (Dom.getElementById d i); reflexivity.
Qed.

Lemma X7_foreign_overlay_witness :
  let d := {| Dom.doc_before := [Fixtures.div "scriptOverlay"; Fixtures.div "hud"];
              Dom.doc_overlay := None; Dom.doc_after := [] |} in
  let w := Fixtures.world_of None d in
  document w = d /\
  createHTML [Fixtures.div "score"] w = w /\
  removeHTML "hud" w = (w, Normal tt).
Proof.
  cbv zeta.
  apply (X7_foreign_overlay_disables_markup
           {| Dom.doc_before := [Fixtures.div "scriptOverlay"; Fixtures.div "hud"];
              Dom.doc_overlay := None; Dom.doc_after := [] |}
           (Fixtures.world_of None
              {| Dom.doc_before := [Fixtures.div "scriptOverlay"; Fixtures.div "hud"];
                 Dom.doc_overlay := None; Dom.doc_after := [] |})
           [Fixtures.div "score"] "hud").
  - reflexivity.
  - discriminate.
  - reflexivity.
Defined.

(** ** The cache stays filed under the current text *)

Lemma keeps_scripts_refl s : keeps_scripts s s.
Proof. intros sl e H. eauto. Qed.

Lemma keeps_scripts_trans s1 s2 s3 :
  keeps_scripts s1 s2 -> keeps_scripts s2 s3 -> keeps_scripts s1 s3.
Proof.
  intros H1 H2 sl e He. destruct (H1 sl e He) as (e1 & He1 & S1).
  destruct (H2 sl e1 He1) as (e2 & He2 & S2). exists e2. split; congruence.
Qed.

Lemma keeps_scripts_world w s : keeps_scripts s (set_world w s).
Proof. intros [|i] e H; simpl in *; eauto. Qed.

Lemma scene_part_script nf p t s :
  script (sceneScriptRef (scene_part nf p t s).1) = script (sceneScriptRef s).
Proof.
  unfold scene_part, scene_construct, scene_update, scriptFn_call.
  repeat (case_match; simpl in *; subst; try reflexivity);
    crunch_pairs; reflexivity.
Qed.

Lemma scene_part_keeps nf p t s : keeps_scripts s (scene_part nf p t s).1.
Proof.
  intros [|i] e H; simpl in *.
  - inversion H; subst. eexists. split; [reflexivity|]. apply scene_part_script.
  - rewrite scene_part_models. eauto.
Qed.

Lemma model_construct_script nf p t scr index model s e :
  array_get (modelScriptsRef s) index = Some e ->
  exists e',
    array_get (modelScriptsRef (model_construct nf p t scr index model s).1) index
    = Some e' /\ script e' = script e.
Proof.
  intros He. unfold model_construct, scriptFn_call.
  repeat (case_match; simpl in *; subst; eauto);
    crunch_pairs; simpl; rewrite array_get_set_eq, He; eauto.
Qed.

Lemma model_update_script p t index model s e :
  array_get (modelScriptsRef s) index = Some e ->
  exists e',
    array_get (modelScriptsRef (model_update p t index model s).1) index
    = Some e' /\ script e' = script e.
Proof.
  intros He. unfold model_update. rewrite He.
  repeat (case_match; simpl in *; subst; eauto);
    crunch_pairs; simpl; rewrite array_get_set_eq; eauto.
Qed.

Lemma model_step_keeps nf p t index model s :
  keeps_scripts s (model_step nf p t index model s).
Proof.
  intros [|i] e H; simpl in *.
  - rewrite model_step_scene. eauto.
  - destruct (decide (i = index)) as [->|Hne];
      [|rewrite model_step_entry_other by exact Hne; eauto].
    unfold model_step. destruct (script_at p index) as [scr|]; [|eauto].
    destruct (model_construct_script nf p t scr index model s e H)
      as (e1 & H1 & S1).
    destruct (model_construct nf p t scr index model s) as [s1 [v|err]];
      simpl in *; [|exists e1; auto].
    destruct (model_update_script p t index model s1 e1 H1) as (e2 & H2 & S2).
    destruct (model_update p t index model s1) as [s2 [v2|err]]; simpl in *;
      exists e2; split; congruence.
Qed.

Lemma models_loop_keeps nf p t models k s :
  keeps_scripts s (models_loop nf p t k models s).
Proof.
  revert k s. induction models as [|m rest IH]; intros k s; simpl.
  - apply keeps_scripts_refl.
  - eapply keeps_scripts_trans; [apply model_step_keeps | apply IH].
Qed.

Lemma useFrame_keeps nf p t s : keeps_scripts s (useFrame nf p t s).
Proof.
  unfold useFrame.
  eapply keeps_scripts_trans; [apply (keeps_scripts_world (mixer_update (tick_delta t) (world s)))|].
  destruct (isEditMode p); [apply keeps_scripts_refl|].
  unfold run_scripts.
  pose proof (scene_part_keeps nf p t
                (set_world (mixer_update (tick_delta t) (world s)) s)) as H.
  destruct (scene_part nf p t _) as [s1 [v|err]]; simpl in H.
  - eapply keeps_scripts_trans; [exact H | apply models_loop_keeps].
  - eapply keeps_scripts_trans; [exact H|].
    apply (keeps_scripts_world (console (ErrorInScriptExecution err) (world s1))).
Qed.

Lemma in_sync_keeps p s s' : in_sync p s -> keeps_scripts s s' -> in_sync p s'.
Proof.
  intros Hs Hk sl scr Ht. destruct (Hs sl scr Ht) as (e & He & Hscr).
  destruct (Hk sl e He) as (e' & He' & S'). exists e'. split; congruence.
Qed.

Lemma useFrame_in_sync nf p t s : in_sync p s -> in_sync p (useFrame nf p t s).
Proof. intros H. eapply in_sync_keeps; [exact H | apply useFrame_keeps]. Qed.

Lemma frames_in_sync nf p ticks s : in_sync p s -> in_sync p (frames nf p ticks s).
Proof.
  revert s. induction ticks as [|t rest IH]; intros s H; simpl; [exact H|].
  apply IH, useFrame_in_sync, H.
Qed.

Lemma script_effect_in_sync p s : in_sync p (script_effect p s).
Proof.
  intros [|i] scr Ht; simpl in Ht.
  - inversion Ht; subst. simpl. case_bool_decide as E; eauto.
  - destruct (modelScripts p !! i) as [item|] eqn:Ei; [|discriminate].
    simpl in Ht. cbn [entry_of script_effect modelScriptsRef].
    rewrite (reset_model_caches_at _ 0 _ i item Ei). simpl.
    destruct item as [| |text]; simpl in Ht; [discriminate| |];
      inversion Ht; subst; rewrite reset_if_changed_at;
      destruct (array_get (modelScriptsRef s) i) as [e|]; try case_bool_decide;
      eauto.
Qed.

Lemma reset_model_caches_in_sync scripts k refs :
  (forall i item scr,
     scripts !! i = Some item -> item_text item = Some scr ->
     exists e, array_get refs (k + i) = Some e /\ script e = scr) ->
  reset_model_caches k scripts refs = refs.
Proof.
  revert k. induction scripts as [|item rest IH]; intros k H; simpl.
  - reflexivity.
  - assert (H0 : match item with
                 | Hole => refs
                 | Undef => reset_if_changed k None refs
                 | Src text => reset_if_changed k (Some text) refs
                 end = refs).
    { destruct item as [| |text]; [reflexivity| |].
      - destruct (H 0 Undef None eq_refl eq_refl) as (e & He & Hs).
        rewrite Nat.add_0_r in He. eapply reset_if_changed_same; eauto.
      - destruct (H 0 (Src text) (Some text) eq_refl eq_refl) as (e & He & Hs).
        rewrite Nat.add_0_r in He. eapply reset_if_changed_same; eauto. }
    rewrite H0. apply IH. intros i it scr Hi Ht.
    replace (S k + i) with (k + S i) by lia. apply (H (S i) it scr Hi Ht).
Qed.

Lemma clear_overlay_idem d :
  Dom.clear_overlay (Dom.clear_overlay d) = Dom.clear_overlay d.
Proof. unfold Dom.clear_overlay. destruct (Dom.doc_overlay d) eqn:E; simpl; rewrite ?E; reflexivity. Qed.

(** On a state in sync the effect only empties the overlay. *)
Lemma script_effect_in_sync_eq p s :
  in_sync p s ->
  script_effect p s
  = set_world (set_document (Dom.clear_overlay (document (world s))) (world s)) s.
Proof.
  intros H. unfold script_effect, set_world. f_equal.
  - destruct (H SceneSlot _ eq_refl) as (e & He & Hs). simpl in He.
    inversion He; subst. rewrite bool_decide_eq_true_2 by exact Hs. reflexivity.
  - apply reset_model_caches_in_sync. intros i item scr Hi Ht.
    apply (H (EntitySlot i) scr). simpl. rewrite Hi. exact Ht.
Qed.

(** X9: the cache-reset effect is idempotent.  Run a second time for the
    same props (as a development build of React does on mount), or
    after any number of frames, it resets no slot: all it does then is
    empty the overlay. *)
Theorem X9_script_effect_idempotent nf p ticks s :
  let s1 := frames nf p ticks (script_effect p s) in
  sceneScriptRef (script_effect p s1) = sceneScriptRef s1 /\
  modelScriptsRef (script_effect p s1) = modelScriptsRef s1 /\
  script_effect p (script_effect p s) = script_effect p s.
Proof.
  cbv zeta.
  pose proof (frames_in_sync nf p ticks _ (script_effect_in_sync p s)) as H.
  rewrite (script_effect_in_sync_eq p _ H).
  split; [reflexivity|]. split; [reflexivity|].
  rewrite (script_effect_in_sync_eq p _ (script_effect_in_sync p s)).
  unfold script_effect, set_world, set_document. simpl.
  rewrite clear_overlay_idem. reflexivity.
Qed.

(** ** Editing one script *)

Lemma reset_model_caches_above scripts k refs j :
  k + length scripts <= j ->
  array_get (reset_model_caches k scripts refs) j = array_get refs j.
Proof.
  revert k refs. induction scripts as [|item rest IH]; intros k refs Hj; simpl in *.
  - reflexivity.
  - rewrite IH by lia.
    destruct item; auto; apply reset_if_changed_other; lia.
Qed.

Lemma spread_lookup l j :
  spread l !! j
  = (fun item => match item with Hole => Undef | _ => item end) <$> l !! j.
Proof. unfold spread. apply list_lookup_fmap. Qed.

Lemma assign_script_lookup_ne l index value j :
  j <> index ->
  assign_script l index value !! j
  = match l !! j with
    | Some item => Some item
    | None => if decide (j < index) then Some Hole else None
    end.
Proof.
  intros Hne. unfold assign_script.
  destruct (decide (index < length l)) as [H|H].
  - rewrite list_lookup_insert_ne by auto.
    destruct (l !! j) eqn:E; [reflexivity|].
    apply lookup_ge_None_1 in E. destruct (decide (j < index)); [lia|reflexivity].
  - destruct (decide (j < length l)) as [Hj|Hj].
    + rewrite lookup_app_l by exact Hj.
      destruct (lookup_lt_is_Some_2 l j Hj) as [x Hx]. rewrite Hx. reflexivity.
    + rewrite (lookup_ge_None_2 l j) by lia.
      rewrite lookup_app_r by lia.
      destruct (decide (j < index)) as [Hlt|Hge].
      * rewrite lookup_app_l by (rewrite length_replicate; lia).
        apply lookup_replicate_2. lia.
      * rewrite lookup_app_r by (rewrite length_replicate; lia).
        rewrite length_replicate. apply lookup_ge_None_2. simpl. lia.
Qed.

(** What the effect leaves at an entity slot, by the entry of the new
    [modelScripts] there. *)
Lemma script_effect_entry p s j :
  entry_of (script_effect p s) (EntitySlot j)
  = match modelScripts p !! j ≫= item_text with
    | Some scr =>
        match entry_of s (EntitySlot j) with
        | Some e => if bool_decide (script e = scr) then Some e
                    else Some (fresh_entry scr)
        | None => Some (fresh_entry scr)
        end
    | None => entry_of s (EntitySlot j)
    end.
Proof.
  cbn [entry_of script_effect modelScriptsRef].
  destruct (modelScripts p !! j) as [item|] eqn:Ei; simpl.
  - rewrite (reset_model_caches_at _ 0 _ j item Ei). simpl.
    destruct item; simpl; rewrite ?reset_if_changed_at; reflexivity.
  - apply reset_model_caches_above. apply lookup_ge_None_1 in Ei. simpl. lia.
Qed.

(** A change of one script leaves the cache entries of the other
    slots alone. *)
Lemma handleScriptChange_other_entry selectedScript value sys sl :
  in_sync (props sys) (st sys) ->
  sl <> selectedScript -> ~ is_hole (props sys) sl ->
  entry_of (st (handleScriptChange selectedScript value sys)) sl
  = entry_of (st sys) sl.
Proof.
  intros Hsync Hne Hh.
  destruct selectedScript as [|index]; unfold handleScriptChange.
  - case_bool_decide as Hv; [reflexivity|]. cbn [st props].
    destruct sl as [|j]; [contradiction|].
    rewrite script_effect_entry. cbn [modelScripts set_sceneScript].
    destruct (modelScripts (props sys) !! j) as [item|] eqn:Ei; simpl;
      [|reflexivity].
    destruct (item_text item) as [scr|] eqn:Et; [|reflexivity].
    destruct (Hsync (EntitySlot j) scr) as (e & He & Hs);
      [simpl; rewrite Ei; exact Et|].
    simpl in He. rewrite He, bool_decide_eq_true_2 by exact Hs. reflexivity.
  - cbn [st props]. destruct sl as [|j].
    + simpl. destruct (Hsync SceneSlot _ eq_refl) as (e & He & Hs).
      simpl in He. inversion He; subst.
      rewrite bool_decide_eq_true_2 by exact Hs. reflexivity.
    + assert (Hj : j <> index) by congruence. simpl in Hh.
      rewrite script_effect_entry. cbn [modelScripts set_modelScripts].
      rewrite (assign_script_lookup_ne _ index value j Hj), spread_lookup.
      destruct (modelScripts (props sys) !! j) as [item|] eqn:Ei; simpl.
      * destruct item as [| |text]; [contradiction| |]; simpl.
        -- destruct (Hsync (EntitySlot j) None) as (e & He & Hs);
             [simpl; rewrite Ei; reflexivity|].
           simpl in He. rewrite He, bool_decide_eq_true_2 by exact Hs.
           reflexivity.
        -- destruct (Hsync (EntitySlot j) (Some text)) as (e & He & Hs);
             [simpl; rewrite Ei; reflexivity|].
           simpl in He. rewrite He, bool_decide_eq_true_2 by exact Hs.
           reflexivity.
      * destruct (decide (j < index)); reflexivity.
Qed.

(** X10: editing the script of one slot resets that slot and no other.
    On a cache in sync, [handleScriptChange] leaves the entry of every
    other slot (the scene's, and each entity's that is not a hole of
    [modelScripts]) as it is, with its module and closure; the edited
    slot gets a fresh entry without a module when it had another text
    or nothing cached, and keeps its entry when the text is the one it
    had. *)
Theorem X10_script_change_resets_one_slot selectedScript value sys :
  in_sync (props sys) (st sys) ->
  let sys' := handleScriptChange selectedScript value sys in
  (forall sl, sl <> selectedScript -> ~ is_hole (props sys) sl ->
              entry_of (st sys') sl = entry_of (st sys) sl) /\
  (forall old, slot_text (props sys) selectedScript = Some old ->
               old <> Some value ->
               entry_of (st sys') selectedScript
               = Some (fresh_entry (Some value))) /\
  (entry_of (st sys) selectedScript = None ->
   entry_of (st sys') selectedScript = Some (fresh_entry (Some value))) /\
  (slot_text (props sys) selectedScript = Some (Some value) ->
   entry_of (st sys') selectedScript = entry_of (st sys) selectedScript).
Proof.
  intros Hsync. cbv zeta.
  split; [intros sl; apply handleScriptChange_other_entry, Hsync|].
  destruct selectedScript as [|index]; unfold handleScriptChange.
  - (* the scene script *)
    case_bool_decide as Hv.
    + split; [|split; [discriminate|reflexivity]].
      intros old Hold Hne. exfalso. apply Hne. simpl in Hold. congruence.
    + cbn [st props]. split; [|split].
      * intros old _ _. simpl.
        destruct (Hsync SceneSlot _ eq_refl) as (e & He & Hs). simpl in He.
        inversion He; subst.
        rewrite bool_decide_eq_false_2; [reflexivity|]. rewrite Hs. congruence.
      * discriminate.
      * intros Heq. simpl in Heq. congruence.
  - (* an entity script *)
    cbn [st props]. split; [|split].
    + intros old Hold Hne.
      rewrite script_effect_entry. cbn [modelScripts set_modelScripts].
      rewrite assign_script_lookup. simpl.
      destruct (Hsync _ _ Hold) as (e & He & Hs). simpl in He.
      rewrite He, bool_decide_eq_false_2; [reflexivity|]. congruence.
    + intros Hnone.
      rewrite script_effect_entry. cbn [modelScripts set_modelScripts].
      rewrite assign_script_lookup. simpl. simpl in Hnone. rewrite Hnone.
      reflexivity.
    + intros Heq. rewrite script_effect_entry. cbn [modelScripts set_modelScripts].
      rewrite assign_script_lookup. simpl.
      destruct (Hsync _ _ Heq) as (e & He & Hs). simpl in He.
      rewrite He, bool_decide_eq_true_2 by exact Hs. reflexivity.
Qed.

Lemma X10_script_change_witness :
  let sys := Fixtures.isolation_sys in
  let sys' := handleScriptChange (EntitySlot 0) Fixtures.src_counter sys in
  in_sync (props sys) (st sys) /\
  entry_of (st sys') SceneSlot = entry_of (st sys) SceneSlot /\
  entry_of (st sys') (EntitySlot 1) = entry_of (st sys) (EntitySlot 1) /\
  entry_of (st sys') (EntitySlot 0)
  = Some (fresh_entry (Some Fixtures.src_counter)).
Proof.
  cbv zeta.
  assert (Hsync : in_sync (props Fixtures.isolation_sys) (st Fixtures.isolation_sys)).
  { apply useFrame_in_sync, script_effect_in_sync. }
  split; [exact Hsync|].
  destruct (X10_script_change_resets_one_slot (EntitySlot 0) Fixtures.src_counter
              Fixtures.isolation_sys Hsync) as (H1 & H2 & _).
  split; [apply H1; [discriminate | intros []]|].
  split; [apply H1; [discriminate | discriminate]|].
  apply (H2 (Some Fixtures.src_throw_update)); [reflexivity | discriminate].
Defined.

(** ** A scene script that returns [null] *)

Lemma yields_null_run p prog env w :
  yields_null prog -> (run p prog (env, w)).2 = Normal JNull.
Proof.
  intros H. revert env w. induction H as [|X c k _ IH]; intros env w;
    cbn [run]; simpl; auto.
  destruct (handle p c (env, w)) as [[env' w'] x]. apply IH.
Qed.

Lemma count_cap_events e evs :
  forallb cap_event evs = true -> cap_event e = false -> count_event e evs = 0.
Proof.
  intros H He. induction evs as [|x l IH]; [reflexivity|].
  simpl in H. apply andb_true_iff in H as [Hx Hl].
  rewrite count_event_cons_ne; [apply IH, Hl|]. intros ->. congruence.
Qed.

Lemma useFrame_null nf p t s body :
  isEditMode p = false ->
  sceneScript p <> EmptyString ->
  nf (sceneScript p) = Some body ->
  (forall args, yields_null (body args)) ->
  truthy (module (sceneScriptRef s)) = false ->
  exists evs,
    forallb cap_event evs = true /\
    module (sceneScriptRef (useFrame nf p t s)) = JNull /\
    modelScriptsRef (useFrame nf p t s) = modelScriptsRef s /\
    trace (world (useFrame nf p t s))
    = EvLog (ErrorInScriptExecution TypeError)
        :: evs ++ EvTopLevel SceneSlot :: EvParse SceneSlot
        :: trace (mixer_update (tick_delta t) (world s)).
Proof.
  intros He Hs Hn Hy Hf.
  unfold useFrame, run_scripts, scene_part, scene_construct, scriptFn_call.
  rewrite He, bool_decide_eq_false_2 by exact Hs. simpl. rewrite Hf, Hn.
  set (w := emit (EvTopLevel SceneSlot)
              (emit (EvParse SceneSlot) (mixer_update (tick_delta t) (world s)))).
  pose proof (yields_null_run p (body (scene_args t)) ∅ w (Hy _)) as Hr.
  destruct (cap_step_run p _ (body (scene_args t)) ∅ w) as (evs & T & F & _).
  destruct (run p (body (scene_args t)) (∅, w)) as [[env w'] c].
  simpl in Hr, T. subst c. simpl.
  exists evs. split; [exact F|]. split; [reflexivity|]. split; [reflexivity|].
  rewrite T. reflexivity.
Qed.

(** X11: a scene script whose body returns [null] stops every entity
    script.  [typeof null] is ['object'], so the driver reads
    [null.update]; the [TypeError] lands in the outermost [catch], which
    is logged and ends the frame's script part.  Frame after frame the
    scene script is parsed and run again, the error is logged again, no
    [update] is called, and no entity slot is parsed or cached. *)
Theorem X11_null_scene_module_stops_entities nf p ticks s body :
  isEditMode p = false ->
  sceneScript p <> EmptyString ->
  nf (sceneScript p) = Some body ->
  (forall args, yields_null (body args)) ->
  truthy (module (sceneScriptRef s)) = false ->
  let s' := frames nf p ticks s in
  let evs := events_since (world s) (world s') in
  modelScriptsRef s' = modelScriptsRef s /\
  count_event (EvParse SceneSlot) evs = length ticks /\
  count_event (EvTopLevel SceneSlot) evs = length ticks /\
  count_event (EvLog (ErrorInScriptExecution TypeError)) evs = length ticks /\
  (forall sl, count_event (EvUpdate sl) evs = 0) /\
  (forall i, count_event (EvParse (EntitySlot i)) evs = 0).
Proof.
  intros He Hs Hn Hy. cbv zeta. revert s.
  induction ticks as [|t rest IH]; intros s Hf.
  - simpl. rewrite (events_since_same (world s) (world s)) by reflexivity.
    repeat split; reflexivity.
  - simpl frames.
    destruct (useFrame_null nf p t s body He Hs Hn Hy Hf) as (e0 & F0 & M1 & R1 & T1).
    set (s1 := useFrame nf p t s) in *.
    assert (Hf1 : truthy (module (sceneScriptRef s1)) = false)
      by (rewrite M1; reflexivity).
    destruct (IH s1 Hf1) as (H1 & H2 & H3 & H4 & H5 & H6).
    destruct (frames_extends nf p rest s1) as [evs T].
    rewrite (events_since_app _ _ _ T) in H2, H3, H4, H5, H6.
    assert (T1' : exists e1, trace (world s1) = e1 ++ trace (world s) /\
               count_event (EvParse SceneSlot) e1 = 1 /\
               count_event (EvTopLevel SceneSlot) e1 = 1 /\
               count_event (EvLog (ErrorInScriptExecution TypeError)) e1 = 1 /\
               (forall sl, count_event (EvUpdate sl) e1 = 0) /\
               (forall i, count_event (EvParse (EntitySlot i)) e1 = 0)).
    { rewrite T1. unfold mixer_update. destruct (mixer (world s)); simpl.
      - exists (EvLog (ErrorInScriptExecution TypeError)
                :: e0 ++ [EvTopLevel SceneSlot; EvParse SceneSlot;
                          EvMixerUpdate (tick_delta t)]).
        split; [simpl; rewrite <- app_assoc; reflexivity|].
        repeat split; try intros sl; count_tac;
          rewrite (count_cap_events _ e0 F0) by reflexivity; reflexivity.
      - exists (EvLog (ErrorInScriptExecution TypeError)
                :: e0 ++ [EvTopLevel SceneSlot; EvParse SceneSlot]).
        split; [simpl; rewrite <- app_assoc; reflexivity|].
        repeat split; try intros sl; count_tac;
          rewrite (count_cap_events _ e0 F0) by reflexivity; reflexivity. }
    destruct T1' as (e1 & T1' & P1 & L1 & E1 & U1 & Q1).
    rewrite (events_since_app (world s) _ (evs ++ e1))
      by (rewrite T, T1', app_assoc; reflexivity).
    split; [rewrite H1; exact R1|].
    rewrite !count_event_app, H2, H3, H4, P1, L1, E1. simpl length.
    split; [lia|]. split; [lia|]. split; [lia|]. split.
    + intros sl. rewrite count_event_app, H5, U1. reflexivity.
    + intros i. rewrite count_event_app, H6, Q1. reflexivity.
Qed.

Lemma X11_null_scene_witness :
  let sys := mount (Fixtures.props_of false Samples.src_return_null
                      [Src Fixtures.src_counter]) Fixtures.w_mixer in
  let ticks := replicate 3 (Fixtures.tick 16) in
  let s' := frames Samples.toy_Function (props sys) ticks (st sys) in
  let evs := events_since (world (st sys)) (world s') in
  modelScriptsRef s' = modelScriptsRef (st sys) /\
  count_event (EvParse SceneSlot) evs = length ticks /\
  count_event (EvTopLevel SceneSlot) evs = length ticks /\
  count_event (EvLog (ErrorInScriptExecution TypeError)) evs = length ticks /\
  (forall sl, count_event (EvUpdate sl) evs = 0) /\
  (forall i, count_event (EvParse (EntitySlot i)) evs = 0).
Proof.
  cbv zeta.
  apply (X11_null_scene_module_stops_entities Samples.toy_Function
           (props (mount (Fixtures.props_of false Samples.src_return_null
                            [Src Fixtures.src_counter]) Fixtures.w_mixer))
           (replicate 3 (Fixtures.tick 16))
           (st (mount (Fixtures.props_of false Samples.src_return_null
                         [Src Fixtures.src_counter]) Fixtures.w_mixer))
           Samples.null_body).
  - reflexivity.
  - discriminate.
  - reflexivity.
  - intros args. apply null_call. intros x. constructor.
  - reflexivity.
Defined.

(** ** The animation clock over a run of frames *)

Lemma clock_useFrame nf p t s :
  clock (world (useFrame nf p t s))
  = (fun x => Double.add x (tick_delta t)) <$> clock (world s).
Proof.
  unfold useFrame. destruct (isEditMode p).
  - apply clock_mixer_update.
  - rewrite clock_run_scripts. apply clock_mixer_update.
Qed.

(** X12: scripts cannot turn the animation clock.  Over any run of
    frames, in editing or in running mode, whatever the scripts play,
    stop, create or throw, the mixer's clock ends at what the additions
    [time += delta] give, one per frame and in the order of the frames,
    each rounded as a double; without a mixer there is no clock before
    or after. *)
Theorem X12_clock_adds_each_frame_time nf p ticks s :
  clock (world (frames nf p ticks s))
  = (fun x => advance x ticks) <$> clock (world s).
Proof.
  revert s. induction ticks as [|t rest IH]; intros s; simpl.
  - destruct (clock (world s)); reflexivity.
  - rewrite IH, clock_useFrame.
    destruct (clock (world s)); reflexivity.
Qed.

(** Two frames of 0.1 and 0.2 leave the clock at
    0.30000000000000004, and a clock at 2^53 is not moved by a frame
    of 1. *)
Lemma advance_rounds :
  let tenth := Double.scaled 3602879701896397 (-55) in
  let fifth := Double.scaled 3602879701896397 (-54) in
  let tick_of d :=
    {| tick_scene := Fixtures.scene_ref; tick_camera := Fixtures.camera_ref;
       tick_input := Fixtures.no_input; tick_delta := d |} in
  advance Double.zero [tick_of tenth; tick_of fifth]
    = Double.scaled 5404319552844596 (-54) /\
  advance (Double.of_Z (2 ^ 53)) [Fixtures.tick 1] = Double.of_Z (2 ^ 53).
Proof. split; vm_compute; reflexivity. Qed.

(** ** What every reachable state satisfies *)

Lemma in_sync_ext p p' s s' :
  sceneScript p' = sceneScript p ->
  modelScripts p' = modelScripts p ->
  sceneScriptRef s' = sceneScriptRef s ->
  modelScriptsRef s' = modelScriptsRef s ->
  in_sync p s -> in_sync p' s'.
Proof.
  intros H1 H2 H3 H4 H [|i] scr Ht; simpl in *.
  - rewrite H3. apply (H SceneSlot). simpl. congruence.
  - rewrite H4. apply (H (EntitySlot i)). simpl. rewrite <- H2. exact Ht.
Qed.

Lemma perform_in_sync clone nf sys c :
  in_sync (props sys) (st sys) ->
  in_sync (props (perform clone nf sys c)) (st (perform clone nf sys c)).
Proof.
  intros H. destruct c as [fileName r|index|index|index| |sl value|t]; simpl.
  - unfold loadModel.
    destruct (file_kind fileName) as [[| |]|], r as [l|]; simpl; try exact H;
      try (eapply in_sync_ext; [| | | |exact H]; reflexivity).
    apply script_effect_in_sync.
  - destruct (uploadedModels (props sys) !! index); [|exact H].
    eapply in_sync_ext; [| | | |exact H]; reflexivity.
  - unfold duplicateModel.
    destruct (uploadedModels (props sys) !! index); [|exact H].
    eapply in_sync_ext; [| | | |exact H]; reflexivity.
  - unfold deleteModel.
    eapply in_sync_ext; [| | | |exact H]; simpl; try reflexivity;
      case_bool_decide; reflexivity.
  - apply script_effect_in_sync.
  - unfold handleScriptChange. destruct sl; [case_bool_decide|];
      try exact H; apply script_effect_in_sync.
  - apply useFrame_in_sync, H.
Qed.

Lemma length_delete_any {A} (l : list A) i :
  length (delete i l) = length l - (if decide (i < length l) then 1 else 0).
Proof.
  revert i. induction l as [|x l IH]; intros [|i]; simpl; try reflexivity.
  - lia.
  - rewrite IH. destruct l; simpl in *; repeat case_decide; lia.
Qed.

Lemma perform_aligned clone nf sys c :
  length (uploadedModels (props sys)) = length (modelNames (props sys)) ->
  length (uploadedModels (props (perform clone nf sys c)))
  = length (modelNames (props (perform clone nf sys c))).
Proof.
  intros H. destruct c as [fileName r|index|index|index| |sl value|t]; simpl;
    try exact H.
  - unfold loadModel.
    destruct (file_kind fileName) as [[| |]|], r as [l|]; simpl; try exact H;
      rewrite !length_app, H; reflexivity.
  - destruct (uploadedModels (props sys) !! index); exact H.
  - unfold duplicateModel.
    destruct (uploadedModels (props sys) !! index); [|exact H].
    simpl. rewrite !length_app, H. reflexivity.
  - rewrite !length_delete_any, H. reflexivity.
  - unfold handleScriptChange. destruct sl; [case_bool_decide|]; exact H.
Qed.

Lemma getModelByName_aligned p modelName :
  length (uploadedModels p) = length (modelNames p) ->
  getModelByName p modelName <> Undefined.
Proof.
  intros H. unfold getModelByName.
  destruct (indexOf modelName (modelNames p)) as [i|] eqn:Ei; [|discriminate].
  apply indexOf_Some in Ei as [Hi _]. apply lookup_lt_Some in Hi.
  destruct (lookup_lt_is_Some_2 (uploadedModels p) i) as [r Hr]; [lia|].
  rewrite Hr. discriminate.
Qed.

(** X8: from the first render on, whatever the user does (uploading
    files, clicking, duplicating and deleting models, toggling the mode,
    editing scripts) and however many frames run in between, every slot
    the effect visits has a cache entry filed under the slot's current
    text: whatever module a frame finds cached for the slot is filed
    under the text the slot has now. *)
Theorem X8_cache_filed_under_current_text clone nf sceneText w cmds :
  let sys := foldl (perform clone nf) (start sceneText w) cmds in
  in_sync (props sys) (st sys).
Proof.
  cbv zeta. induction cmds as [|c cmds IH] using rev_ind; simpl.
  - apply script_effect_in_sync.
  - rewrite foldl_app. simpl. apply perform_in_sync, IH.
Qed.

(** X13: the models and their names stay aligned.  From the first
    render on, over any sequence of uploads, clicks, duplications,
    deletions, mode toggles, edits and frames, [uploadedModels] and
    [modelNames] have the same length, so [getModelByName] answers with
    a model or with [null], never with [undefined]. *)
Theorem X13_models_and_names_aligned clone nf sceneText w cmds modelName :
  let sys := foldl (perform clone nf) (start sceneText w) cmds in
  length (uploadedModels (props sys)) = length (modelNames (props sys)) /\
  getModelByName (props sys) modelName <> Undefined.
Proof.
  cbv zeta.
  assert (H : length (uploadedModels
                        (props (foldl (perform clone nf) (start sceneText w) cmds)))
              = length (modelNames
                          (props (foldl (perform clone nf) (start sceneText w) cmds)))).
  { induction cmds as [|c cmds IH] using rev_ind; simpl; [reflexivity|].
    rewrite foldl_app. simpl. apply perform_aligned, IH. }
  split; [exact H | apply getModelByName_aligned, H].
Qed.

(** ** Deleting models *)

Lemma script_at_ext p p' j :
  modelScripts p' = modelScripts p -> script_at p' j = script_at p j.
Proof. unfold script_at. intros ->. reflexivity. Qed.

(** X14: [deleteModel] takes the model and its name out of their arrays
    and leaves [modelScripts], the cache and the overlay alone, so
    scripts stay with the index and not with the model: below the
    deleted index the frame loop pairs models and scripts as before;
    from it on, the model that was at [j + 1] is run with the script
    text, the cached module and the closure of slot [j]. *)
Theorem X14_deleteModel_shifts_models_under_scripts index sys :
  let sys' := deleteModel index sys in
  modelScripts (props sys') = modelScripts (props sys) /\
  (forall sl, entry_of (st sys') sl = entry_of (st sys) sl) /\
  document (world (st sys')) = document (world (st sys)) /\
  (forall j, j < index ->
     dispatched (props sys') j = dispatched (props sys) j) /\
  (forall j, index <= j ->
     dispatched (props sys') j
     = (model ← uploadedModels (props sys) !! S j;
        scr ← script_at (props sys) j;
        Some (model, scr))).
Proof.
  cbv zeta. unfold deleteModel. cbn [props st].
  split; [reflexivity|]. split; [|split; [|split]].
  - intros sl. case_bool_decide; destruct sl; reflexivity.
  - case_bool_decide; reflexivity.
  - intros j Hj. unfold dispatched. cbn [uploadedModels].
    rewrite list_lookup_delete_lt by exact Hj.
    rewrite (script_at_ext (props sys)) by reflexivity. reflexivity.
  - intros j Hj. unfold dispatched. cbn [uploadedModels].
    rewrite list_lookup_delete_ge by exact Hj.
    rewrite (script_at_ext (props sys)) by reflexivity. reflexivity.
Qed.

Lemma NoDup_delete {A} (l : list A) i : NoDup l -> NoDup (delete i l).
Proof. intros H. apply (sublist_NoDup (delete i l) l H), sublist_delete. Qed.

Lemma not_elem_of_delete_NoDup {A} (l : list A) i x :
  NoDup l -> l !! i = Some x -> x ∉ delete i l.
Proof.
  intros Hnd Hi Hin. apply list_elem_of_lookup in Hin as [k Hk].
  destruct (decide (k < i)) as [Hlt|Hge].
  - rewrite list_lookup_delete_lt in Hk by exact Hlt.
    pose proof (NoDup_lookup l k i x Hnd Hk Hi). lia.
  - rewrite list_lookup_delete_ge in Hk by lia.
    pose proof (NoDup_lookup l (S k) i x Hnd Hk Hi). lia.
Qed.

(** X15: [activeModelIndex] is not kept up to date when models shift.
    After a click on the model at [i] and the deletion of an earlier
    model, the active model sits at [i - 1].  Deleting it there leaves
    it active, with its mixer, although it is in [uploadedModels] no
    more; deleting what is at [i] instead deselects it and drops the
    mixer, although the active model is still loaded. *)
Theorem X15_stale_active_index_after_deletion sys m i j :
  NoDup (uploadedModels (props sys)) ->
  uploadedModels (props sys) !! i = Some m ->
  j < i ->
  let sys0 := handleModelClick m i sys in
  let sys1 := deleteModel j sys0 in
  uploadedModels (props sys1) !! (i - 1) = Some m /\
  (let sys2 := deleteModel (i - 1) sys1 in
   activeModel (props sys2) = Some m /\
   (m ∉ uploadedModels (props sys2)) /\
   mixer (world (st sys2)) = mixer (world (st sys0))) /\
  (let sys3 := deleteModel i sys1 in
   activeModel (props sys3) = None /\
   (m ∈ uploadedModels (props sys3)) /\
   mixer (world (st sys3)) = None).
Proof.
  intros Hnd Hm Hj. cbv zeta.
  assert (H1 : delete j (uploadedModels (props sys)) !! (i - 1) = Some m).
  { rewrite list_lookup_delete_ge by lia.
    replace (S (i - 1)) with i by lia. exact Hm. }
  unfold deleteModel, handleModelClick. cbn [props st activeModelIndex].
  rewrite (bool_decide_eq_false_2 (Some i = Some j)) by (intros [=]; lia).
  cbn [props st activeModelIndex uploadedModels activeModel set_activeModel].
  split; [exact H1|]. split.
  - rewrite (bool_decide_eq_false_2 (Some i = Some (i - 1))) by (intros [=]; lia).
    split; [reflexivity|]. split; [|reflexivity].
    apply not_elem_of_delete_NoDup; [apply NoDup_delete, Hnd | exact H1].
  - rewrite (bool_decide_eq_true_2 (Some i = Some i)) by reflexivity.
    split; [reflexivity|]. split; [|reflexivity].
    apply list_elem_of_lookup. exists (i - 1).
    rewrite list_lookup_delete_lt by lia. exact H1.
Qed.

Lemma X15_stale_active_index_witness :
  let sys := Fixtures.boot EmptyString [] in
  let sys0 := handleModelClick Fixtures.crate_ref 1 sys in
  let sys1 := deleteModel 0 sys0 in
  uploadedModels (props sys1) !! (1 - 1) = Some Fixtures.crate_ref /\
  (let sys2 := deleteModel (1 - 1) sys1 in
   activeModel (props sys2) = Some Fixtures.crate_ref /\
   (Fixtures.crate_ref ∉ uploadedModels (props sys2)) /\
   mixer (world (st sys2)) = mixer (world (st sys0))) /\
  (let sys3 := deleteModel 1 sys1 in
   activeModel (props sys3) = None /\
   (Fixtures.crate_ref ∈ uploadedModels (props sys3)) /\
   mixer (world (st sys3)) = None).
Proof.
  cbv zeta.
  apply (X15_stale_active_index_after_deletion
           (Fixtures.boot EmptyString []) Fixtures.crate_ref 1 0).
  - simpl. apply NoDup_cons. split; [|apply NoDup_singleton].
    intros H. apply list_elem_of_singleton in H. discriminate.
  - reflexivity.
  - lia.
Defined.

(** ** Uploading models *)

Lemma DEFAULT_MODEL_SCRIPT_nonempty : DEFAULT_MODEL_SCRIPT <> EmptyString.
Proof. discriminate. Qed.


Lemma lookup_snoc_length {A} (l : list A) x n :
  n = length l -> (l ++ [x]) !! n = Some x.
Proof. intros ->. rewrite lookup_app_r by lia. rewrite Nat.sub_diag. reflexivity. Qed.

Lemma length_spread l : length (spread l) = length l.
Proof. unfold spread. apply length_fmap. Qed.

Lemma dispatched_gltf sys fileName l :
  file_kind fileName = Some GLTF ->
  length (modelScripts (props sys)) = length (uploadedModels (props sys)) ->
  dispatched (props (loadModel fileName (Some l) sys).1)
    (length (uploadedModels (props sys)))
  = Some (loaded_model l, DEFAULT_MODEL_SCRIPT).
Proof.
  intros Hk Hlen. unfold loadModel. rewrite Hk. cbn [fst props].
  unfold dispatched, script_at.
  cbn [uploadedModels modelScripts set_modelScripts append_model].
  rewrite (lookup_snoc_length (uploadedModels (props sys))) by reflexivity.
  rewrite (lookup_snoc_length (spread _)) by (rewrite length_spread; lia).
  simpl. rewrite ?bool_decide_eq_false_2 by discriminate. reflexivity.
Qed.

(** X16: only GLTF uploads bring a script.  With as many scripts as
    models, a [.glb] or [.gltf] upload is run with the default script
    from the next frame on.  An [.obj] or [.fbx] upload appends a model
    and a name but no script, runs no cache reset, and is run with no
    script; and the GLTF model uploaded after it hands its default
    script to that model and is left without one itself. *)
Theorem X16_only_gltf_uploads_bring_a_script sys plainName gltfName l1 l2 :
  length (modelScripts (props sys)) = length (uploadedModels (props sys)) ->
  file_kind plainName = Some OBJ \/ file_kind plainName = Some FBX ->
  file_kind gltfName = Some GLTF ->
  let n := length (uploadedModels (props sys)) in
  let sys1 := (loadModel plainName (Some l1) sys).1 in
  let sys2 := (loadModel gltfName (Some l2) sys1).1 in
  dispatched (props (loadModel gltfName (Some l2) sys).1) n
  = Some (loaded_model l2, DEFAULT_MODEL_SCRIPT) /\
  uploadedModels (props sys1) !! n = Some (loaded_model l1) /\
  dispatched (props sys1) n = None /\
  st sys1 = st sys /\
  dispatched (props sys2) n = Some (loaded_model l1, DEFAULT_MODEL_SCRIPT) /\
  uploadedModels (props sys2) !! S n = Some (loaded_model l2) /\
  dispatched (props sys2) (S n) = None.
Proof.
  intros Hlen Hplain Hg. cbv zeta.
  split; [apply dispatched_gltf; assumption|].
  assert (E1 : (loadModel plainName (Some l1) sys).1
               = {| props := append_model (loaded_model l1) plainName (props sys);
                    activeModelIndex := activeModelIndex sys;
                    st := st sys |}).
  { unfold loadModel. destruct Hplain as [-> | ->]; reflexivity. }
  rewrite E1. cbn [props st].
  split; [simpl; apply lookup_snoc_length; reflexivity|].
  split.
  { unfold dispatched, script_at. cbn [modelScripts append_model].
    rewrite (lookup_ge_None_2 (modelScripts (props sys))) by lia.
    destruct (uploadedModels _ !! _); reflexivity. }
  split; [reflexivity|].
  unfold loadModel. rewrite Hg. cbn [fst props].
  unfold dispatched, script_at.
  cbn [uploadedModels modelScripts set_modelScripts append_model].
  pose proof (length_spread (modelScripts (props sys))) as Hs.
  split; [|split].
  - rewrite <- (app_assoc (uploadedModels (props sys))).
    rewrite (lookup_app_r (uploadedModels (props sys))) by lia.
    rewrite Nat.sub_diag.
    rewrite (lookup_snoc_length (spread _)) by lia.
    simpl. rewrite ?bool_decide_eq_false_2 by discriminate. reflexivity.
  - apply lookup_snoc_length. rewrite length_app. simpl. lia.
  - rewrite (lookup_ge_None_2 (spread _ ++ _))
      by (rewrite length_app; simpl; lia).
    destruct (_ !! _); reflexivity.
Qed.

Lemma X16_upload_witness :
  let sys := start EmptyString Fixtures.w_no_mixer in
  let l1 := {| loaded_model := Fixtures.crate_ref; loaded_clips := [] |} in
  let l2 := {| loaded_model := Fixtures.robot_ref;
               loaded_clips := [Fixtures.walk] |} in
  let sys1 := (loadModel "crate.obj" (Some l1) sys).1 in
  let sys2 := (loadModel "robot.glb" (Some l2) sys1).1 in
  dispatched (props (loadModel "robot.glb" (Some l2) sys).1) 0
  = Some (Fixtures.robot_ref, DEFAULT_MODEL_SCRIPT) /\
  uploadedModels (props sys1) !! 0 = Some Fixtures.crate_ref /\
  dispatched (props sys1) 0 = None /\
  st sys1 = st sys /\
  dispatched (props sys2) 0 = Some (Fixtures.crate_ref, DEFAULT_MODEL_SCRIPT) /\
  uploadedModels (props sys2) !! 1 = Some Fixtures.robot_ref /\
  dispatched (props sys2) 1 = None.
Proof.
  cbv zeta.
  apply (X16_only_gltf_uploads_bring_a_script
           (start EmptyString Fixtures.w_no_mixer) "crate.obj" "robot.glb"
           {| loaded_model := Fixtures.crate_ref; loaded_clips := [] |}
           {| loaded_model := Fixtures.robot_ref;
              loaded_clips := [Fixtures.walk] |}).
  - reflexivity.
  - left. reflexivity.
  - reflexivity.
Defined.

(** ** Keyboard and mouse state *)

(** X17: what a script reads as [input.keys[k]] is decided by the last
    key event whose key, in lower case, is [k]: [true] after a keydown,
    [false] after a keyup, whatever other keys, moves and clicks came
    after it; a key without such an event reads as it did before, and a
    key that was ever pressed never reads [undefined] again.  The mouse
    position is that of the last move. *)
Theorem X17_key_state_follows_last_event toLowerCase evs input k :
  let input' := foldl (listen toLowerCase) input evs in
  keys input' !! k
  = match last (omap (key_change toLowerCase k) evs) with
    | Some b => Some b
    | None => keys input !! k
    end /\
  (is_Some (keys input !! k) -> is_Some (keys input' !! k)) /\
  (mouse_x input', mouse_y input')
  = match last (omap (fun e => match e with
                               | MouseMove x y => Some (x, y)
                               | _ => None
                               end) evs) with
    | Some xy => xy
    | None => (mouse_x input, mouse_y input)
    end.
Proof.
  cbv zeta.
  assert (H : keys (foldl (listen toLowerCase) input evs) !! k
              = match last (omap (key_change toLowerCase k) evs) with
                | Some b => Some b
                | None => keys input !! k
                end).
  { induction evs as [|e evs IH] using rev_ind; [reflexivity|].
    rewrite foldl_app, omap_app, last_app. simpl.
    destruct e as [key|key|x y|b|b]; simpl; try exact IH.
    - case_bool_decide as Hk; simpl.
      + subst k. apply lookup_insert_eq.
      + rewrite lookup_insert_ne by exact Hk. exact IH.
    - case_bool_decide as Hk; simpl.
      + subst k. apply lookup_insert_eq.
      + rewrite lookup_insert_ne by exact Hk. exact IH. }
  split; [exact H|]. split.
  - intros Hs. rewrite H. destruct (last _); eauto.
  - clear H. induction evs as [|e evs IH] using rev_ind; [reflexivity|].
    rewrite foldl_app, omap_app, last_app. simpl.
    destruct e as [key|key|x y|b|b]; simpl; try exact IH. reflexivity.
Qed.

(** ** The conversation history *)

Lemma removelast_take {A} (l : list A) : removelast l = take (length l - 1) l.
Proof.
  rewrite removelast_firstn_len. replace (pred (length l)) with (length l - 1) by lia.
  reflexivity.
Qed.

Lemma omap_singleton {A B} (f : A -> option B) x : omap f [x] = option_list (f x).
Proof. simpl. destruct (f x); reflexivity. Qed.

Lemma record_unwritable s r :
  ConversationMemory.writable s = false -> ConversationMemory.record s r = s.
Proof.
  intros H. unfold ConversationMemory.record, ConversationMemory.addConversation.
  destruct (ConversationMemory.req_selected r) as [[|i]|]; try reflexivity.
  simpl. unfold ConversationMemory.saveConversations. rewrite H. reflexivity.
Qed.

Lemma record_writable s r :
  ConversationMemory.writable s = true ->
  length (ConversationMemory.loadConversations s)
    <= ConversationMemory.MAX_CONVERSATIONS ->
  ConversationMemory.writable (ConversationMemory.record s r) = true /\
  ConversationMemory.loadConversations (ConversationMemory.record s r)
  = take ConversationMemory.MAX_CONVERSATIONS
      (option_list (ConversationMemory.scene_entry r)
       ++ ConversationMemory.loadConversations s).
Proof.
  intros Hw Hlen.
  unfold ConversationMemory.record, ConversationMemory.addConversation,
    ConversationMemory.scene_entry.
  destruct (ConversationMemory.req_selected r) as [[|i]|];
    cbn -[take removelast length];
    try (split; [exact Hw | symmetry; apply take_ge; exact Hlen]).
  unfold ConversationMemory.saveConversations. rewrite Hw.
  split; [reflexivity|].
  unfold ConversationMemory.loadConversations at 1. cbn [ConversationMemory.item].
  set (e := ConversationMemory.Build_Conversation _ _ _ _ _ _).
  set (l := ConversationMemory.loadConversations s) in *.
  case_decide as Hc.
  - rewrite removelast_take. f_equal. cbn [length] in *.
    unfold ConversationMemory.MAX_CONVERSATIONS in *. lia.
  - symmetry. apply take_ge. cbn [length] in *. lia.
Qed.

(** X18: the history is the fifty most recent scene-script requests,
    newest first.  Starting from a store of at most fifty entries, after
    any sequence of [addConversation] calls the stored list is the
    entries of the calls made for the scene script, newest first, then
    the old entries, cut after fifty; calls made for an entity script
    (or with nothing selected) throw on [modelNames] and add nothing.
    When [setItem] fails, the store keeps what it had. *)
Theorem X18_history_is_latest_fifty_scene_requests s reqs :
  length (ConversationMemory.loadConversations s)
    <= ConversationMemory.MAX_CONVERSATIONS ->
  ConversationMemory.getAllConversations (foldl ConversationMemory.record s reqs)
  = if ConversationMemory.writable s
    then take ConversationMemory.MAX_CONVERSATIONS
           (rev (omap ConversationMemory.scene_entry reqs)
            ++ ConversationMemory.loadConversations s)
    else ConversationMemory.loadConversations s.
Proof.
  intros Hlen. unfold ConversationMemory.getAllConversations.
  destruct (ConversationMemory.writable s) eqn:Hw.
  - assert (H : ConversationMemory.writable
                  (foldl ConversationMemory.record s reqs) = true /\
                ConversationMemory.loadConversations
                  (foldl ConversationMemory.record s reqs)
                = take ConversationMemory.MAX_CONVERSATIONS
                    (rev (omap ConversationMemory.scene_entry reqs)
                     ++ ConversationMemory.loadConversations s)).
    { induction reqs as [|r reqs IH] using rev_ind; simpl.
      - split; [exact Hw | symmetry; apply take_ge; exact Hlen].
      - destruct IH as [IHw IHl]. rewrite foldl_app. simpl.
        destruct (record_writable (foldl ConversationMemory.record s reqs) r IHw)
          as [Hw' Hl'].
        { rewrite IHl, length_take. lia. }
        split; [exact Hw'|]. rewrite Hl', IHl.
        rewrite omap_app, omap_singleton, rev_app_distr.
        destruct (ConversationMemory.scene_entry r) as [e|]; simpl.
        + unfold ConversationMemory.MAX_CONVERSATIONS. simpl.
          rewrite take_take. reflexivity.
        + rewrite take_take, Nat.min_id. reflexivity. }
    apply H.
  - assert (H : foldl ConversationMemory.record s reqs = s).
    { induction reqs as [|r reqs IH] using rev_ind; [reflexivity|].
      rewrite foldl_app. simpl. rewrite IH. apply record_unwritable, Hw. }
    rewrite H. reflexivity.
Qed.

Lemma X18_history_witness :
  let s := {| ConversationMemory.item := ConversationMemory.Unparsable;
              ConversationMemory.writable := true |} in
  let req sel text :=
    {| ConversationMemory.req_clock :=
         {| ConversationMemory.now := 0; ConversationMemory.iso := "t" |};
       ConversationMemory.req_prompt := text;
       ConversationMemory.req_script := "return {};";
       ConversationMemory.req_selected := sel |} in
  let reqs := [req (Some SceneSlot) "a day and night cycle";
               req (Some (EntitySlot 0)) "make the robot walk";
               req (Some SceneSlot) "a score counter"] in
  ConversationMemory.prompt
    <$> ConversationMemory.getAllConversations
          (foldl ConversationMemory.record s reqs)
  = ["a score counter"; "a day and night cycle"].
Proof.
  cbv zeta.
  rewrite (X18_history_is_latest_fifty_scene_requests
             {| ConversationMemory.item := ConversationMemory.Unparsable;
                ConversationMemory.writable := true |});
    [reflexivity | simpl; unfold ConversationMemory.MAX_CONVERSATIONS; lia].
Defined.

(** ** Searching the history *)

Lemma elem_of_insert_scored {A} (x y : A * nat) l :
  x ∈ ConversationMemory.insert_scored y l <-> x = y \/ x ∈ l.
Proof.
  induction l as [|z l IH]; simpl.
  - rewrite list_elem_of_singleton, elem_of_nil. tauto.
  - case_decide; rewrite !elem_of_cons, ?IH, ?elem_of_cons; tauto.
Qed.

Lemma elem_of_sort_by_score {A} (x : A * nat) l :
  x ∈ ConversationMemory.sort_by_score l <-> x ∈ l.
Proof.
  unfold ConversationMemory.sort_by_score. induction l as [|y l IH]; simpl.
  - reflexivity.
  - rewrite elem_of_insert_scored, elem_of_cons, IH. reflexivity.
Qed.

Lemma best_first_insert {A} (x : A * nat) l :
  ConversationMemory.best_first l ->
  ConversationMemory.best_first (ConversationMemory.insert_scored x l).
Proof.
  induction l as [|y l IH]; simpl.
  - intros _. split; [constructor | exact I].
  - intros [Hy Hl]. case_decide as Hc; simpl.
    + split; [|apply IH, Hl].
      apply Forall_forall. intros z Hz.
      apply elem_of_insert_scored in Hz as [->|Hz]; [lia|].
      rewrite Forall_forall in Hy. apply Hy, Hz.
    + split; [|split; assumption].
      constructor; [lia|].
      eapply Forall_impl; [exact Hy|]. simpl. intros z Hz. lia.
Qed.

Lemma best_first_sort {A} (l : list (A * nat)) :
  ConversationMemory.best_first (ConversationMemory.sort_by_score l).
Proof.
  unfold ConversationMemory.sort_by_score. induction l as [|y l IH]; simpl.
  - exact I.
  - apply best_first_insert, IH.
Qed.

Lemma best_first_take {A} (l : list (A * nat)) n :
  ConversationMemory.best_first l -> ConversationMemory.best_first (take n l).
Proof.
  revert n. induction l as [|x l IH]; intros [|n]; simpl; auto.
  intros [Hx Hl]. split; [|apply IH, Hl].
  rewrite Forall_forall in *. intros y Hy. apply Hx.
  apply elem_of_take in Hy as (i & Hi & _). apply list_elem_of_lookup. eauto.
Qed.

Lemma best_first_take_drop {A} (l : list (A * nat)) n x y :
  ConversationMemory.best_first l ->
  x ∈ take n l -> y ∈ drop n l -> y.2 <= x.2.
Proof.
  revert n. induction l as [|z l IH]; intros [|n] Hb Hx Hy; simpl in *;
    try (apply elem_of_nil in Hx; contradiction).
  destruct Hb as [Hz Hl].
  apply elem_of_cons in Hx as [->|Hx]; [|eapply IH; eauto].
  rewrite Forall_forall in Hz. apply Hz.
  apply list_elem_of_lookup in Hy as [i Hi]. rewrite lookup_drop in Hi.
  apply list_elem_of_lookup. eauto.
Qed.

Lemma foldl_add_positive {A} (f : A -> nat) l a :
  0 < foldl (fun acc x => acc + f x) a l ->
  0 < a \/ exists x, x ∈ l /\ 0 < f x.
Proof.
  revert a. induction l as [|x l IH]; intros a H; simpl in *; [auto|].
  destruct (IH _ H) as [Ha|(y & Hy & Hf)].
  - destruct (decide (0 < a)) as [?|Hn]; [auto|].
    right. exists x. split; [apply list_elem_of_here | lia].
  - right. exists y. split; [apply list_elem_of_further, Hy | exact Hf].
Qed.

Section SearchProperties.

Variable trim : string -> string.
Variable toLowerCase : string -> string.
Variable split_nonword : string -> list string.
Variable count_matches : string -> string -> nat.

Let terms_of := ConversationMemory.queryTerms toLowerCase split_nonword.
Let score_of := ConversationMemory.score toLowerCase count_matches.
Let search :=
  ConversationMemory.searchConversations trim toLowerCase split_nonword
    count_matches.

Lemma search_cases query maxResults s :
  ((query = EmptyString \/ trim query = EmptyString \/
    ConversationMemory.loadConversations s = [] \/ terms_of query = []) /\
   search query maxResults s = []) \/
  search query maxResults s
  = take maxResults
      (ConversationMemory.sort_by_score
         (filter (fun item => 0 < item.2)
            (map (fun c => (c, score_of (terms_of query) c))
               (ConversationMemory.loadConversations s)))).
Proof.
  unfold search, ConversationMemory.searchConversations.
  repeat case_bool_decide; simpl; auto.
  fold (terms_of query). fold score_of.
  destruct (ConversationMemory.loadConversations s) as [|c l]; [auto 6|].
  destruct (terms_of query) as [|t ts]; [auto 6|]. right. reflexivity.
Qed.

(** X19: [searchConversations] returns the best matches.  It gives at
    most [maxResults] stored conversations, best score first; each of
    them contains a word of the query that has three or more characters
    (its score is the number of such matches, and is not zero); and a
    stored conversation that matches but is not returned was left out
    because [maxResults] others score at least as much.  A query that
    is empty, blank or made of shorter words only finds nothing. *)
Theorem X19_search_returns_best_matches query maxResults s :
  let results := search query maxResults s in
  let terms := terms_of query in
  length results <= maxResults /\
  ConversationMemory.best_first results /\
  (forall c n, (c, n) ∈ results ->
     c ∈ ConversationMemory.getAllConversations s /\
     n = score_of terms c /\
     exists term,
       term ∈ terms /\ 2 < String.length term /\
       0 < count_matches term
             (ConversationMemory.search_text toLowerCase c)) /\
  (forall c, c ∈ ConversationMemory.getAllConversations s ->
     0 < score_of terms c ->
     query <> EmptyString -> trim query <> EmptyString ->
     (c, score_of terms c) ∈ results \/
     (length results = maxResults /\
      forall x, x ∈ results -> score_of terms c <= x.2)) /\
  (query = EmptyString \/ trim query = EmptyString \/ terms = [] ->
   results = []).
Proof.
  cbv zeta. unfold ConversationMemory.getAllConversations.
  set (scored := filter (fun item : ConversationMemory.Conversation * nat => 0 < item.2)
                   (map (fun c => (c, score_of (terms_of query) c))
                      (ConversationMemory.loadConversations s))).
  assert (Hin : forall c n, (c, n) ∈ ConversationMemory.sort_by_score scored <->
                  c ∈ ConversationMemory.loadConversations s /\
                  n = score_of (terms_of query) c /\ 0 < n).
  { intros c n. rewrite elem_of_sort_by_score. unfold scored.
    rewrite list_elem_of_filter. simpl.
    change (map ?f ?l) with (f <$> l). rewrite list_elem_of_fmap. split.
    - intros (Hn & c' & Heq & Hc). inversion Heq; subst. auto.
    - intros (Hc & -> & Hn). split; [exact Hn|]. exists c. auto. }
  split; [|split; [|split; [|split]]].
  - destruct (search_cases query maxResults s) as [[_ ->] | ->];
      [simpl; lia|].
    rewrite length_take. lia.
  - destruct (search_cases query maxResults s) as [[_ ->] | ->];
      [exact I|].
    apply best_first_take, best_first_sort.
  - intros c n Hr.
    destruct (search_cases query maxResults s) as [[_ E] | E];
      rewrite E in Hr; [apply elem_of_nil in Hr; contradiction|].
    apply elem_of_take in Hr as (i & Hi & _).
    assert (Hs : (c, n) ∈ ConversationMemory.sort_by_score scored)
      by (apply list_elem_of_lookup; eauto).
    apply Hin in Hs as (Hc & Hn & Hpos). split; [exact Hc|]. split; [exact Hn|].
    subst n. unfold score_of, ConversationMemory.score in Hpos.
    apply foldl_add_positive in Hpos as [Hz|(term & Ht & Hp)]; [lia|].
    exists term. split; [exact Ht|]. split; [|exact Hp].
    unfold terms_of, ConversationMemory.queryTerms in Ht.
    apply list_elem_of_filter in Ht as [Hl _]. exact Hl.
  - intros c Hc Hpos Hq Ht.
    destruct (search_cases query maxResults s) as [[Hcase _] | E].
    + exfalso. destruct Hcase as [H|[H|[H|H]]]; try contradiction.
      * rewrite H in Hc. apply elem_of_nil in Hc. exact Hc.
      * rewrite H in Hpos. unfold score_of, ConversationMemory.score in Hpos.
        simpl in Hpos. lia.
    + rewrite E. fold scored.
      assert (Hs : (c, score_of (terms_of query) c)
                   ∈ ConversationMemory.sort_by_score scored)
        by (apply Hin; auto).
      rewrite <- (take_drop maxResults (ConversationMemory.sort_by_score scored)) in Hs.
      apply elem_of_app in Hs as [Hs|Hs]; [left; exact Hs|]. right.
      split.
      * rewrite length_take. apply Nat.min_l.
        destruct (decide (maxResults <= length (ConversationMemory.sort_by_score scored)))
          as [?|Hn]; [assumption|].
        rewrite drop_ge in Hs by lia. apply elem_of_nil in Hs. contradiction.
      * intros x Hx.
        apply (best_first_take_drop _ maxResults x _ (best_first_sort scored) Hx Hs).
  - intros [->|[H|H]].
    + reflexivity.
    + unfold search, ConversationMemory.searchConversations.
      rewrite (bool_decide_eq_true_2 _ H), orb_true_r. reflexivity.
    + unfold search, ConversationMemory.searchConversations.
      fold (terms_of query). rewrite H.
      destruct (_ || _); [reflexivity|].
      destruct (ConversationMemory.loadConversations s); reflexivity.
Qed.

End SearchProperties.

(** ** Who plays the clip *)

(** X20: the clip a script asks for ends up on the active model.
    [playAnimation] starts the clip on the entity it names and then
    calls [Engine.handlePlayAnimation], which stops everything and
    looks the clip name up on the active model.  So when a model is
    active and has a clip of that name, the one action left running is
    the active model's clip, on the active model, whichever entity the
    script named; only when no model is active, or the active model has
    no such clip, does the named entity's clip keep running. *)
Theorem X20_clip_ends_on_active_model
    p w modelName animationName mx target clips clip :
  mixer w = Some mx ->
  targetModel p modelName w = Obj target ->
  animations_of w target = Some clips ->
  find_clip animationName clips = Some clip ->
  playing (playAnimation p modelName animationName w).1
  = match activeModel p, activeModel p ≫= animations_of w with
    | Some active, Some own =>
        match find_clip animationName own with
        | Some clip' => [{| act_clip := clip'; act_root := active |}]
        | None => [{| act_clip := clip; act_root := target |}]
        end
    | _, _ => [{| act_clip := clip; act_root := target |}]
    end.
Proof.
  intros Em Et Ea Ec.
  unfold playAnimation. rewrite Em, Et, Ea.
  destruct (find_clip_cons_inv _ _ _ Ec) as (x & rest & ->).
  rewrite Ec. cbn [fst].
  set (w1 := console (PlayingAnimation animationName modelName) w).
  set (act := {| act_clip := clip; act_root := target |}).
  set (w3 := on_mixer (Mixer.play act) (on_mixer Mixer.stopAllAction w1)).
  assert (H3 : playing w3 = [act]) by (apply (playing_stop_play act w1 mx), Em).
  assert (Hm : mixer w3 = Some (Mixer.play act (Mixer.stopAllAction mx)))
    by (unfold w3, on_mixer; simpl; rewrite Em; reflexivity).
  unfold handlePlayAnimation.
  change (animations_of w3) with (animations_of w). rewrite Hm.
  destruct (activeModel p) as [active|]; cbn [mbind option_bind]; [|exact H3].
  destruct (animations_of w active) as [own|]; [|exact H3].
  destruct (find_clip animationName own) as [clip'|]; [|exact H3].
  apply (playing_stop_play _ (console (EnginePlaying animationName) w3) _ Hm).
Qed.

Lemma X20_clip_ends_on_active_model_witness :
  playing (playAnimation Samples.duel_props "robot.glb" "walk"
             Samples.duel_world).1
  = [{| act_clip := Samples.walk2; act_root := Fixtures.crate_ref |}].
Proof.
  apply (X20_clip_ends_on_active_model Samples.duel_props Samples.duel_world
           "robot.glb" "walk" Fixtures.idle_mixer Fixtures.robot_ref
           [Fixtures.walk; Fixtures.run_clip] Fixtures.walk);
    reflexivity.
Defined.

(** ** Markup that does not come back *)

(** X21: markup built once does not come back.  In running mode, an
    edit that changes one script empties the overlay, whichever slot
    put markup there; but every other slot that has a module cached
    (and is not a hole of [modelScripts]) keeps it, so in the frames
    that follow, whatever the edited text is and whatever the scene
    part does, its text is not parsed and its top-level statements are
    not run again: what such a script created when it was built stays
    gone. *)
Theorem X21_edit_wipes_markup_of_other_slots
    nf selectedScript value sys sl ticks :
  in_sync (props sys) (st sys) ->
  isEditMode (props sys) = false ->
  (selectedScript = SceneSlot -> value <> sceneScript (props sys)) ->
  sl <> selectedScript ->
  ~ is_hole (props sys) sl ->
  truthy (module_of (st sys) sl) = true ->
  let sys' := handleScriptChange selectedScript value sys in
  let s' := frames nf (props sys') ticks (st sys') in
  let evs := events_since (world (st sys')) (world s') in
  overlay_of (st sys') = (fun _ => []) <$> overlay_of (st sys) /\
  module_of s' sl = module_of (st sys) sl /\
  count_event (EvParse sl) evs = 0 /\
  count_event (EvTopLevel sl) evs = 0.
Proof.
  intros Hsync He Hchg Hne Hh Ht. cbv zeta.
  pose proof (handleScriptChange_other_entry selectedScript value sys sl
                Hsync Hne Hh) as Hentry.
  assert (Hm : module_of (st (handleScriptChange selectedScript value sys)) sl
               = module_of (st sys) sl)
    by (rewrite !module_of_entry, Hentry; reflexivity).
  split.
  - unfold handleScriptChange. destruct selectedScript as [|index].
    + rewrite bool_decide_eq_false_2 by (apply Hchg; reflexivity).
      apply overlay_script_effect.
    + apply overlay_script_effect.
  - destruct (frames_cached nf
                (props (handleScriptChange selectedScript value sys)) ticks
                (st (handleScriptChange selectedScript value sys)) sl)
      as (Hm' & evs & T & P & L); [rewrite Hm; exact Ht|].
    rewrite (events_since_app _ _ _ T).
    split; [rewrite Hm'; exact Hm|]. split; assumption.
Qed.

(** After the first frame of the scene with the HUD, the robot's script
    is replaced: the overlay is emptied and the scene script is not
    built again.  When it is the scene script that is replaced, by a
    text that does not parse, the overlay is emptied as well and the
    crate's script is not built again, in frames that the scene part
    aborts. *)
Lemma X21_edit_wipes_markup_witness :
  let sys := Fixtures.isolation_sys in
  let sys' := handleScriptChange (EntitySlot 0) Fixtures.src_counter sys in
  let s' := frames Fixtures.toy_Function (props sys')
              (replicate 2 (Fixtures.tick 16)) (st sys') in
  let evs := events_since (world (st sys')) (world s') in
  let sys2 := handleScriptChange SceneSlot Fixtures.src_syntax_error sys in
  let s2 := frames Fixtures.toy_Function (props sys2)
              (replicate 2 (Fixtures.tick 16)) (st sys2) in
  let evs2 := events_since (world (st sys2)) (world s2) in
  overlay_of (st sys) = Some [Fixtures.div "hud"] /\
  (overlay_of (st sys') = (fun _ => []) <$> overlay_of (st sys) /\
   module_of s' SceneSlot = module_of (st sys) SceneSlot /\
   count_event (EvParse SceneSlot) evs = 0 /\
   count_event (EvTopLevel SceneSlot) evs = 0) /\
  (overlay_of (st sys2) = (fun _ => []) <$> overlay_of (st sys) /\
   module_of s2 (EntitySlot 1) = module_of (st sys) (EntitySlot 1) /\
   count_event (EvParse (EntitySlot 1)) evs2 = 0 /\
   count_event (EvTopLevel (EntitySlot 1)) evs2 = 0).
Proof.
  cbv zeta. split; [reflexivity|]. split.
  - apply (X21_edit_wipes_markup_of_other_slots Fixtures.toy_Function
             (EntitySlot 0) Fixtures.src_counter Fixtures.isolation_sys
             SceneSlot (replicate 2 (Fixtures.tick 16))).
    + apply useFrame_in_sync, script_effect_in_sync.
    + reflexivity.
    + discriminate.
    + discriminate.
    + simpl. tauto.
    + reflexivity.
  - apply (X21_edit_wipes_markup_of_other_slots Fixtures.toy_Function
             SceneSlot Fixtures.src_syntax_error Fixtures.isolation_sys
             (EntitySlot 1) (replicate 2 (Fixtures.tick 16))).
    + apply useFrame_in_sync, script_effect_in_sync.
    + reflexivity.
    + intros _. discriminate.
    + discriminate.
    + simpl. discriminate.
    + reflexivity.
Defined.

(** ** The order of dispatch within a frame *)

Lemma about_event_slot sl e : about sl e = true <-> event_slot e = Some sl.
Proof.
  destruct e as [[]| | | | |]; simpl;
    try (split; [discriminate | discriminate]);
    rewrite bool_decide_eq_true; split; congruence.
Qed.

Lemma ranks_only sl0 evs :
  (forall sl, sl <> sl0 -> forallb (fun e => negb (about sl e)) evs = true) ->
  Forall (fun r => r = slot_rank sl0) (dispatch_ranks evs).
Proof.
  intros H. apply Forall_forall. intros r Hr.
  apply list_elem_of_omap in Hr as (e & He & Hs).
  destruct (event_slot e) as [sl|] eqn:Es; [|discriminate].
  simpl in Hs. inversion Hs; subst r.
  destruct (decide (sl = sl0)) as [->|Hne]; [reflexivity|]. exfalso.
  specialize (H sl Hne). rewrite forallb_forall in H.
  apply list_elem_of_In in He. specialize (H e He).
  apply about_event_slot in Es. rewrite Es in H. discriminate.
Qed.

Lemma silent_family_ranks sl0 sl1 w w' :
  sl1 <> sl0 ->
  (forall sl, sl <> sl0 -> silent sl w w') ->
  exists evs,
    trace w' = evs ++ trace w /\
    Forall (fun r => r = slot_rank sl0) (dispatch_ranks evs).
Proof.
  intros H1 H. destruct (H sl1 H1) as (evs & T & _). exists evs.
  split; [exact T|]. apply ranks_only. intros sl Hne.
  destruct (H sl Hne) as (evs' & T' & F').
  assert (evs' = evs) by (eapply app_inv_tail; rewrite <- T, <- T'; reflexivity).
  subst. exact F'.
Qed.

Lemma descending_const c l : Forall (fun r => r = c) l -> descending l.
Proof.
  induction 1 as [|x l Hx Hl IH]; simpl; [exact I|].
  split; [|exact IH]. subst x. eapply Forall_impl; [exact Hl|].
  simpl. intros y ->. lia.
Qed.

Lemma descending_app l2 l1 :
  descending l2 -> descending l1 ->
  (forall x y, x ∈ l2 -> y ∈ l1 -> y <= x) ->
  descending (l2 ++ l1).
Proof.
  induction l2 as [|x l2 IH]; simpl; intros H2 H1 H; [exact H1|].
  destruct H2 as [Hx H2]. split.
  - apply Forall_app. split; [exact Hx|].
    apply Forall_forall. intros y Hy. apply (H x y); [apply list_elem_of_here | exact Hy].
  - apply IH; [exact H2 | exact H1|].
    intros a b Ha Hb. apply H; [apply list_elem_of_further, Ha | exact Hb].
Qed.

Lemma dispatch_ranks_app e2 e1 :
  dispatch_ranks (e2 ++ e1) = dispatch_ranks e2 ++ dispatch_ranks e1.
Proof. apply omap_app. Qed.

Lemma models_loop_ranks nf p t models k s :
  exists evs,
    trace (world (models_loop nf p t k models s)) = evs ++ trace (world s) /\
    descending (dispatch_ranks evs) /\
    Forall (fun r => k < r) (dispatch_ranks evs).
Proof.
  revert k s. induction models as [|m rest IH]; intros k s; simpl.
  - exists []. repeat split; constructor.
  - destruct (silent_family_ranks (EntitySlot k) SceneSlot (world s)
                (world (model_step nf p t k m s)))
      as (e1 & T1 & R1); [discriminate | intros sl Hne; apply model_step_silent, Hne|].
    destruct (IH (S k) (model_step nf p t k m s)) as (e2 & T2 & D2 & R2).
    exists (e2 ++ e1). split; [rewrite T2, T1, app_assoc; reflexivity|].
    rewrite dispatch_ranks_app. split.
    + apply descending_app; [exact D2 | eapply descending_const, R1|].
      intros x y Hx Hy. rewrite Forall_forall in R1, R2.
      specialize (R1 y Hy). specialize (R2 x Hx). simpl in R1. lia.
    + apply Forall_app. split.
      * eapply Forall_impl; [exact R2|]. simpl. intros; lia.
      * eapply Forall_impl; [exact R1|]. simpl. intros; lia.
Qed.

(** X22: within a frame the slots are served in a fixed order.  The
    mixer is advanced before any script runs; then everything the
    driver does for the scene slot (parsing, the top-level run, the
    call of [update], its error logs) comes before anything it does for
    an entity, and what it does for the entity at a lower index comes
    before what it does for one at a higher index: the work for two
    slots is never interleaved. *)
Theorem X22_frame_serves_slots_in_order nf p t s :
  let evs := events_since (world s) (world (useFrame nf p t s)) in
  descending (dispatch_ranks evs) /\
  (mixer (world s) <> None -> last evs = Some (EvMixerUpdate (tick_delta t))).
Proof.
  cbv zeta.
  assert (H : exists evs,
             trace (world (useFrame nf p t s))
             = evs ++ trace (mixer_update (tick_delta t) (world s)) /\
             descending (dispatch_ranks evs)).
  { unfold useFrame. destruct (isEditMode p).
    { exists []. split; [reflexivity | exact I]. }
    unfold run_scripts.
    set (s0 := set_world (mixer_update (tick_delta t) (world s)) s).
    destruct (silent_family_ranks SceneSlot (EntitySlot 0) (world s0)
                (world (scene_part nf p t s0).1))
      as (e1 & T1 & R1);
      [discriminate | intros sl Hne; apply scene_part_silent, Hne|].
    destruct (scene_part nf p t s0) as [s1 [v|err]]; simpl in T1.
    - destruct (models_loop_ranks nf p t (uploadedModels p) 0 s1)
        as (e2 & T2 & D2 & R2).
      exists (e2 ++ e1). split; [rewrite T2, T1, app_assoc; reflexivity|].
      rewrite dispatch_ranks_app.
      apply descending_app; [exact D2 | eapply descending_const, R1|].
      intros x y Hx Hy. rewrite Forall_forall in R1, R2.
      specialize (R1 y Hy). specialize (R2 x Hx). simpl in R1. lia.
    - exists (EvLog (ErrorInScriptExecution err) :: e1).
      split; [simpl; rewrite T1; reflexivity|].
      simpl. eapply descending_const, R1. }
  destruct H as (evs & T & D). unfold mixer_update in T.
  destruct (mixer (world s)) as [mx|] eqn:Em; simpl in T.
  - rewrite (events_since_app _ _ (evs ++ [EvMixerUpdate (tick_delta t)]))
      by (rewrite T, <- app_assoc; reflexivity).
    split; [|intros _; apply last_snoc].
    rewrite dispatch_ranks_app. simpl. rewrite app_nil_r. exact D.
  - rewrite (events_since_app _ _ evs T). split; [exact D|].
    intros H. contradiction.
Qed.
